(** * An agenda-based recogniser and parser for multiple context-free grammars

    A shallow embedding of [src/mcfg_parser/grammar.py], [tree.py] and
    [abparser.py], and the properties of the rule mechanics and of the chart
    engine that hold of it.

    Conventions of the embedding:
    - a Python exception is a value [Raise e] of the result type; a
      [while] loop or an unbounded recursion takes a fuel argument and
      answers [OutOfFuel] when it is exhausted;
    - a Python [set] is a list (the order of the list is the iteration order of
      the set); a [dict] is an association list in which the newest binding
      of a key is found first;
    - a span is a pair of integers; a text is a string whose characters are
      the code points below 256, with the classes [\w] and [str.isspace] of
      Python on them. *)

From Stdlib Require Import List String Ascii ZArith Arith Bool Lia.
From Stdlib Require Import DecimalString.
Import ListNotations.

Set Implicit Arguments.
Set Warnings "-register-all".

(** ** Python results *)

Module Py.

Inductive exn : Type :=
| ValueError
| KeyError
| IndexError
| UnboundLocalError
| TypeError
| AttributeError.

Inductive result (A : Type) : Type :=
| Ok (a : A)
| Raise (e : exn)
| OutOfFuel.

Arguments Ok {A} a.
Arguments Raise {A} e.
Arguments OutOfFuel {A}.

Definition bind {A B : Type} (m : result A) (k : A -> result B) : result B :=
  match m with
  | Ok a => k a
  | Raise e => Raise e
  | OutOfFuel => OutOfFuel
  end.

(** [returns m] : the computation ends with a value, it neither raises nor
    runs out of fuel. *)
Definition returns {A : Type} (m : result A) : Prop := exists a, m = Ok a.

(** Sequencing a list of computations from left to right, as a list
    comprehension or a [for] loop over its elements does. *)
Fixpoint mapM {A B : Type} (f : A -> result B) (l : list A) : result (list B) :=
  match l with
  | [] => Ok []
  | a :: l' =>
      bind (f a) (fun b => bind (mapM f l') (fun bs => Ok (b :: bs)))
  end.

End Py.

Import Py.

Declare Scope py_scope.
Delimit Scope py_scope with py.
Notation "x <- m ;; k" := (bind m (fun x => k))
  (at level 61, m at next level, right associativity) : py_scope.
Open Scope py_scope.
Open Scope string_scope.

(** ** grammar.py *)

(** A string variable of a rule element is a position (an [int]) in a
    rule that rewrites variables, and the terminal word itself in a lexical
    rule: [MCFGRuleElement('D', ('the',))]. *)
Inductive strvar : Type :=
| Pos (n : nat)
| Word (w : string).

Definition strvar_eq_dec (a b : strvar) : {a = b} + {a <> b}.
Proof.
  decide equality; [apply Nat.eq_dec | apply string_dec].
Defined.

Definition strvar_eqb (a b : strvar) : bool :=
  if strvar_eq_dec a b then true else false.

Definition StringVariables : Type := list strvar.
Definition SpanIndices : Type := (Z * Z)%type.
Definition SpanMap : Type := list (strvar * SpanIndices).

Record MCFGRuleElement : Type := mkElement {
  variable : string;
  string_variables : list StringVariables
}.

Record MCFGRuleElementInstance : Type := mkInstance {
  inst_variable : string;
  string_spans : list SpanIndices
}.

Record MCFGRule : Type := mkRule {
  left_side : MCFGRuleElement;
  right_side : list MCFGRuleElement
}.

Definition span_eq_dec (a b : SpanIndices) : {a = b} + {a <> b}.
Proof.
  decide equality; apply Z.eq_dec.
Defined.

Definition element_eq_dec (a b : MCFGRuleElement) : {a = b} + {a <> b}.
Proof.
  decide equality;
    [apply (list_eq_dec (list_eq_dec strvar_eq_dec)) | apply string_dec].
Defined.

Definition instance_eq_dec (a b : MCFGRuleElementInstance) : {a = b} + {a <> b}.
Proof.
  decide equality; [apply (list_eq_dec span_eq_dec) | apply string_dec].
Defined.

Definition rule_eq_dec (a b : MCFGRule) : {a = b} + {a <> b}.
Proof.
  decide equality; [apply (list_eq_dec element_eq_dec) | apply element_eq_dec].
Defined.

(** [MCFGRuleElement.unique_string_variables]: the set of the variables of
    all components. *)
Definition unique_string_variables (el : MCFGRuleElement) : list strvar :=
  List.concat (string_variables el).

Definition mem (v : strvar) (s : list strvar) : bool :=
  existsb (strvar_eqb v) s.

(** [vs1.intersection(vs2)] is truthy when the two sets meet. *)
Definition intersects (s1 s2 : list strvar) : bool :=
  existsb (fun v => mem v s2) s1.

Definition set_eqb (s1 s2 : list strvar) : bool :=
  forallb (fun v => mem v s2) s1 && forallb (fun v => mem v s1) s2.

(** [any(vs1.intersection(vs2) for i, vs1 ... for j, vs2 ... if i < j)] *)
Fixpoint sharing (vs : list (list strvar)) : bool :=
  match vs with
  | [] => false
  | v :: rest => existsb (intersects v) rest || sharing rest
  end.

Definition is_epsilon (r : MCFGRule) : bool :=
  match right_side r with
  | [] => true
  | _ :: _ => false
  end.

(** [MCFGRule._validate] *)
Definition _validate (r : MCFGRule) : result unit :=
  let vs := map unique_string_variables (right_side r) in
  if sharing vs then Raise ValueError
  else if is_epsilon r then Ok tt
  else
    let left_vars := unique_string_variables (left_side r) in
    let right_vars := List.concat vs in
    if set_eqb left_vars right_vars then Ok tt else Raise ValueError.

(** [MCFGRule.__init__]: the constructor validates the rule it builds. *)
Definition MCFGRule_init (left : MCFGRuleElement)
    (right : list MCFGRuleElement) : result MCFGRule :=
  let r := mkRule left right in
  _ <- _validate r ;; Ok r.

(** [MCFGRule._right_side_aligns] *)
Definition _right_side_aligns (r : MCFGRule)
    (rs : list MCFGRuleElementInstance) : bool :=
  if Nat.eqb (List.length rs) (List.length (right_side r)) then
    let vars_match :=
      forallb (fun p => String.eqb (variable (fst p)) (inst_variable (snd p)))
              (combine (right_side r) rs) in
    let strvars_match :=
      forallb (fun p => Nat.eqb (List.length (string_variables (fst p)))
                                (List.length (string_spans (snd p))))
              (combine (right_side r) rs) in
    vars_match && strvars_match
  else false.

(** Dictionaries: [dict_set] adds or overrides a binding, [dict_get] is
    [d[k]] and raises [KeyError] on a key that is not bound. *)
Definition dict_set (k : strvar) (s : SpanIndices) (d : SpanMap) : SpanMap :=
  (k, s) :: d.

Fixpoint dict_get (d : SpanMap) (k : strvar) : result SpanIndices :=
  match d with
  | [] => Raise KeyError
  | (k', s) :: d' => if strvar_eqb k k' then Ok s else dict_get d' k
  end.

(** The dictionary comprehension of [_build_span_map], one
    [(strvar, strspan)] pair after the other; [strvar[0]] raises
    [IndexError] on an empty component. *)
Fixpoint span_map_of (d : SpanMap)
    (pairs : list (StringVariables * SpanIndices)) : result SpanMap :=
  match pairs with
  | [] => Ok d
  | (sv, strspan) :: rest =>
      match sv with
      | [] => Raise IndexError
      | k :: _ => span_map_of (dict_set k strspan d) rest
      end
  end.

Definition zipped_components (r : MCFGRule)
    (rs : list MCFGRuleElementInstance)
  : list (StringVariables * SpanIndices) :=
  flat_map (fun p => combine (string_variables (fst p)) (string_spans (snd p)))
           (combine (right_side r) rs).

(** [MCFGRule._build_span_map] *)
Definition _build_span_map (r : MCFGRule)
    (rs : list MCFGRuleElementInstance) : result SpanMap :=
  if _right_side_aligns r rs then span_map_of [] (zipped_components r rs)
  else Raise ValueError.

(** The inner loop of [instantiate_left_side],
    [for i in range(1, len(vs))], entered with [prev = vs[0]] and the rest of
    the component: [Ok false] is the [return None] of the loop. *)
Fixpoint adjacent_from (m : SpanMap) (prev : strvar) (rest : list strvar)
  : result bool :=
  match rest with
  | [] => Ok true
  | cur :: rest' =>
      sp <- dict_get m prev ;;
      sc <- dict_get m cur ;;
      if Z.eqb (snd sp) (fst sc) then adjacent_from m cur rest'
      else Ok false
  end.

(** One round of the outer loop: the adjacency checks of the component
    [vs], then the span [(span_map[vs[0]][0], span_map[vs[-1]][1])]. *)
Definition component_span (m : SpanMap) (vs : StringVariables)
  : result (option SpanIndices) :=
  match vs with
  | [] => Raise IndexError
  | v0 :: rest =>
      ok <- adjacent_from m v0 rest ;;
      if ok then
        b <- dict_get m v0 ;;
        e <- dict_get m (last vs v0) ;;
        Ok (Some (fst b, snd e))
      else Ok None
  end.

(** The outer loop, [for vs in self._left_side.string_variables]. *)
Fixpoint new_spans_of (m : SpanMap) (comps : list StringVariables)
  : result (option (list SpanIndices)) :=
  match comps with
  | [] => Ok (Some [])
  | vs :: comps' =>
      o <- component_span m vs ;;
      match o with
      | None => Ok None
      | Some sp =>
          r <- new_spans_of m comps' ;;
          Ok (option_map (cons sp) r)
      end
  end.

(** [v[0] for v in self._left_side.string_variables] *)
Definition first_of (vs : StringVariables) : result strvar :=
  match vs with
  | [] => Raise IndexError
  | v :: _ => Ok v
  end.

(** The part of [instantiate_left_side] after the lexical case. *)
Definition instantiate_by_span_map (r : MCFGRule)
    (rs : list MCFGRuleElementInstance)
  : result (option MCFGRuleElementInstance) :=
  span_map <- _build_span_map r rs ;;
  o <- new_spans_of span_map (string_variables (left_side r)) ;;
  Ok (option_map (mkInstance (variable (left_side r))) o).

(** [MCFGRule.instantiate_left_side]; [Ok None] is the value [None]. *)
Definition instantiate_left_side (r : MCFGRule)
    (rs : list MCFGRuleElementInstance)
  : result (option MCFGRuleElementInstance) :=
  if is_epsilon r then
    strvars <- mapM first_of (string_variables (left_side r)) ;;
    let strconst := map (fun el => Word (inst_variable el)) rs in
    if list_eq_dec strvar_eq_dec strconst strvars then
      Ok (Some (mkInstance (variable (left_side r))
                           (flat_map string_spans rs)))
    else instantiate_by_span_map r rs
  else instantiate_by_span_map r rs.

(** [MultipleContextFreeGrammar]: the rules and the start variables are the
    two attributes the chart engine reads. *)
Record MultipleContextFreeGrammar : Type := mkGrammar {
  _rules : list MCFGRule;
  _start_variables : list MCFGRuleElement
}.

(** [rule.left_side.string_variables[0][0]] *)
Definition first_literal (r : MCFGRule) : result strvar :=
  match string_variables (left_side r) with
  | [] => Raise IndexError
  | vs :: _ => first_of vs
  end.

(** [MultipleContextFreeGrammar.parts_of_speech(word)], the set
    comprehension over the rules. *)
Fixpoint lexical_rules (rules : list MCFGRule) (word : string)
  : result (list MCFGRule) :=
  match rules with
  | [] => Ok []
  | rule :: rules' =>
      if is_epsilon rule then
        v <- first_literal rule ;;
        rest <- lexical_rules rules' word ;;
        Ok (if strvar_eqb v (Word word) then rule :: rest else rest)
      else lexical_rules rules' word
  end.

Definition parts_of_speech (g : MultipleContextFreeGrammar) (word : string)
  : result (list MCFGRule) :=
  lexical_rules (_rules g) word.

(** [MultipleContextFreeGrammar.reduce] *)
Definition reduce (g : MultipleContextFreeGrammar)
    (rs : list MCFGRuleElementInstance) : list MCFGRule :=
  filter (fun r => _right_side_aligns r rs) (_rules g).

(** ** tree.py *)

Inductive Tree : Type :=
| Node (data : string) (children : list Tree).

(** [Tree.__eq__] compares [to_tuple()], the structure of the two trees. *)
Fixpoint tree_eqb (t u : Tree) {struct t} : bool :=
  match t, u with
  | Node d cs, Node e ds =>
      String.eqb d e &&
      (fix all2 (l : list Tree) (m : list Tree) {struct l} : bool :=
         match l, m with
         | [], [] => true
         | a :: l', b :: m' => tree_eqb a b && all2 l' m'
         | _, _ => false
         end) cs ds
  end.

(** A set built from a list: the elements without repetition. *)
Fixpoint set_of (l : list Tree) : list Tree :=
  match l with
  | [] => []
  | t :: l' => if existsb (tree_eqb t) l' then set_of l' else t :: set_of l'
  end.

(** ** abparser.py *)

(** A back-pointer is [None] or a pair [(index, variable)]. *)
Definition ABBackPointer : Type := option (nat * string).

Record ABEntry : Type := mkEntry {
  symbol : MCFGRuleElementInstance;
  index : nat;
  backpointers : list (list ABBackPointer)
}.

(** [x[i]] on a list, with Python's negative indices. *)
Definition py_getitem {A : Type} (l : list A) (i : Z) : result A :=
  let n := Z.of_nat (List.length l) in
  let j := if (i <? 0)%Z then (i + n)%Z else i in
  if ((0 <=? j) && (j <? n))%Z then
    match nth_error l (Z.to_nat j) with
    | Some a => Ok a
    | None => Raise IndexError
    end
  else Raise IndexError.

(** The list comprehension of [_combine] and its filter
    [if i is not None]. *)
Fixpoint somes {A : Type} (l : list (option A)) : list A :=
  match l with
  | [] => []
  | Some a :: l' => a :: somes l'
  | None :: l' => somes l'
  end.

Definition instantiate_all (rules : list MCFGRule)
    (rs : list MCFGRuleElementInstance)
  : result (list MCFGRuleElementInstance) :=
  l <- mapM (fun r => instantiate_left_side r rs) rules ;; Ok (somes l).

(** [AgendaBasedParser._combine]: the orientation and the tuple of
    instances, [None] when no rule reduces either order. *)
Definition _combine (g : MultipleContextFreeGrammar) (current element : ABEntry)
  : result (nat * option (list MCFGRuleElementInstance)) :=
  match reduce g [symbol current; symbol element] with
  | [] =>
      match reduce g [symbol element; symbol current] with
      | [] => Ok (0, None)
      | possible_rules =>
          result <- instantiate_all possible_rules
                      [symbol element; symbol current] ;;
          Ok (1, Some result)
      end
  | possible_rules =>
      result <- instantiate_all possible_rules
                  [symbol current; symbol element] ;;
      Ok (0, Some result)
  end.

(** The entry built for an instance [c] of the combination. *)
Definition new_parse (r : nat) (current element : ABEntry)
    (c : MCFGRuleElementInstance) (next_id : nat) : ABEntry :=
  let bp (e : ABEntry) : ABBackPointer :=
    Some (index e, inst_variable (symbol e)) in
  if Nat.eqb r 0 then mkEntry c next_id [[bp current; bp element]]
  else mkEntry c next_id [[bp element; bp current]].

(** [for c in combination]: the agenda grows at its end and [next_id]
    counts on. *)
Fixpoint append_parses (r : nat) (current element : ABEntry)
    (combination : list MCFGRuleElementInstance)
    (agenda : list ABEntry) (next_id : nat) : list ABEntry * nat :=
  match combination with
  | [] => (agenda, next_id)
  | c :: cs =>
      append_parses r current element cs
        (agenda ++ [new_parse r current element c next_id])%list (S next_id)
  end.

(** [for element in chart] *)
Fixpoint scan_chart (g : MultipleContextFreeGrammar) (current : ABEntry)
    (elements : list ABEntry) (agenda : list ABEntry) (next_id : nat)
  : result (list ABEntry * nat) :=
  match elements with
  | [] => Ok (agenda, next_id)
  | element :: rest =>
      rc <- _combine g current element ;;
      let an :=
        match snd rc with
        | Some combination =>
            append_parses (fst rc) current element combination agenda next_id
        | None => (agenda, next_id)
        end in
      scan_chart g current rest (fst an) (snd an)
  end.

(** The local variables of [_fill_chart] in its [while] loop. *)
Record state : Type := mkState {
  agenda : list ABEntry;
  chart : list ABEntry;
  chart_ids : list nat;
  next_id : nat
}.

(** One round of [while agenda]: [current] is popped from the front. *)
Definition loop_body (g : MultipleContextFreeGrammar) (current : ABEntry)
    (rest : list ABEntry) (st : state) : result state :=
  an <- scan_chart g current (chart st) rest (next_id st) ;;
  if existsb (Nat.eqb (index current)) (chart_ids st) then
    Ok (mkState (fst an) (chart st) (chart_ids st) (snd an))
  else
    Ok (mkState (fst an) (chart st ++ [current])%list
                (index current :: chart_ids st) (snd an)).

Fixpoint while_agenda (fuel : nat) (g : MultipleContextFreeGrammar)
    (st : state) : result (list ABEntry) :=
  match agenda st with
  | [] => Ok (chart st)
  | current :: rest =>
      match fuel with
      | O => OutOfFuel
      | S fuel' =>
          st' <- loop_body g current rest st ;;
          while_agenda fuel' g st'
      end
  end.

(** The seed of one lexical rule at position [idx].  A lexical rule applied
    to one instance returns an instance or raises ([seed_symbol] below), so
    the last case is never reached. *)
Definition seed_entry (word : string) (idx : nat) (rule : MCFGRule)
  : result ABEntry :=
  o <- instantiate_left_side rule
         [mkInstance word [(Z.of_nat idx, (Z.of_nat idx + 1)%Z)]] ;;
  match o with
  | Some sym => Ok (mkEntry sym 0 [[None; None]])
  | None => Raise AttributeError
  end.

(** [for idx, word in enumerate(string)] *)
Fixpoint seed (g : MultipleContextFreeGrammar) (idx : nat)
    (words : list string) : result (list ABEntry) :=
  match words with
  | [] => Ok []
  | word :: words' =>
      possible_rules <- parts_of_speech g word ;;
      entries <- mapM (seed_entry word idx) possible_rules ;;
      rest <- seed g (S idx) words' ;;
      Ok (entries ++ rest)%list
  end.

(** [for n, e in enumerate(agenda): e._index = n] *)
Fixpoint reindex (n : nat) (entries : list ABEntry) : list ABEntry :=
  match entries with
  | [] => []
  | e :: es => mkEntry (symbol e) n (backpointers e) :: reindex (S n) es
  end.

(** The state in which the loop is entered.  [next_id = n+1] reads the loop
    variable [n], which no loop has bound when nothing was seeded. *)
Definition init_state (g : MultipleContextFreeGrammar) (words : list string)
  : result state :=
  seeds <- seed g 0 words ;;
  match seeds with
  | [] => Raise UnboundLocalError
  | _ :: _ => Ok (mkState (reindex 0 seeds) [] [] (List.length seeds))
  end.

(** [AgendaBasedParser._fill_chart] *)
Definition _fill_chart (fuel : nat) (g : MultipleContextFreeGrammar)
    (words : list string) : result (list ABEntry) :=
  st <- init_state g words ;;
  while_agenda fuel g st.

(** The states of the loop: the first one, and the one after each round. *)
Inductive reachable (g : MultipleContextFreeGrammar) (words : list string)
  : state -> Prop :=
| reach_init : forall st,
    init_state g words = Ok st -> reachable g words st
| reach_round : forall st current rest st',
    reachable g words st ->
    agenda st = current :: rest ->
    loop_body g current rest st = Ok st' ->
    reachable g words st'.

(** The test of [_recognize] and [_parse] on a chart entry. *)
Definition is_start_node (g : MultipleContextFreeGrammar)
    (words : list string) (entry : ABEntry) : bool :=
  let sv := map variable (_start_variables g) in
  existsb (String.eqb (inst_variable (symbol entry))) sv &&
  (if list_eq_dec span_eq_dec (string_spans (symbol entry))
        [(0%Z, Z.of_nat (List.length words))]
   then true else false).

(** [AgendaBasedParser._recognize]: [any] of a list of entries, which are
    all truthy, is true when the list is not empty. *)
Definition _recognize (fuel : nat) (g : MultipleContextFreeGrammar)
    (words : list string) : result bool :=
  chart <- _fill_chart fuel g words ;;
  Ok (match filter (is_start_node g words) chart with
      | [] => false
      | _ :: _ => true
      end).

(** [AgendaBasedParser._get_item] *)
Fixpoint _get_item (inventory : list ABEntry) (idx : nat) : option ABEntry :=
  match inventory with
  | [] => None
  | i :: inventory' =>
      if Nat.eqb (index i) idx then Some i else _get_item inventory' idx
  end.

(** [not entry.backpointers or not any(bp for bps in ... for bp in bps)] *)
Definition is_leaf (entry : ABEntry) : bool :=
  forallb (fun bp : ABBackPointer =>
             match bp with None => true | Some _ => false end)
          (List.concat (backpointers entry)).

(** [AgendaBasedParser._construct_parses]; [fuel] bounds the depth of the
    recursion. *)
Fixpoint _construct_parses (fuel : nat) (chart : list ABEntry)
    (words : list string) (entry : ABEntry) : result Tree :=
  match fuel with
  | O => OutOfFuel
  | S fuel' =>
      if is_leaf entry then
        match string_spans (symbol entry) with
        | [] => Raise IndexError
        | sp :: _ =>
            word <- py_getitem words (fst sp) ;;
            Ok (Node (inst_variable (symbol entry) ++ "(" ++ word ++ ")") [])
        end
      else
        children <-
          mapM (fun bp : ABBackPointer =>
                  match bp with
                  | None => Raise TypeError
                  | Some (child_entry_id, _) =>
                      match _get_item chart child_entry_id with
                      | None => Raise AttributeError
                      | Some child_entry =>
                          _construct_parses fuel' chart words child_entry
                      end
                  end)
               (List.concat (backpointers entry)) ;;
        Ok (Node (inst_variable (symbol entry)) children)
  end.

(** [AgendaBasedParser._parse]: [Some] set of trees, or [None] after the
    message that the sentence cannot be parsed.  [fuel] bounds the rounds of
    the loop of [_fill_chart] and the depth of [_construct_parses]. *)
Definition _parse (fuel : nat) (g : MultipleContextFreeGrammar)
    (words : list string) : result (option (list Tree)) :=
  chart <- _fill_chart fuel g words ;;
  let start_nodes := filter (is_start_node g words) chart in
  if Nat.leb 1 (List.length start_nodes) then
    trees <- mapM (_construct_parses fuel chart words) start_nodes ;;
    Ok (Some (set_of trees))
  else Ok None.

(** ** Rule text: [re.findall], [MCFGRule.from_string], [__str__] *)

(** Text.  A [string] stands for the Python [str] of its characters, read
    as code points: the character [ascii_of_nat n] is the code point [n],
    so the strings here are the [str] values over the code points below
    256.  In a string literal of this file a character beyond ASCII is not
    one character but the bytes of its UTF-8 encoding; such a character is
    written by its code, [String "233" ""] for the letter e with an acute
    accent. *)

(** The part of Python's regular expressions that the two patterns of
    [from_string] use.  [Plus] is the greedy [+], [PlusLazy] is [+?], [Opt]
    is the greedy [?], [Group n] is the [n]-th capturing group. *)
Inductive regex : Type :=
| Eps
| Chr (p : ascii -> bool)
| Seq (a b : regex)
| Alt (a b : regex)
| Opt (a : regex)
| Plus (a : regex)
| PlusLazy (a : regex)
| Group (n : nat) (a : regex).

(** A state of the matcher: the text that is left and the groups captured
    so far (the newest first). *)
Definition captures : Type := list (nat * string).
Definition mstate : Type := (string * captures)%type.

Definition shorter (a b : mstate) : bool :=
  Nat.ltb (String.length (fst a)) (String.length (fst b)).

(** [consumed s rest]: the text matched between [s] and its suffix [rest]. *)
Definition consumed (s rest : string) : string :=
  substring 0 (String.length s - String.length rest) s.

(** Repetition, in the order in which a backtracking matcher tries: the
    greedy one repeats before it stops, the lazy one stops before it
    repeats.  A round that consumes nothing is not repeated. *)
Fixpoint greedy (step : mstate -> list mstate) (fuel : nat) (st : mstate)
  : list mstate :=
  match fuel with
  | O => []
  | S fuel' =>
      flat_map (fun st' =>
                  ((if shorter st' st then greedy step fuel' st' else [])
                     ++ [st'])%list)
               (step st)
  end.

Fixpoint lazy (step : mstate -> list mstate) (fuel : nat) (st : mstate)
  : list mstate :=
  match fuel with
  | O => []
  | S fuel' =>
      flat_map (fun st' =>
                  st' :: (if shorter st' st then lazy step fuel' st' else []))
               (step st)
  end.

(** [pm r st]: all the ways in which [r] matches a prefix of the text of
    [st], in the order of preference of the backtracking matcher. *)
Fixpoint pm (r : regex) (st : mstate) : list mstate :=
  match r with
  | Eps => [st]
  | Chr p =>
      match fst st with
      | String c s' => if p c then [(s', snd st)] else []
      | EmptyString => []
      end
  | Seq a b => flat_map (pm b) (pm a st)
  | Alt a b => (pm a st ++ pm b st)%list
  | Opt a => (pm a st ++ [st])%list
  | Plus a => greedy (pm a) (S (String.length (fst st))) st
  | PlusLazy a => lazy (pm a) (S (String.length (fst st))) st
  | Group n a =>
      map (fun st' => (fst st', (n, consumed (fst st) (fst st')) :: snd st'))
          (pm a st)
  end.

(** [m.group(n)] as [findall] reports it: the text of the group, the empty
    string for a group that took no part in the match. *)
Fixpoint group (n : nat) (c : captures) : string :=
  match c with
  | [] => ""
  | (k, s) :: c' => if Nat.eqb k n then s else group n c'
  end.

(** The scan of [re.findall]: the matches from left to right, without
    overlap.  [skip] counts the characters that the last match still
    covers.  After an empty match the same position is tried once more for
    a match that is not empty, then the scan moves on. *)
Fixpoint scan (r : regex) (s : string) (skip : nat) : list captures :=
  let next (k : nat) : list captures :=
    match s with
    | String _ s' => scan r s' k
    | EmptyString => []
    end in
  match skip with
  | S k => next k
  | O =>
      let len (st : mstate) : nat :=
        String.length s - String.length (fst st) in
      match pm r (s, []) with
      | [] => next 0
      | st1 :: sts =>
          if shorter st1 (s, [])
          then snd st1 :: next (len st1 - 1)
          else
            snd st1 ::
            match find (fun st2 => shorter st2 (s, [])) sts with
            | Some st2 => snd st2 :: next (len st2 - 1)
            | None => next 0
            end
      end
  end.

(** [re.findall] for a pattern with one group, and with two. *)
Definition findall1 (r : regex) (s : string) : list string :=
  map (group 1) (scan r s 0).

Definition findall2 (r : regex) (s : string) : list (string * string) :=
  map (fun c => (group 1 c, group 2 c)) (scan r s 0).

(** [\w] in a pattern that is a [str]: the alphanumeric characters of
    Unicode and the underscore.  Below 128 these are the digits, the
    letters and the underscore; from 128 to 255 they are the two ordinal
    indicators and the micro sign (170, 186, 181), the superscript digits
    (178, 179, 185), the three fractions (188 to 190) and the letters from
    192 on, which leaves out the multiplication and the division sign (215,
    247). *)
Definition is_word (c : ascii) : bool :=
  let n := nat_of_ascii c in
  let within (lo hi : nat) : bool := Nat.leb lo n && Nat.leb n hi in
  within 48 57 || within 65 90 || Nat.eqb n 95 || within 97 122 ||
  Nat.eqb n 170 || within 178 179 || Nat.eqb n 181 || within 185 186 ||
  within 188 190 || within 192 214 || within 216 246 || within 248 255.

Definition lit_char (c : ascii) : regex := Chr (Ascii.eqb c).

(** A text without special characters, as a pattern. *)
Fixpoint lit (s : string) : regex :=
  match s with
  | EmptyString => Eps
  | String c s' => Seq (lit_char c) (lit s')
  end.

(** [\w+] *)
Definition word_chars : regex := Plus (Chr is_word).

(** [\w+,? ?] *)
Definition vars_round : regex :=
  Seq word_chars (Seq (Opt (lit_char ",")) (Opt (lit_char " "))).

(** ['(\w+)\(((?:\w+,? ?)+?)\)'] *)
Definition elem_pattern : regex :=
  Seq (Group 1 word_chars)
      (Seq (lit_char "(")
           (Seq (Group 2 (PlusLazy vars_round)) (lit_char ")"))).

(** ['|'.join(strvars)] *)
Fixpoint alternatives (strvars : list string) : regex :=
  match strvars with
  | [] => Eps
  | [v] => lit v
  | v :: vs => Alt (lit v) (alternatives vs)
  end.

(** ['(' + '|'.join(strvars) + ')']: the variables are pieces of a match of
    [\w+,? ?] without the commas, words and blanks, so that each stands for
    itself in the pattern. *)
Definition strvar_pattern (strvars : list string) : regex :=
  Group 1 (alternatives strvars).

(** [s.split(',')] *)
Fixpoint split_on (sep : ascii) (s : string) : list string :=
  match s with
  | EmptyString => [""]
  | String c s' =>
      if Ascii.eqb c sep then "" :: split_on sep s'
      else
        match split_on sep s' with
        | [] => [String c ""]
        | piece :: pieces => String c piece :: pieces
        end
  end.

(** The characters that [str.strip] removes, those of [str.isspace]:
    below 256 the controls 9 to 13 and 28 to 31, the space, the next-line
    control (133) and the no-break space (160). *)
Definition is_space (c : ascii) : bool :=
  let n := nat_of_ascii c in
  (Nat.leb 9 n && Nat.leb n 13) || (Nat.leb 28 n && Nat.leb n 32) ||
  Nat.eqb n 133 || Nat.eqb n 160.

Fixpoint lstrip (s : string) : string :=
  match s with
  | EmptyString => ""
  | String c s' => if is_space c then lstrip s' else s
  end.

Fixpoint rstrip (s : string) : string :=
  match s with
  | EmptyString => ""
  | String c s' =>
      match rstrip s' with
      | EmptyString => if is_space c then "" else String c ""
      | t => String c t
      end
  end.

(** [s.strip()] *)
Definition strip (s : string) : string := rstrip (lstrip s).

(** [l.index(v)] *)
Fixpoint index_of (l : list string) (v : string) : result nat :=
  match l with
  | [] => Raise ValueError
  | x :: l' =>
      if String.eqb x v then Ok 0
      else n <- index_of l' v ;; Ok (S n)
  end.

(** [len(strvars) == len(set(strvars))] *)
Fixpoint all_distinct (l : list string) : bool :=
  match l with
  | [] => true
  | x :: l' => negb (existsb (String.eqb x) l') && all_distinct l'
  end.

(** [MCFGRule.from_string] *)
Definition from_string (rule_string : string) : result MCFGRule :=
  let elem_strs := findall2 elem_pattern rule_string in
  let elem_tuples :=
    map (fun p => (fst p, map strip (split_on "," (snd p)))) elem_strs in
  match elem_tuples with
  | [(var, svs)] => MCFGRule_init (mkElement var [map Word svs]) []
  | [] => Raise IndexError
  | lhs :: rights =>
      let strvars := flat_map snd rights in
      if all_distinct strvars then
        comps <-
          mapM (fun vs =>
                  mapM (fun v => n <- index_of strvars v ;; Ok (Pos n))
                       (findall1 (strvar_pattern strvars) vs))
               (snd lhs) ;;
        rights' <-
          mapM (fun p =>
                  cs <- mapM (fun sv => n <- index_of strvars sv ;;
                                        Ok [Pos n])
                             (snd p) ;;
                  Ok (mkElement (fst p) cs))
               rights ;;
        MCFGRule_init (mkElement (fst lhs) comps) rights'
      else Raise ValueError
  end.

(** [str(v)] for a string variable: the decimal digits of a position, the
    word itself. *)
Definition str_strvar (v : strvar) : string :=
  match v with
  | Pos n => NilEmpty.string_of_uint (Nat.to_uint n)
  | Word w => w
  end.

Arguments str_strvar : simpl never.

(** [MCFGRuleElement.__str__] *)
Definition str_element (el : MCFGRuleElement) : string :=
  let strvars :=
    String.concat ", "
      (map (fun vtup => String.concat "" (map str_strvar vtup))
           (string_variables el)) in
  variable el ++ "(" ++ strvars ++ ")".

(** [MCFGRule.__str__] *)
Definition str_rule (r : MCFGRule) : string :=
  if is_epsilon r then str_element (left_side r)
  else str_element (left_side r) ++ " -> " ++
       String.concat " " (map str_element (right_side r)).

(** ** Notions used in the statements *)

(** The span that the span map gives a variable, read where the variable is
    bound. *)
Definition span_of (m : SpanMap) (v : strvar) : SpanIndices :=
  match dict_get m v with
  | Ok s => s
  | _ => (0, 0)%Z
  end.

Definition bound (m : SpanMap) (v : strvar) : Prop :=
  exists s, dict_get m v = Ok s.

(** [end(span_map[v(i-1)]) = begin(span_map[v(i)])] for every [i] in
    [1..k], for the component [(v0, ..., vk)]. *)
Definition adjacent (m : SpanMap) (vs : StringVariables) : Prop :=
  forall i, 1 <= i < List.length vs ->
    snd (span_of m (nth (i - 1) vs (Pos 0))) =
    fst (span_of m (nth i vs (Pos 0))).

(** [(begin(span_map[v0]), end(span_map[vk]))] *)
Definition concatenated (m : SpanMap) (vs : StringVariables) : SpanIndices :=
  (fst (span_of m (hd (Pos 0) vs)), snd (span_of m (last vs (Pos 0)))).

(** Every component of the left side names at least one variable, and the
    span map binds every variable that the left side names. *)
Definition resolves (m : SpanMap) (r : MCFGRule) : Prop :=
  forall vs, In vs (string_variables (left_side r)) ->
    vs <> [] /\ forall v, In v vs -> bound m v.

(** The three ways in which instances fail the alignment check. *)
Definition misaligned (r : MCFGRule) (rs : list MCFGRuleElementInstance)
  : Prop :=
  List.length rs <> List.length (right_side r) \/
  exists el inst, In (el, inst) (combine (right_side r) rs) /\
    (variable el <> inst_variable inst \/
     List.length (string_variables el) <> List.length (string_spans inst)).

(** The right side as [from_string] builds it: one variable in each
    component. *)
Definition single_variables (r : MCFGRule) : Prop :=
  forall el vs, In el (right_side r) -> In vs (string_variables el) ->
    exists v, vs = [v].

(** *** Rules and grammars of the examples *)

(** ["VPwhrc(v, uw) -> Vpres(u) Sbarwhrc(v, w)"], the rule of the tests of
    [grammar.py]. *)
Definition rule_1 : MCFGRule :=
  mkRule (mkElement "VPwhrc" [[Pos 1]; [Pos 0; Pos 2]])
         [mkElement "Vpres" [[Pos 0]];
          mkElement "Sbarwhrc" [[Pos 1]; [Pos 2]]].

(** [MCFGRule(MCFGRuleElement('A', (0, 1, 2)), MCFGRuleElement('B', (0, 1)),
    MCFGRuleElement('C', (2,)))]: a component of the right side with two
    variables. *)
Definition rule_two_in_component : MCFGRule :=
  mkRule (mkElement "A" [[Pos 0; Pos 1; Pos 2]])
         [mkElement "B" [[Pos 0; Pos 1]]; mkElement "C" [[Pos 2]]].

(** ["A(uv, x) -> B(u) C(v)"]: the second component of the left side names
    no variable of the right side. *)
Definition rule_empty_component : MCFGRule :=
  mkRule (mkElement "A" [[Pos 0; Pos 1]; []])
         [mkElement "B" [[Pos 0]]; mkElement "C" [[Pos 1]]].

Definition grammar_empty_component : MultipleContextFreeGrammar :=
  mkGrammar [rule_empty_component] [left_side rule_empty_component].

(** *** Chart entries and loop states *)

(** A seed: the leaf marker [(None, None)] and the span of one token. *)
Definition seed_shape (words : list string) (e : ABEntry) : Prop :=
  backpointers e = [[None; None]] /\
  exists idx, idx < List.length words /\
    string_spans (symbol e) = [(Z.of_nat idx, (Z.of_nat idx + 1)%Z)].

(** A derived entry: one pair of back-pointers, to two earlier entries. *)
Definition derived_shape (e : ABEntry) : Prop :=
  exists i0 n0 i1 n1,
    backpointers e = [[Some (i0, n0); Some (i1, n1)]] /\
    i0 < index e /\ i1 < index e.

Definition entry_shape (words : list string) (e : ABEntry) : Prop :=
  seed_shape words e \/ derived_shape e.

(** What every state of the loop satisfies: the entries of the chart and of
    the agenda, in this order, carry the ids [0, 1, ..., next_id - 1];
    each is a seed or is derived from earlier entries; [chart_ids] is the set
    of the ids of the chart. *)
Record invariant (words : list string) (st : state) : Prop := mkInvariant {
  inv_ids : map index (chart st ++ agenda st)%list = seq 0 (next_id st);
  inv_shape : Forall (entry_shape words) (chart st ++ agenda st)%list;
  inv_chart_ids : forall i, In i (chart_ids st) <-> In i (map index (chart st))
}.

(** The condition of acceptance: the variable is the name of a start
    variable and the spans are exactly [((0, n),)]. *)
Definition start_entry (g : MultipleContextFreeGrammar) (words : list string)
    (entry : ABEntry) : Prop :=
  In (inst_variable (symbol entry)) (map variable (_start_variables g)) /\
  string_spans (symbol entry) = [(0%Z, Z.of_nat (List.length words))].

(** A grammar of three rules, ["S(uv) -> A(u) B(v)"], ["A(a)"], ["B(b)"]. *)
Definition small_grammar : MultipleContextFreeGrammar :=
  mkGrammar
    [mkRule (mkElement "S" [[Pos 0; Pos 1]])
            [mkElement "A" [[Pos 0]]; mkElement "B" [[Pos 1]]];
     mkRule (mkElement "A" [[Word "a"]]) [];
     mkRule (mkElement "B" [[Word "b"]]) []]
    [mkElement "S" [[Pos 0; Pos 1]]].

(** The chart of [small_grammar] for the tokens [a b]. *)
Definition small_chart : list ABEntry :=
  [mkEntry (mkInstance "A" [(0, 1)%Z]) 0 [[None; None]];
   mkEntry (mkInstance "B" [(1, 2)%Z]) 1 [[None; None]];
   mkEntry (mkInstance "S" [(0, 2)%Z]) 2 [[Some (0, "A"); Some (1, "B")]]].

(** The rules of the grammar of the tests, [literal_rules] in
    [tests/parser_test.py], and the grammar that the tests build from them:
    its start variables are the elements named [S]. *)
Definition literal_rules : list string :=
  ["S(uv) -> NP(u) VP(v)"; "S(uv) -> NPwh(u) VP(v)";
   "S(vuw) -> Aux(u) Swhmain(v, w)"; "S(uvw) -> NPdisloc(u, v) VP(w)";
   "S(uwv) -> NPwhdisloc(u, v) VP(w)"; "Sbar(uv) -> C(u) S(v)";
   "Sbarwh(v, uw) -> C(u) Swhemb(v, w)"; "Sbarwh(u, v) -> NPwh(u) VP(v)";
   "Swhmain(v, uw) -> NP(u) VPwhmain(v, w)";
   "Swhmain(w, uxv) -> NPdisloc(u, v) VPwhmain(w, x)";
   "Swhemb(v, uw) -> NP(u) VPwhemb(v, w)";
   "Swhemb(w, uxv) -> NPdisloc(u, v) VPwhemb(w, x)";
   "Src(v, uw) -> NP(u) VPrc(v, w)";
   "Src(w, uxv) -> NPdisloc(u, v) VPrc(w, x)"; "Src(u, v) -> N(u) VP(v)";
   "Swhrc(u, v) -> Nwh(u) VP(v)"; "Swhrc(v, uw) -> NP(u) VPwhrc(v, w)";
   "Sbarwhrc(v, uw) -> C(u) Swhrc(v, w)"; "VP(uv) -> Vpres(u) NP(v)";
   "VP(uv) -> Vpres(u) Sbar(v)"; "VPwhmain(u, v) -> NPwh(u) Vroot(v)";
   "VPwhmain(u, wv) -> NPwhdisloc(u, v) Vroot(w)";
   "VPwhmain(v, uw) -> Vroot(u) Sbarwh(v, w)";
   "VPwhemb(u, v) -> NPwh(u) Vpres(v)";
   "VPwhemb(u, wv) -> NPwhdisloc(u, v) Vpres(w)";
   "VPwhemb(v, uw) -> Vpres(u) Sbarwh(v, w)"; "VPrc(u, v) -> N(u) Vpres(v)";
   "VPrc(v, uw) -> Vpres(u) Nrc(v, w)"; "VPwhrc(u, v) -> Nwh(u) Vpres(v)";
   "VPwhrc(v, uw) -> Vpres(u) Sbarwhrc(v, w)"; "NP(uv) -> D(u) N(v)";
   "NP(uvw) -> D(u) Nrc(v, w)"; "NPdisloc(uv, w) -> D(u) Nrc(v, w)";
   "NPwh(uv) -> Dwh(u) N(v)"; "NPwh(uvw) -> Dwh(u) Nrc(v, w)";
   "NPwhdisloc(uv, w) -> Dwh(u) Nrc(v, w)"; "Nrc(v, uw) -> C(u) Src(v, w)";
   "Nrc(u, vw) -> N(u) Swhrc(v, w)"; "Nrc(u, vwx) -> Nrc(u, v) Swhrc(w, x)";
   "N(uv) -> N(u) N(v)"; "NP(uv) -> NP(u) PP(v)"; "PP(uv) -> P(u) NP(v)";
   "VP(uv) -> VP(u) PP(v)"; "Dwh(which)"; "Nwh(who)"; "D(the)"; "D(a)";
   "N(greyhound)"; "N(human)"; "N(saw)"; "N(salmon)"; "Vpres(saw)";
   "Vroot(see)"; "Vpres(believes)"; "Vroot(believe)"; "Aux(does)";
   "Aux(did)"; "C(that)"; "P(with)"].

Definition test_grammar : result MultipleContextFreeGrammar :=
  initiated_rules <- mapM from_string literal_rules ;;
  let all_elements :=
    flat_map (fun r => (right_side r ++ [left_side r])%list) initiated_rules in
  Ok (mkGrammar initiated_rules
        (filter (fun i => String.eqb (variable i) "S") all_elements)).

Definition test_recognize (fuel : nat) (words : list string) : result bool :=
  g <- test_grammar ;; _recognize fuel g words.

Definition test_parse (fuel : nat) (words : list string)
  : result (option (list Tree)) :=
  g <- test_grammar ;; _parse fuel g words.

(** [repr] of a chart entry, as data. *)
Definition entry_repr (e : ABEntry)
  : nat * string * list SpanIndices * list (list ABBackPointer) :=
  (index e, inst_variable (symbol e), string_spans (symbol e), backpointers e).

(** *** Rule text *)

Fixpoint all_chars (p : ascii -> bool) (s : string) : bool :=
  match s with
  | EmptyString => true
  | String c s' => p c && all_chars p s'
  end.

(** A match of [\w+]. *)
Definition word (s : string) : Prop :=
  s <> "" /\ all_chars is_word s = true.

(** A match of [\w+,? ?]. *)
Inductive block : string -> Prop :=
| block_intro : forall w sep,
    word w -> In sep [""; ","; " "; ", "] -> block (w ++ sep).

(** A match of [(?:\w+,? ?)+]. *)
Inductive blocks : string -> Prop :=
| blocks_one : forall b, block b -> blocks b
| blocks_more : forall b bs, block b -> blocks bs -> blocks (b ++ bs).

(** The characters of a match of [(?:\w+,? ?)+]. *)
Definition is_vars_char (c : ascii) : bool :=
  is_word c || Ascii.eqb c "," || Ascii.eqb c " ".

Definition no_comma (c : ascii) : bool := negb (Ascii.eqb c ",").
Definition no_space (c : ascii) : bool := negb (is_space c).

(** The text of a component in [__str__]. *)
Definition str_component (vtup : StringVariables) : string :=
  String.concat "" (map str_strvar vtup).

(** The number of string variables of the right side. *)
Definition rank (r : MCFGRule) : nat :=
  List.length (flat_map string_variables (right_side r)).

(** A literal that prints as it was read: a stripped match of
    [(?:\w+,? ?)+] without a comma. *)
Definition literal (w : string) : Prop :=
  blocks w /\ all_chars no_comma w = true /\ strip w = w.

(** What the round trip uses of a rule: the names are words; a lexical rule
    holds one literal; in a rule with a right side, the components of the
    right side are the positions [0, 1, ..., n-1], one each, with [n] at most
    ten, each element has a component, and the components of the left side
    name positions below [n] and are not empty, but for the last of
    several, which may be. *)
Definition printable (r : MCFGRule) : Prop :=
  word (variable (left_side r)) /\
  match right_side r with
  | [] => exists w, string_variables (left_side r) = [[Word w]] /\ literal w
  | _ :: _ =>
      Forall (fun el => word (variable el) /\ string_variables el <> [])
             (right_side r) /\
      flat_map string_variables (right_side r) =
        map (fun i => [Pos i]) (seq 0 (rank r)) /\
      rank r <= 10 /\
      string_variables (left_side r) <> [] /\
      string_variables (left_side r) <> [[]] /\
      ~ In [] (removelast (string_variables (left_side r))) /\
      Forall (Forall (fun v => exists i, v = Pos i /\ i < rank r))
             (string_variables (left_side r))
  end.

(** The text between the parentheses in [MCFGRuleElement.__str__]. *)
Definition str_components (el : MCFGRuleElement) : string :=
  String.concat ", " (map str_component (string_variables el)).

(** The digit of a position below ten, and the text of such positions. *)
Definition digit_char (i : nat) : ascii := ascii_of_nat (48 + i).

Arguments digit_char : simpl never.

Fixpoint digit_string (ids : list nat) : string :=
  match ids with
  | [] => ""
  | i :: ids' => String (digit_char i) (digit_string ids')
  end.

(** The variables of the right side as they are printed: ["0"], ["1"], ... *)
Definition printed_strvars (n : nat) : list string :=
  map (fun i => str_strvar (Pos i)) (seq 0 n).

(** [from_string] after its first two lines: the rule of the list
    [elem_tuples]. *)
Definition rule_of_tuples (elem_tuples : list (string * list string))
  : result MCFGRule :=
  match elem_tuples with
  | [(var, svs)] => MCFGRule_init (mkElement var [map Word svs]) []
  | [] => Raise IndexError
  | lhs :: rights =>
      let strvars := flat_map snd rights in
      if all_distinct strvars then
        comps <-
          mapM (fun vs =>
                  mapM (fun v => n <- index_of strvars v ;; Ok (Pos n))
                       (findall1 (strvar_pattern strvars) vs))
               (snd lhs) ;;
        rights' <-
          mapM (fun p =>
                  cs <- mapM (fun sv => n <- index_of strvars sv ;;
                                        Ok [Pos n])
                             (snd p) ;;
                  Ok (mkElement (fst p) cs))
               rights ;;
        MCFGRule_init (mkElement (fst lhs) comps) rights'
      else Raise ValueError
  end.

(** [elem_tuples] of [from_string]. *)
Definition elem_tuples_of (rule_string : string)
  : list (string * list string) :=
  map (fun p => (fst p, map strip (split_on "," (snd p))))
      (findall2 elem_pattern rule_string).

(** The components of an element that are read back from their text: words,
    at least one, and after them possibly one empty component. *)
Definition printed_components (cs : list string) : Prop :=
  exists ws tail,
    cs = (ws ++ tail)%list /\ ws <> [] /\ Forall word ws /\
    (tail = [] \/ tail = [""]).

(** An element whose text [from_string] reads back: a name, and components
    that are read back. *)
Definition printable_element (el : MCFGRuleElement) : Prop :=
  word (variable el) /\
  printed_components (map str_component (string_variables el)).

(** An element as [elem_tuples] holds it. *)
Definition tuple_of (el : MCFGRuleElement) : string * list string :=
  (variable el, map str_component (string_variables el)).

(** ** More of grammar.py, abparser.py and tree.py *)

(** [MCFGRule.string_yield] *)
Definition string_yield (r : MCFGRule) : result string :=
  if is_epsilon r then Ok (variable (left_side r)) else Raise ValueError.

(** [MultipleContextFreeGrammar.parts_of_speech()] without a word: all the
    lexical rules. *)
Definition all_parts_of_speech (g : MultipleContextFreeGrammar)
  : list MCFGRule :=
  filter is_epsilon (_rules g).

(** [MultipleContextFreeGrammar.rules(left_side)] *)
Definition rules (g : MultipleContextFreeGrammar) (name : option string)
  : list MCFGRule :=
  match name with
  | None => _rules g
  | Some lhs =>
      filter (fun rule => String.eqb (variable (left_side rule)) lhs)
             (_rules g)
  end.

(** [Tree.data] and [Tree.children] *)
Definition data (t : Tree) : string :=
  match t with Node d _ => d end.

Definition children (t : Tree) : list Tree :=
  match t with Node _ cs => cs end.

(** [Tree.terminals]: the labels of the leaves from left to right. *)
Fixpoint terminals (t : Tree) : list string :=
  match t with
  | Node d [] => [d]
  | Node d cs =>
      (fix over (l : list Tree) : list string :=
         match l with
         | [] => []
         | c :: l' => (terminals c ++ over l')%list
         end) cs
  end.

(** [Tree.__str__] *)
Definition tree_str (t : Tree) : string :=
  String.concat " " (terminals t).

(** [Tree.__contains__] *)
Fixpoint contains (t : Tree) (d : string) : bool :=
  match t with
  | Node d' cs =>
      if String.eqb d' d then true
      else
        (fix over (l : list Tree) : bool :=
           match l with
           | [] => false
           | child :: l' => if contains child d then true else over l'
           end) cs
  end.

(** [Tree.__getitem__] on an [int]. *)
Definition getitem_int (t : Tree) (idx : Z) : result Tree :=
  py_getitem (children t) idx.

(** [Tree.__getitem__] on a tuple of [int]. *)
Fixpoint getitem (t : Tree) (idx : list Z) : result Tree :=
  match idx with
  | [] => Ok t
  | [i] => py_getitem (children t) i
  | i :: rest => child <- py_getitem (children t) i ;; getitem child rest
  end.

(** [Tree.index]: the paths of the nodes that carry [d]; [index_path] is a
    tuple, never [-1], so that [root_path] is [index_path]. *)
Fixpoint tree_index (t : Tree) (d : string) (index_path : list nat)
  : list (list nat) :=
  match t with
  | Node d' cs =>
      ((if String.eqb d' d then [index_path] else []) ++
       (fix over (l : list Tree) (i : nat) : list (list nat) :=
          match l with
          | [] => []
          | c :: l' =>
              (tree_index c d (index_path ++ [i]) ++ over l' (S i))%list
          end) cs 0)%list
  end.

(** [Tree.relabel] *)
Fixpoint relabel (label_map : string -> string)
    (nonterminals_only terminals_only : bool) (t : Tree) : Tree :=
  match t with
  | Node d cs =>
      let has_children := match cs with [] => false | _ :: _ => true end in
      let d' :=
        if negb nonterminals_only && negb terminals_only then label_map d
        else if nonterminals_only && has_children then label_map d
        else if terminals_only && negb has_children then label_map d
        else d in
      Node d' (map (relabel label_map nonterminals_only terminals_only) cs)
  end.

(** [n * s] for a string. *)
Fixpoint times (n : nat) (s : string) : string :=
  match n with
  | O => ""
  | S n' => s ++ times n' s
  end.

(** [Tree.to_string]; [(depth - 1) * '  '] is empty at depth 0. *)
Fixpoint to_string (t : Tree) (depth : nat) : string :=
  match t with
  | Node d cs =>
      times (depth - 1) "  " ++
      times (if Nat.ltb 0 depth then 1 else 0) "--" ++
      d ++ String "010" "" ++
      (fix over (l : list Tree) : string :=
         match l with
         | [] => ""
         | c :: l' => to_string c (S depth) ++ over l'
         end) cs
  end.

(** *** Notions used in the statements *)

(** Every node has no child or two. *)
Fixpoint binary (t : Tree) : bool :=
  match t with
  | Node _ [] => true
  | Node _ [a; b] => binary a && binary b
  | Node _ _ => false
  end.

(** A rule on which [instantiate_left_side] looks nothing up in vain: the
    constructor accepts it, each component of its right side holds one
    variable, no component of its left side is empty, and a lexical rule
    has one component. *)
Definition clean_rule (r : MCFGRule) : Prop :=
  _validate r = Ok tt /\
  single_variables r /\
  ~ In [] (string_variables (left_side r)) /\
  (is_epsilon r = true -> exists vs, string_variables (left_side r) = [vs]).

(** A span inside the input. *)
Definition span_within (n : nat) (sp : SpanIndices) : Prop :=
  (0 <= fst sp /\ fst sp < snd sp /\ snd sp <= Z.of_nat n)%Z.

(** A seed of the word at position [idx], from a lexical rule of the
    grammar. *)
Definition seeded (g : MultipleContextFreeGrammar) (words : list string)
    (e : ABEntry) : Prop :=
  backpointers e = [[None; None]] /\
  exists idx word rule,
    nth_error words idx = Some word /\
    In rule (_rules g) /\ is_epsilon rule = true /\
    first_literal rule = Ok (Word word) /\
    symbol e = mkInstance (variable (left_side rule))
                          [(Z.of_nat idx, (Z.of_nat idx + 1)%Z)].

(** An entry derived by a rule of the grammar from two earlier entries of
    the list [l], which its back-pointers name in the order of the right
    side of the rule. *)
Definition derived_from (g : MultipleContextFreeGrammar) (l : list ABEntry)
    (e : ABEntry) : Prop :=
  exists e0 e1 rule,
    In e0 l /\ In e1 l /\ index e0 < index e /\ index e1 < index e /\
    backpointers e =
      [[Some (index e0, inst_variable (symbol e0));
        Some (index e1, inst_variable (symbol e1))]] /\
    In rule (_rules g) /\
    instantiate_left_side rule [symbol e0; symbol e1] = Ok (Some (symbol e)).

(** The outcomes of a run that raises nothing but the error of an empty
    agenda. *)
Definition benign {A : Type} (m : result A) : Prop :=
  returns m \/ m = Raise UnboundLocalError \/ m = OutOfFuel.

(** The comprehension of [Tree.index] over the children, from the child
    number [i] on. *)
Fixpoint index_children (d : string) (index_path : list nat)
    (cs : list Tree) (i : nat) : list (list nat) :=
  match cs with
  | [] => []
  | c :: cs' =>
      (tree_index c d (index_path ++ [i]) ++
       index_children d index_path cs' (S i))%list
  end.

(** A result under a function. *)
Definition result_map {A B : Type} (f : A -> B) (m : result A) : result B :=
  match m with
  | Ok a => Ok (f a)
  | Raise e => Raise e
  | OutOfFuel => OutOfFuel
  end.

(** The comparison of the tuples of the children in [Tree.__eq__]. *)
Fixpoint forest_eqb (l m : list Tree) : bool :=
  match l, m with
  | [], [] => true
  | a :: l', b :: m' => tree_eqb a b && forest_eqb l' m'
  | _, _ => false
  end.

(** The label of a leaf that [_construct_parses] builds for a lexical rule
    of the grammar and a word of the input. *)
Definition lexical_leaf (g : MultipleContextFreeGrammar)
    (words : list string) (label : string) : Prop :=
  exists rule word,
    In word words /\ In rule (_rules g) /\ is_epsilon rule = true /\
    first_literal rule = Ok (Word word) /\
    label = variable (left_side rule) ++ "(" ++ word ++ ")".

(** The symbols that the first loop of [_fill_chart] puts in the agenda:
    for each word in turn, the instance of each of its lexical rules over
    the position of the word. *)
Fixpoint seed_symbols (g : MultipleContextFreeGrammar) (idx : nat)
    (words : list string) : result (list MCFGRuleElementInstance) :=
  match words with
  | [] => Ok []
  | word :: words' =>
      possible_rules <- parts_of_speech g word ;;
      rest <- seed_symbols g (S idx) words' ;;
      Ok (map (fun rule =>
                 mkInstance (variable (left_side rule))
                            [(Z.of_nat idx, (Z.of_nat idx + 1)%Z)])
              possible_rules ++ rest)%list
  end.

(** The keys of the span map of a rule: the first variable of each
    component of its right side, [strvar[0]] in [_build_span_map]. *)
Definition bound_variables (r : MCFGRule) : list strvar :=
  flat_map (fun el => flat_map (firstn 1) (string_variables el))
           (right_side r).

(** The span map of [_build_span_map] as a partial function. *)
Definition lookup (m : SpanMap) (v : strvar) : option SpanIndices :=
  match dict_get m v with
  | Ok s => Some s
  | _ => None
  end.

(** *** Derivation, as the specification describes it

    These notions follow the words of the specification of rule
    instantiation and of seeding; they use no function of the model of the
    code. *)

(** The alignment of instances with the right side of a rule: the same
    length, the same variable names in order, the same number of components
    in each element. *)
Definition aligned (r : MCFGRule) (rs : list MCFGRuleElementInstance)
  : Prop :=
  Forall2 (fun el inst =>
             variable el = inst_variable inst /\
             List.length (string_variables el) =
             List.length (string_spans inst))
          (right_side r) rs.

(** A span map of a rule and instances: it binds the variables that the
    right side declares, and only them, the variable of the [j]-th
    component of the [i]-th element to the [j]-th span of the [i]-th
    instance. *)
Definition binds (r : MCFGRule) (rs : list MCFGRuleElementInstance)
    (sigma : strvar -> option SpanIndices) : Prop :=
  forall v sp,
    sigma v = Some sp <->
    exists i j el inst,
      nth_error (right_side r) i = Some el /\
      nth_error rs i = Some inst /\
      nth_error (string_variables el) j = Some [v] /\
      nth_error (string_spans inst) j = Some sp.

(** The concatenation of a component [(v0, ..., vk)] of the left side: the
    span of each variable ends where the span of the next begins, and the
    component spans from the begin of the first to the end of the last. *)
Inductive concatenation (sigma : strvar -> option SpanIndices)
  : StringVariables -> Z -> Z -> Prop :=
| concatenation_one : forall v b e,
    sigma v = Some (b, e) -> concatenation sigma [v] b e
| concatenation_more : forall v vs b e e',
    sigma v = Some (b, e) -> concatenation sigma vs e e' ->
    concatenation sigma (v :: vs) b e'.

(** The instance of the left side of a rule for instances of its right
    side. *)
Definition instantiates (r : MCFGRule) (rs : list MCFGRuleElementInstance)
    (c : MCFGRuleElementInstance) : Prop :=
  aligned r rs /\
  exists sigma,
    binds r rs sigma /\
    inst_variable c = variable (left_side r) /\
    Forall2 (fun vs sp => concatenation sigma vs (fst sp) (snd sp))
            (string_variables (left_side r)) (string_spans c).

(** The instances that the grammar derives over the input: the instance of
    a lexical rule, whose sole component is the literal of a word of the
    input, over the position of this word; and the instance of the left
    side of a rule with a right side for derived instances. *)
Inductive derivable (g : MultipleContextFreeGrammar) (words : list string)
  : MCFGRuleElementInstance -> Prop :=
| derive_word : forall idx word rule,
    nth_error words idx = Some word ->
    In rule (_rules g) -> right_side rule = [] ->
    string_variables (left_side rule) = [[Word word]] ->
    derivable g words
      (mkInstance (variable (left_side rule))
                  [(Z.of_nat idx, (Z.of_nat idx + 1)%Z)])
| derive_rule : forall rule rs c,
    In rule (_rules g) -> right_side rule <> [] ->
    (forall a, In a rs -> derivable g words a) ->
    instantiates rule rs c ->
    derivable g words c.

(** The grammars of the specification: a lexical rule holds one literal
    in one component; in a rule with a right side each component of the
    right side holds one variable, and no variable is declared twice. *)
Definition plain_grammar (g : MultipleContextFreeGrammar) : Prop :=
  forall rule, In rule (_rules g) ->
    (is_epsilon rule = true ->
     exists w, string_variables (left_side rule) = [[Word w]]) /\
    (is_epsilon rule = false ->
     single_variables rule /\ NoDup (bound_variables rule)).

(** * Properties *)

Unset Implicit Arguments.

(** ** The result monad *)

Lemma bind_Ok {A B : Type} (m : result A) (k : A -> result B) (b : B) :
  bind m k = Ok b -> exists a, m = Ok a /\ k a = Ok b.
Proof.
  destruct m as [a | e | ]; simpl; intros H; try discriminate.
  exists a; split; [reflexivity | exact H].
Qed.

Lemma bind_Raise {A B : Type} (m : result A) (k : A -> result B) (e : exn) :
  bind m k = Raise e -> m = Raise e \/ exists a, m = Ok a /\ k a = Raise e.
Proof.
  destruct m as [a | e' | ]; simpl; intros H; try discriminate.
  - right; exists a; split; [reflexivity | exact H].
  - left; inversion H; reflexivity.
Qed.

Lemma mapM_Raise {A B : Type} (f : A -> result B) (l : list A) (e : exn) :
  mapM f l = Raise e -> exists a, In a l /\ f a = Raise e.
Proof.
  induction l as [| a l IH]; simpl; intros H; [discriminate |].
  apply bind_Raise in H. destruct H as [H | [b [_ H]]].
  - exists a; auto.
  - apply bind_Raise in H. destruct H as [H | [bs [_ H]]]; [| discriminate].
    destruct (IH H) as [a' [Hin Ha']]. exists a'; auto.
Qed.

Lemma mapM_Ok_all {A B : Type} (f : A -> result B) (l : list A) :
  (forall a, In a l -> returns (f a)) -> returns (mapM f l).
Proof.
  induction l as [| a l IH]; simpl; intros H.
  - exists []; reflexivity.
  - destruct (H a (or_introl eq_refl)) as [b Hb].
    destruct IH as [bs Hbs]; [intros; apply H; auto |].
    exists (b :: bs). rewrite Hb; simpl. rewrite Hbs; reflexivity.
Qed.

Lemma mapM_length {A B : Type} (f : A -> result B) (l : list A) (bs : list B) :
  mapM f l = Ok bs -> List.length bs = List.length l.
Proof.
  revert bs; induction l as [| a l IH]; simpl; intros bs H.
  - inversion H; reflexivity.
  - apply bind_Ok in H. destruct H as [b [_ H]].
    apply bind_Ok in H. destruct H as [bs' [Hbs' H]].
    inversion H; subst; simpl. f_equal. apply IH; assumption.
Qed.

(** ** Alignment *)

Lemma strvar_eqb_eq (a b : strvar) : strvar_eqb a b = true <-> a = b.
Proof.
  unfold strvar_eqb. destruct (strvar_eq_dec a b); split; intros; auto;
    discriminate.
Qed.

Lemma strvar_eqb_refl (a : strvar) : strvar_eqb a a = true.
Proof. apply strvar_eqb_eq; reflexivity. Qed.

Lemma forallb_false_In {A : Type} (f : A -> bool) (l : list A) :
  forallb f l = false <-> exists a, In a l /\ f a = false.
Proof.
  induction l as [| a l IH]; simpl.
  - split; [discriminate | intros [a [[] _]]].
  - rewrite andb_false_iff, IH. split.
    + intros [H | [b [Hin Hb]]]; [exists a; auto | exists b; auto].
    + intros [b [[-> | Hin] Hb]]; [left; exact Hb | right; exists b; auto].
Qed.

(** The alignment check fails exactly when the lengths differ, or a paired
    element differs in its name or in the number of its components. *)
Lemma _right_side_aligns_false (r : MCFGRule)
    (rs : list MCFGRuleElementInstance) :
  _right_side_aligns r rs = false <-> misaligned r rs.
Proof.
  unfold _right_side_aligns, misaligned.
  destruct (Nat.eqb_spec (List.length rs) (List.length (right_side r)))
    as [Hlen | Hlen].
  - rewrite andb_false_iff, !forallb_false_In. split.
    + intros [[[el inst] [Hin H]] | [[el inst] [Hin H]]]; right;
        exists el, inst; (split; [exact Hin |]); simpl in H.
      * left. apply String.eqb_neq; exact H.
      * right. apply Nat.eqb_neq; exact H.
    + intros [H | [el [inst [Hin [H | H]]]]]; [contradiction | left | right];
        exists (el, inst); (split; [exact Hin |]); simpl.
      * apply String.eqb_neq; exact H.
      * apply Nat.eqb_neq; exact H.
  - split; [left; exact Hlen | reflexivity].
Qed.

Lemma _build_span_map_Ok_aligns (r : MCFGRule)
    (rs : list MCFGRuleElementInstance) (m : SpanMap) :
  _build_span_map r rs = Ok m -> _right_side_aligns r rs = true.
Proof.
  unfold _build_span_map. destruct (_right_side_aligns r rs);
    [reflexivity | discriminate].
Qed.

Lemma span_map_of_no_ValueError (pairs : list (StringVariables * SpanIndices))
    (d : SpanMap) :
  span_map_of d pairs <> Raise ValueError.
Proof.
  revert d; induction pairs as [| [sv sp] pairs IH]; simpl; intros d.
  - discriminate.
  - destruct sv as [| k sv]; [discriminate | apply IH].
Qed.

Lemma dict_get_no_ValueError (m : SpanMap) (v : strvar) :
  dict_get m v <> Raise ValueError.
Proof.
  induction m as [| [k s] m IH]; simpl; [discriminate |].
  destruct (strvar_eqb v k); [discriminate | exact IH].
Qed.

Lemma adjacent_from_no_ValueError (m : SpanMap) (rest : list strvar)
    (prev : strvar) :
  adjacent_from m prev rest <> Raise ValueError.
Proof.
  revert prev; induction rest as [| cur rest IH]; simpl; intros prev H.
  - discriminate.
  - apply bind_Raise in H. destruct H as [H | [sp [_ H]]];
      [exact (dict_get_no_ValueError _ _ H) |].
    apply bind_Raise in H. destruct H as [H | [sc [_ H]]];
      [exact (dict_get_no_ValueError _ _ H) |].
    destruct (Z.eqb (snd sp) (fst sc)); [exact (IH _ H) | discriminate].
Qed.

Lemma component_span_no_ValueError (m : SpanMap) (vs : StringVariables) :
  component_span m vs <> Raise ValueError.
Proof.
  destruct vs as [| v0 rest]; simpl; [discriminate |]. intros H.
  apply bind_Raise in H. destruct H as [H | [ok [_ H]]];
    [exact (adjacent_from_no_ValueError _ _ _ H) |].
  destruct ok; [| discriminate].
  apply bind_Raise in H. destruct H as [H | [b [_ H]]];
    [exact (dict_get_no_ValueError _ _ H) |].
  apply bind_Raise in H. destruct H as [H | [e [_ H]]];
    [exact (dict_get_no_ValueError _ _ H) | discriminate].
Qed.

Lemma new_spans_of_no_ValueError (m : SpanMap)
    (comps : list StringVariables) :
  new_spans_of m comps <> Raise ValueError.
Proof.
  induction comps as [| vs comps IH]; simpl; [discriminate |]. intros H.
  apply bind_Raise in H. destruct H as [H | [o [_ H]]];
    [exact (component_span_no_ValueError _ _ H) |].
  destruct o as [sp |]; [| discriminate].
  apply bind_Raise in H. destruct H as [H | [x [_ H]]];
    [exact (IH H) | discriminate].
Qed.

(** Past the alignment check nothing raises [ValueError]. *)
Lemma instantiate_by_span_map_aligned (r : MCFGRule)
    (rs : list MCFGRuleElementInstance) :
  _right_side_aligns r rs = true ->
  instantiate_by_span_map r rs <> Raise ValueError.
Proof.
  intros Hal H. unfold instantiate_by_span_map, _build_span_map in H.
  rewrite Hal in H.
  apply bind_Raise in H. destruct H as [H | [m [_ H]]];
    [exact (span_map_of_no_ValueError _ _ H) |].
  apply bind_Raise in H. destruct H as [H | [o [_ H]]];
    [exact (new_spans_of_no_ValueError _ _ H) | discriminate].
Qed.

Lemma instantiate_by_span_map_misaligned (r : MCFGRule)
    (rs : list MCFGRuleElementInstance) :
  _right_side_aligns r rs = false ->
  instantiate_by_span_map r rs = Raise ValueError.
Proof.
  intros Hal. unfold instantiate_by_span_map, _build_span_map.
  rewrite Hal. reflexivity.
Qed.

Lemma first_of_no_ValueError (l : list StringVariables) :
  mapM first_of l <> Raise ValueError.
Proof.
  intros H. apply mapM_Raise in H. destruct H as [vs [_ H]].
  destruct vs; discriminate.
Qed.

Lemma instantiate_left_side_aligned (r : MCFGRule)
    (rs : list MCFGRuleElementInstance) :
  _right_side_aligns r rs = true ->
  instantiate_left_side r rs <> Raise ValueError.
Proof.
  intros Hal H. unfold instantiate_left_side in H.
  destruct (is_epsilon r).
  - apply bind_Raise in H. destruct H as [H | [strvars [_ H]]];
      [exact (first_of_no_ValueError _ H) |].
    destruct (list_eq_dec strvar_eq_dec _ strvars); [discriminate |].
    exact (instantiate_by_span_map_aligned _ _ Hal H).
  - exact (instantiate_by_span_map_aligned _ _ Hal H).
Qed.

Lemma first_of_outcome (l : list StringVariables) :
  returns (mapM first_of l) \/ mapM first_of l = Raise IndexError.
Proof.
  induction l as [| vs l IH]; simpl.
  - left; exists []; reflexivity.
  - destruct vs as [| v vs]; simpl; [right; reflexivity |].
    destruct IH as [[vs' ->] | ->]; simpl;
      [left; eexists; reflexivity | right; reflexivity].
Qed.

Lemma first_of_empty (comps : list StringVariables) :
  In [] comps -> mapM first_of comps = Raise IndexError.
Proof.
  induction comps as [| vs comps IH]; intros H; [destruct H |].
  destruct H as [-> | H]; [reflexivity |].
  simpl. destruct vs as [| v vs]; [reflexivity |]. simpl.
  rewrite (IH H). reflexivity.
Qed.

Lemma first_of_literals (comps : list StringVariables) :
  ~ In [] comps -> mapM first_of comps = Ok (map (hd (Pos 0)) comps).
Proof.
  induction comps as [| vs comps IH]; intros H; [reflexivity |].
  simpl. destruct vs as [| v vs]; [exfalso; apply H; left; reflexivity |].
  simpl. rewrite IH; [reflexivity |]. intros Hin. apply H. right. exact Hin.
Qed.

(** C4 (as amended).  When the instances fail the alignment check --
    the lengths differ, or a paired element differs in its variable name or
    in the number of its components -- [instantiate_left_side] never returns
    the no-match value.  A rule with a right side raises the misalignment
    error ([ValueError]) of [_build_span_map].  A lexical rule decides its own
    case first: it raises [IndexError] on an empty left component; with no
    empty component it returns the left instance when the names of the
    instances are the first literals of its components, and it raises the
    misalignment error when they are not. *)
Theorem instantiate_left_side_misaligned (r : MCFGRule)
    (rs : list MCFGRuleElementInstance) :
  misaligned r rs ->
  (is_epsilon r = false -> instantiate_left_side r rs = Raise ValueError) /\
  (is_epsilon r = true ->
   (In [] (string_variables (left_side r)) ->
    instantiate_left_side r rs = Raise IndexError) /\
   (~ In [] (string_variables (left_side r)) ->
    (map (fun el => Word (inst_variable el)) rs =
       map (hd (Pos 0)) (string_variables (left_side r)) ->
     instantiate_left_side r rs =
       Ok (Some (mkInstance (variable (left_side r))
                            (flat_map string_spans rs)))) /\
    (map (fun el => Word (inst_variable el)) rs <>
       map (hd (Pos 0)) (string_variables (left_side r)) ->
     instantiate_left_side r rs = Raise ValueError))) /\
  (instantiate_left_side r rs = Raise ValueError \/
   is_epsilon r = true /\
   (instantiate_left_side r rs = Raise IndexError \/
    instantiate_left_side r rs =
      Ok (Some (mkInstance (variable (left_side r))
                           (flat_map string_spans rs))))) /\
  instantiate_left_side r rs <> Ok None.
Proof.
  intros Hmis. apply _right_side_aligns_false in Hmis.
  pose proof (instantiate_by_span_map_misaligned r rs Hmis) as Hraise.
  split; [| split; [| split]].
  - intros Heps. unfold instantiate_left_side. rewrite Heps. exact Hraise.
  - intros Heps. unfold instantiate_left_side. rewrite Heps. split.
    + intros Hempty. rewrite (first_of_empty _ Hempty). reflexivity.
    + intros Hfull. rewrite (first_of_literals _ Hfull). cbn [bind].
      destruct (list_eq_dec strvar_eq_dec
                  (map (fun el => Word (inst_variable el)) rs)
                  (map (hd (Pos 0)) (string_variables (left_side r))))
        as [He | Hn].
      * split; [reflexivity | intros H; contradiction].
      * split; [intros H; contradiction | intros _; exact Hraise].
  - unfold instantiate_left_side. destruct (is_epsilon r);
      [| left; exact Hraise].
    destruct (first_of_outcome (string_variables (left_side r)))
      as [[strvars ->] | ->]; simpl.
    + destruct (list_eq_dec strvar_eq_dec _ strvars).
      * right. split; [reflexivity | right; reflexivity].
      * left. exact Hraise.
    + right. split; [reflexivity | left; reflexivity].
  - unfold instantiate_left_side. destruct (is_epsilon r);
      [| rewrite Hraise; discriminate].
    destruct (first_of_outcome (string_variables (left_side r)))
      as [[strvars ->] | ->]; simpl; [| discriminate].
    destruct (list_eq_dec strvar_eq_dec _ strvars); [discriminate |].
    rewrite Hraise. discriminate.
Qed.

Lemma instantiate_left_side_misaligned_witness :
  instantiate_left_side rule_1
    [mkInstance "NP" [(3, 4)%Z];
     mkInstance "Sbarwhrc" [(1, 2)%Z; (4, 7)%Z]] = Raise ValueError /\
  instantiate_left_side (mkRule (mkElement "D" [[Word "the"]]) [])
    [mkInstance "the" [(3, 4)%Z]] =
    Ok (Some (mkInstance "D" [(3, 4)%Z])) /\
  instantiate_left_side (mkRule (mkElement "D" [[Word "the"]]) [])
    [mkInstance "a" [(3, 4)%Z]] = Raise ValueError /\
  instantiate_left_side (mkRule (mkElement "D" [[]]) [])
    [mkInstance "the" [(3, 4)%Z]] = Raise IndexError.
Proof.
  split; [| split; [| split]].
  - apply (proj1 (instantiate_left_side_misaligned rule_1
                    [mkInstance "NP" [(3, 4)%Z];
                     mkInstance "Sbarwhrc" [(1, 2)%Z; (4, 7)%Z]]
                    (or_intror
                       (ex_intro _ (mkElement "Vpres" [[Pos 0]])
                          (ex_intro _ (mkInstance "NP" [(3, 4)%Z])
                             (conj (or_introl eq_refl)
                                   (or_introl
                                      (fun H : "Vpres" = "NP" =>
                                         match H with eq_refl => I end)))))))).
    reflexivity.
  - refine (proj1 (proj2 (proj1 (proj2 (instantiate_left_side_misaligned
                                          (mkRule (mkElement "D" [[Word "the"]]) [])
                                          [mkInstance "the" [(3, 4)%Z]] _))
                                eq_refl) _) eq_refl).
    + left. simpl. lia.
    + simpl. intros [H | []]. discriminate H.
  - refine (proj2 (proj2 (proj1 (proj2 (instantiate_left_side_misaligned
                                          (mkRule (mkElement "D" [[Word "the"]]) [])
                                          [mkInstance "a" [(3, 4)%Z]] _))
                                eq_refl) _) _).
    + left. simpl. lia.
    + simpl. intros [H | []]. discriminate H.
    + simpl. intros H. discriminate H.
  - refine (proj1 (proj1 (proj2 (instantiate_left_side_misaligned
                                   (mkRule (mkElement "D" [[]]) [])
                                   [mkInstance "the" [(3, 4)%Z]] _))
                         eq_refl) _).
    + left. simpl. lia.
    + left. reflexivity.
Defined.

(** C4, as the claim states it, fails: the instances of the test
    [test_right_side_align] do not align with the rule, and the call raises
    [ValueError] where the claim has the no-match value. *)
Lemma instantiate_left_side_misaligned_raises :
  _right_side_aligns rule_1
    [mkInstance "NP" [(3, 4)%Z];
     mkInstance "Sbarwhrc" [(1, 2)%Z; (4, 7)%Z]] = false /\
  instantiate_left_side rule_1
    [mkInstance "NP" [(3, 4)%Z];
     mkInstance "Sbarwhrc" [(1, 2)%Z; (4, 7)%Z]] = Raise ValueError /\
  instantiate_left_side rule_1
    [mkInstance "NP" [(3, 4)%Z];
     mkInstance "Sbarwhrc" [(1, 2)%Z; (4, 7)%Z]] <> Ok None.
Proof.
  split; [reflexivity | split; [reflexivity | discriminate]].
Qed.

(** ** Concatenation of spans *)

Lemma dict_get_bound (m : SpanMap) (v : strvar) :
  bound m v -> dict_get m v = Ok (span_of m v).
Proof.
  intros [s H]. unfold span_of. rewrite H. reflexivity.
Qed.

Lemma adjacent_short (m : SpanMap) (v : strvar) : adjacent m [v].
Proof.
  intros i [H1 H2]. simpl in H2. lia.
Qed.

Lemma adjacent_cons (m : SpanMap) (prev cur : strvar) (rest : list strvar) :
  adjacent m (prev :: cur :: rest) <->
  snd (span_of m prev) = fst (span_of m cur) /\ adjacent m (cur :: rest).
Proof.
  unfold adjacent. split.
  - intros H. split.
    + apply (H 1). simpl. lia.
    + intros i Hi. specialize (H (S i)).
      replace (S i - 1) with (S (i - 1)) in H by lia.
      apply H. simpl in *. lia.
  - intros [H1 H] i Hi.
    destruct i as [| [| j]]; [lia | exact H1 |].
    specialize (H (S j)).
    replace (S j - 1) with j in H by lia.
    replace (S (S j) - 1) with (S j) by lia.
    apply H. simpl in *. lia.
Qed.

Lemma adjacent_from_spec (m : SpanMap) (rest : list strvar) (prev : strvar) :
  (forall v, In v (prev :: rest) -> bound m v) ->
  (adjacent_from m prev rest = Ok true /\ adjacent m (prev :: rest)) \/
  (adjacent_from m prev rest = Ok false /\ ~ adjacent m (prev :: rest)).
Proof.
  revert prev; induction rest as [| cur rest IH]; intros prev Hb.
  - left. split; [reflexivity | apply adjacent_short].
  - simpl adjacent_from.
    rewrite (dict_get_bound m prev (Hb prev (or_introl eq_refl))).
    rewrite (dict_get_bound m cur (Hb cur (or_intror (or_introl eq_refl)))).
    simpl. destruct (Z.eqb_spec (snd (span_of m prev)) (fst (span_of m cur)))
      as [Heq | Hne].
    + destruct (IH cur) as [[-> Hadj] | [-> Hadj]].
      * intros v Hv. apply Hb. right. exact Hv.
      * left. split; [reflexivity |]. apply adjacent_cons. split; assumption.
      * right. split; [reflexivity |]. intros H.
        apply adjacent_cons in H. apply Hadj, H.
    + right. split; [reflexivity |]. intros H.
      apply adjacent_cons in H. apply Hne, H.
Qed.

Lemma last_default {A : Type} (l : list A) (d d' : A) :
  l <> [] -> last l d = last l d'.
Proof.
  induction l as [| a l IH]; intros H; [contradiction |].
  destruct l as [| b l]; [reflexivity |].
  change (last (b :: l) d = last (b :: l) d'). apply IH. discriminate.
Qed.

Lemma last_In {A : Type} (l : list A) (d : A) : l <> [] -> In (last l d) l.
Proof.
  induction l as [| a l IH]; intros H; [contradiction |].
  destruct l as [| b l]; [left; reflexivity |].
  right. apply IH. discriminate.
Qed.

Lemma component_span_spec (m : SpanMap) (vs : StringVariables) :
  vs <> [] -> (forall v, In v vs -> bound m v) ->
  (component_span m vs = Ok (Some (concatenated m vs)) /\ adjacent m vs) \/
  (component_span m vs = Ok None /\ ~ adjacent m vs).
Proof.
  intros Hne Hb. destruct vs as [| v0 rest]; [contradiction |].
  unfold component_span.
  destruct (adjacent_from_spec m rest v0 Hb) as [[-> Hadj] | [-> Hadj]];
    simpl bind; cbv iota.
  - left. split; [| exact Hadj].
    change (match rest with [] => v0 | _ :: _ => last rest v0 end)
      with (last (v0 :: rest) v0).
    rewrite (dict_get_bound m v0 (Hb v0 (or_introl eq_refl))).
    rewrite (dict_get_bound m _ (Hb _ (last_In (v0 :: rest) v0 Hne))).
    unfold concatenated.
    rewrite (last_default (v0 :: rest) v0 (Pos 0) Hne). reflexivity.
  - right. split; [reflexivity | exact Hadj].
Qed.

Lemma new_spans_of_spec (m : SpanMap) (comps : list StringVariables) :
  (forall vs, In vs comps -> vs <> [] /\ forall v, In v vs -> bound m v) ->
  (new_spans_of m comps = Ok (Some (map (concatenated m) comps)) /\
   forall vs, In vs comps -> adjacent m vs) \/
  (new_spans_of m comps = Ok None /\
   exists vs, In vs comps /\ ~ adjacent m vs).
Proof.
  induction comps as [| vs comps IH]; intros Hres.
  - left. split; [reflexivity | intros vs []].
  - simpl new_spans_of.
    destruct (Hres vs (or_introl eq_refl)) as [Hne Hb].
    destruct (component_span_spec m vs Hne Hb) as [[-> Hadj] | [-> Hadj]];
      simpl bind.
    + destruct IH as [[-> Hall] | [-> [ws [Hin Hws]]]].
      * intros ws Hws. apply Hres. right. exact Hws.
      * left. split; [reflexivity |].
        intros ws [<- | Hws]; [exact Hadj | apply Hall, Hws].
      * right. split; [reflexivity |]. exists ws. split; [right |]; assumption.
    + right. split; [reflexivity |]. exists vs. split; [left |]; auto.
Qed.

(** C3 (as amended).  For a rule with a right side and instances that align
    with it, let [span_map] be the map that [_build_span_map] returns, and
    let every component of the left side name at least one variable and only
    variables that [span_map] binds.  If in every left-side component
    [(v0, ..., vk)] the end of [span_map[v(i-1)]] is the begin of
    [span_map[v(i)]] for every [i] in [1..k], [instantiate_left_side] returns
    the left instance whose span for each component is
    [(begin(span_map[v0]), end(span_map[vk]))]; if some adjacency fails, it
    returns the no-match value. *)
Theorem instantiate_left_side_concatenates (r : MCFGRule)
    (rs : list MCFGRuleElementInstance) (span_map : SpanMap) :
  is_epsilon r = false ->
  _right_side_aligns r rs = true ->
  _build_span_map r rs = Ok span_map ->
  resolves span_map r ->
  ((forall vs, In vs (string_variables (left_side r)) ->
      adjacent span_map vs) ->
   instantiate_left_side r rs =
     Ok (Some (mkInstance (variable (left_side r))
                 (map (concatenated span_map)
                      (string_variables (left_side r)))))) /\
  ((exists vs, In vs (string_variables (left_side r)) /\
      ~ adjacent span_map vs) ->
   instantiate_left_side r rs = Ok None).
Proof.
  intros Heps _ Hmap Hres.
  unfold instantiate_left_side, instantiate_by_span_map.
  rewrite Heps, Hmap. simpl bind.
  destruct (new_spans_of_spec span_map (string_variables (left_side r)) Hres)
    as [[-> Hall] | [-> [vs [Hin Hvs]]]]; simpl.
  - split; [reflexivity |]. intros [vs [Hin Hvs]].
    exfalso. apply Hvs, Hall, Hin.
  - split; [| reflexivity]. intros Hall. exfalso. apply Hvs, Hall, Hin.
Qed.

Ltac resolve_components :=
  let vs := fresh "vs" in
  let v := fresh "v" in
  let H := fresh "H" in
  intros vs H; simpl in H;
  repeat (destruct H as [H | H]; [subst vs |]); try contradiction;
  (split; [discriminate |]);
  intros v H; simpl in H;
  repeat (destruct H as [H | H]; [subst v |]); try contradiction;
  eexists; reflexivity.

Lemma instantiate_left_side_concatenates_witness :
  instantiate_left_side rule_1
    [mkInstance "Vpres" [(3, 4)%Z];
     mkInstance "Sbarwhrc" [(1, 2)%Z; (4, 7)%Z]] =
    Ok (Some (mkInstance "VPwhrc" [(1, 2)%Z; (3, 7)%Z])) /\
  instantiate_left_side rule_1
    [mkInstance "Vpres" [(3, 4)%Z];
     mkInstance "Sbarwhrc" [(1, 2)%Z; (5, 7)%Z]] = Ok None.
Proof.
  split.
  - refine (proj1 (instantiate_left_side_concatenates rule_1
                     [mkInstance "Vpres" [(3, 4)%Z];
                      mkInstance "Sbarwhrc" [(1, 2)%Z; (4, 7)%Z]]
                     [(Pos 2, (4, 7)%Z); (Pos 1, (1, 2)%Z); (Pos 0, (3, 4)%Z)]
                     eq_refl eq_refl eq_refl _) _).
    + resolve_components.
    + intros vs [<- | [<- | []]] i Hi; simpl in Hi;
        (destruct i as [| [| i]]; [lia | try lia | lia]).
      reflexivity.
  - refine (proj2 (instantiate_left_side_concatenates rule_1
                     [mkInstance "Vpres" [(3, 4)%Z];
                      mkInstance "Sbarwhrc" [(1, 2)%Z; (5, 7)%Z]]
                     [(Pos 2, (5, 7)%Z); (Pos 1, (1, 2)%Z); (Pos 0, (3, 4)%Z)]
                     eq_refl eq_refl eq_refl _) _).
    + resolve_components.
    + exists [Pos 0; Pos 2]. split; [right; left; reflexivity |].
      intros H. specialize (H 1 (conj (le_n 1) (le_n 2))). discriminate H.
Defined.

(** C3, as the claim states it for every rule with a right side, fails on
    two rules that the constructor accepts.  In the first a component of the
    right side holds two variables, of which [_build_span_map] binds the
    first only: the look-up of the other raises [KeyError].  In the second,
    the rule of the text ["A(uv, x) -> B(u) C(v)"], every adjacency of the
    left side holds and the empty component has no first variable: the call
    raises [IndexError].  Neither call returns an instance or the no-match
    value. *)
Lemma instantiate_left_side_lookup_fails :
  (MCFGRule_init (left_side rule_two_in_component)
                 (right_side rule_two_in_component)
     = Ok rule_two_in_component /\
   is_epsilon rule_two_in_component = false /\
   _right_side_aligns rule_two_in_component
     [mkInstance "B" [(0, 1)%Z]; mkInstance "C" [(1, 2)%Z]] = true /\
   instantiate_left_side rule_two_in_component
     [mkInstance "B" [(0, 1)%Z]; mkInstance "C" [(1, 2)%Z]]
     = Raise KeyError) /\
  (from_string "A(uv, x) -> B(u) C(v)" = Ok rule_empty_component /\
   is_epsilon rule_empty_component = false /\
   _right_side_aligns rule_empty_component
     [mkInstance "B" [(0, 1)%Z]; mkInstance "C" [(1, 2)%Z]] = true /\
   (forall vs, In vs (string_variables (left_side rule_empty_component)) ->
      adjacent [(Pos 1, (1, 2)%Z); (Pos 0, (0, 1)%Z)] vs) /\
   instantiate_left_side rule_empty_component
     [mkInstance "B" [(0, 1)%Z]; mkInstance "C" [(1, 2)%Z]]
     = Raise IndexError).
Proof.
  repeat split; try reflexivity.
  intros vs [<- | [<- | []]] i Hi; simpl in Hi;
    (destruct i as [| [| i]]; [lia | try lia | lia]).
  reflexivity.
Qed.

(** ** [reduce] and [_combine] *)

Lemma reduce_aligns (g : MultipleContextFreeGrammar)
    (rs : list MCFGRuleElementInstance) (r : MCFGRule) :
  In r (reduce g rs) <-> In r (_rules g) /\ _right_side_aligns r rs = true.
Proof.
  unfold reduce. apply filter_In.
Qed.

Lemma aligns_length (r : MCFGRule) (rs : list MCFGRuleElementInstance) :
  _right_side_aligns r rs = true ->
  List.length (right_side r) = List.length rs.
Proof.
  unfold _right_side_aligns.
  destruct (Nat.eqb_spec (List.length rs) (List.length (right_side r)));
    [auto | discriminate].
Qed.

Lemma aligns_not_epsilon (r : MCFGRule) (a : MCFGRuleElementInstance)
    (rs : list MCFGRuleElementInstance) :
  _right_side_aligns r (a :: rs) = true -> is_epsilon r = false.
Proof.
  intros H. apply aligns_length in H. unfold is_epsilon.
  destruct (right_side r); [discriminate | reflexivity].
Qed.

Lemma instantiate_all_no_ValueError (rules : list MCFGRule)
    (rs : list MCFGRuleElementInstance) :
  (forall r, In r rules -> _right_side_aligns r rs = true) ->
  instantiate_all rules rs <> Raise ValueError.
Proof.
  intros Hal H. unfold instantiate_all in H.
  apply bind_Raise in H. destruct H as [H | [l [_ H]]]; [| discriminate].
  apply mapM_Raise in H. destruct H as [r [Hin H]].
  exact (instantiate_left_side_aligned r rs (Hal r Hin) H).
Qed.

Lemma _combine_no_ValueError (g : MultipleContextFreeGrammar)
    (current element : ABEntry) :
  _combine g current element <> Raise ValueError.
Proof.
  unfold _combine. intros H.
  destruct (reduce g [symbol current; symbol element]) as [| r1 l1] eqn:E1.
  - destruct (reduce g [symbol element; symbol current]) as [| r2 l2] eqn:E2;
      [discriminate |].
    apply bind_Raise in H. destruct H as [H | [x [_ H]]]; [| discriminate].
    revert H. apply instantiate_all_no_ValueError.
    intros r Hin. rewrite <- E2 in Hin. apply reduce_aligns in Hin. apply Hin.
  - apply bind_Raise in H. destruct H as [H | [x [_ H]]]; [| discriminate].
    revert H. apply instantiate_all_no_ValueError.
    intros r Hin. rewrite <- E1 in Hin. apply reduce_aligns in Hin. apply Hin.
Qed.

(** C9 (as amended).  A rule that [reduce(a, b)] returns aligns with
    [(a, b)], so [_build_span_map] does not take its error branch and
    [instantiate_left_side(a, b)] does not raise the misalignment error
    ([ValueError]); neither does [_combine], on either order of its two
    entries.  The call returns a left instance or the no-match value whenever
    every component of the rule's left side names at least one variable and
    only variables that the span map binds. *)
Theorem reduce_rules_instantiate (g : MultipleContextFreeGrammar)
    (a b : MCFGRuleElementInstance) (r : MCFGRule) :
  In r (reduce g [a; b]) ->
  _right_side_aligns r [a; b] = true /\
  _build_span_map r [a; b] <> Raise ValueError /\
  instantiate_left_side r [a; b] <> Raise ValueError /\
  (forall current element : ABEntry,
     _combine g current element <> Raise ValueError) /\
  (forall span_map, _build_span_map r [a; b] = Ok span_map ->
     resolves span_map r ->
     exists o, instantiate_left_side r [a; b] = Ok o).
Proof.
  intros Hin. apply reduce_aligns in Hin. destruct Hin as [_ Hal].
  split; [exact Hal |]. split; [| split; [| split]].
  - unfold _build_span_map. rewrite Hal. apply span_map_of_no_ValueError.
  - apply instantiate_left_side_aligned, Hal.
  - apply _combine_no_ValueError.
  - intros m Hm Hres.
    pose proof (aligns_not_epsilon r a [b] Hal) as Heps.
    unfold instantiate_left_side, instantiate_by_span_map.
    rewrite Heps, Hm. simpl bind.
    destruct (new_spans_of_spec m (string_variables (left_side r)) Hres)
      as [[-> _] | [-> _]]; simpl; eexists; reflexivity.
Qed.

Lemma reduce_rules_instantiate_witness :
  instantiate_left_side rule_1
    [mkInstance "Vpres" [(3, 4)%Z];
     mkInstance "Sbarwhrc" [(1, 2)%Z; (4, 7)%Z]] <> Raise ValueError /\
  exists o,
    instantiate_left_side rule_1
      [mkInstance "Vpres" [(3, 4)%Z];
       mkInstance "Sbarwhrc" [(1, 2)%Z; (4, 7)%Z]] = Ok o.
Proof.
  pose (H := reduce_rules_instantiate
               (mkGrammar [rule_1] [left_side rule_1])
               (mkInstance "Vpres" [(3, 4)%Z])
               (mkInstance "Sbarwhrc" [(1, 2)%Z; (4, 7)%Z])
               rule_1 (or_introl eq_refl)).
  split.
  - exact (proj1 (proj2 (proj2 H))).
  - refine (proj2 (proj2 (proj2 (proj2 H)))
              [(Pos 2, (4, 7)%Z); (Pos 1, (1, 2)%Z); (Pos 0, (3, 4)%Z)]
              eq_refl _).
    resolve_components.
Defined.

(** C9, read to its last words, fails on the rule of the text
    ["A(uv, x) -> B(u) C(v)"]: [reduce] returns it for the instances of [B]
    and [C], and the call raises [IndexError] on the empty left component:
    it returns neither an instance nor the no-match value. *)
Lemma reduce_rule_raises_IndexError :
  from_string "A(uv, x) -> B(u) C(v)" = Ok rule_empty_component /\
  In rule_empty_component
     (reduce grammar_empty_component
        [mkInstance "B" [(0, 1)%Z]; mkInstance "C" [(1, 2)%Z]]) /\
  instantiate_left_side rule_empty_component
    [mkInstance "B" [(0, 1)%Z]; mkInstance "C" [(1, 2)%Z]]
    = Raise IndexError /\
  ~ (exists o,
       instantiate_left_side rule_empty_component
         [mkInstance "B" [(0, 1)%Z]; mkInstance "C" [(1, 2)%Z]] = Ok o).
Proof.
  split; [reflexivity |]. split; [left; reflexivity |].
  split; [reflexivity |]. intros [o H]. discriminate H.
Qed.

(** ** Rules whose right side has one variable in each component *)

Lemma combine_In_l {A B : Type} (l : list A) (l' : list B) (a : A) :
  List.length l = List.length l' -> In a l ->
  exists b, In (a, b) (combine l l').
Proof.
  revert l'; induction l as [| x l IH]; intros [| y l'] Hlen Hin;
    try discriminate; [destruct Hin |].
  destruct Hin as [-> | Hin].
  - exists y. left. reflexivity.
  - destruct (IH l' (eq_add_S _ _ Hlen) Hin) as [b Hb].
    exists b. right. exact Hb.
Qed.

Lemma dict_get_bound_iff (m : SpanMap) (v : strvar) :
  bound m v <-> In v (map fst m).
Proof.
  unfold bound. induction m as [| [k s] m IH]; simpl.
  - split; [intros [s H]; discriminate | intros []].
  - destruct (strvar_eq_dec v k) as [-> | Hne].
    + rewrite strvar_eqb_refl. split; [auto | intros _; eexists; reflexivity].
    + assert (Hb : strvar_eqb v k = false).
      { apply not_true_is_false. intros H. apply strvar_eqb_eq in H. auto. }
      rewrite Hb, IH. split; [auto | intros [H | H]; [congruence | exact H]].
Qed.

Lemma span_map_of_keys (pairs : list (StringVariables * SpanIndices)) :
  forall d,
    (forall sv sp, In (sv, sp) pairs -> sv <> []) ->
    exists m, span_map_of d pairs = Ok m /\
      (forall v, bound d v -> bound m v) /\
      (forall v vs sp, In (v :: vs, sp) pairs -> bound m v).
Proof.
  induction pairs as [| [sv sp] pairs IH]; intros d Hne.
  - exists d. split; [reflexivity |]. split; [auto | intros v vs sp' []].
  - destruct sv as [| k sv];
      [exfalso; exact (Hne [] sp (or_introl eq_refl) eq_refl) |].
    destruct (IH (dict_set k sp d)) as [m [Hm [Hkeep Hkeys]]].
    { intros sv' sp' Hin. apply (Hne sv' sp'). right. exact Hin. }
    exists m. split; [exact Hm |]. split.
    + intros v Hv. apply Hkeep. apply dict_get_bound_iff. simpl. right.
      apply dict_get_bound_iff. exact Hv.
    + intros v vs sp' [Heq | Hin].
      * inversion Heq; subst. apply Hkeep.
        apply dict_get_bound_iff. simpl. left. reflexivity.
      * exact (Hkeys v vs sp' Hin).
Qed.

Lemma aligned_components (r : MCFGRule)
    (rs : list MCFGRuleElementInstance) (el : MCFGRuleElement)
    (vs : StringVariables) :
  _right_side_aligns r rs = true ->
  In el (right_side r) -> In vs (string_variables el) ->
  exists sp, In (vs, sp) (zipped_components r rs).
Proof.
  intros Hal Hel Hvs.
  pose proof (aligns_length r rs Hal) as Hlen.
  destruct (combine_In_l (right_side r) rs el Hlen Hel) as [inst Hin].
  unfold _right_side_aligns in Hal. rewrite <- Hlen, Nat.eqb_refl in Hal.
  apply andb_true_iff in Hal. destruct Hal as [_ Hcount].
  rewrite forallb_forall in Hcount. specialize (Hcount (el, inst) Hin).
  simpl in Hcount. apply Nat.eqb_eq in Hcount.
  destruct (combine_In_l (string_variables el) (string_spans inst) vs
              Hcount Hvs) as [sp Hsp].
  exists sp. unfold zipped_components. apply in_flat_map.
  exists (el, inst). split; [exact Hin | exact Hsp].
Qed.

Lemma mem_In (v : strvar) (s : list strvar) : mem v s = true <-> In v s.
Proof.
  unfold mem. rewrite existsb_exists. split.
  - intros [x [Hin Hx]]. apply strvar_eqb_eq in Hx. subst. exact Hin.
  - intros Hin. exists v. split; [exact Hin | apply strvar_eqb_refl].
Qed.

(** For a rule that the constructor accepts, with a right side of one
    variable in each component -- as [from_string] builds it -- and no empty
    component on the left side, the span map of aligned instances binds
    every variable of the left side. *)
Lemma single_variables_resolve (r : MCFGRule)
    (rs : list MCFGRuleElementInstance) :
  single_variables r ->
  _validate r = Ok tt ->
  is_epsilon r = false ->
  _right_side_aligns r rs = true ->
  ~ In [] (string_variables (left_side r)) ->
  exists span_map, _build_span_map r rs = Ok span_map /\ resolves span_map r.
Proof.
  intros Hsingle Hvalid Heps Hal Hempty.
  destruct (span_map_of_keys (zipped_components r rs) []) as [m [Hm [_ Hkeys]]].
  { intros sv sp Hin. unfold zipped_components in Hin.
    apply in_flat_map in Hin. destruct Hin as [[el inst] [Hel Hin]].
    apply in_combine_l in Hel. apply in_combine_l in Hin. simpl in Hin.
    destruct (Hsingle el sv Hel Hin) as [v ->]. discriminate. }
  exists m. split; [unfold _build_span_map; rewrite Hal; exact Hm |].
  intros vs Hvs. split; [intros ->; exact (Hempty Hvs) |].
  intros v Hv.
  unfold _validate in Hvalid. rewrite Heps in Hvalid.
  destruct (sharing (map unique_string_variables (right_side r)));
    [discriminate |].
  destruct (set_eqb (unique_string_variables (left_side r))
              (List.concat (map unique_string_variables (right_side r))))
    eqn:Hset; [| discriminate].
  unfold set_eqb in Hset. apply andb_true_iff in Hset.
  destruct Hset as [Hsub _]. rewrite forallb_forall in Hsub.
  assert (Hin : In v (unique_string_variables (left_side r))).
  { unfold unique_string_variables. apply in_concat. exists vs. auto. }
  apply Hsub, mem_In, in_concat in Hin. destruct Hin as [ws [Hws Hvws]].
  apply in_map_iff in Hws. destruct Hws as [el [<- Hel]].
  unfold unique_string_variables in Hvws. apply in_concat in Hvws.
  destruct Hvws as [comp [Hcomp Hvc]].
  destruct (Hsingle el comp Hel Hcomp) as [v' ->].
  destruct Hvc as [-> | []].
  destruct (aligned_components r rs el [v] Hal Hel Hcomp) as [sp Hsp].
  exact (Hkeys v [] sp Hsp).
Qed.

(** ** Seeding *)

Lemma mapM_Forall {A B : Type} (f : A -> result B) (P : B -> Prop)
    (l : list A) (bs : list B) :
  mapM f l = Ok bs ->
  (forall a b, In a l -> f a = Ok b -> P b) ->
  Forall P bs.
Proof.
  revert bs; induction l as [| a l IH]; simpl; intros bs H HP.
  - inversion H. constructor.
  - apply bind_Ok in H. destruct H as [b [Hb H]].
    apply bind_Ok in H. destruct H as [bs' [Hbs' H]].
    inversion H; subst. constructor.
    + apply (HP a b); auto.
    + apply IH; [exact Hbs' |]. intros a' b' Hin. apply HP. right. exact Hin.
Qed.

Lemma lexical_rules_epsilon (rules : list MCFGRule) (word : string)
    (l : list MCFGRule) :
  lexical_rules rules word = Ok l -> forall r, In r l -> is_epsilon r = true.
Proof.
  revert l; induction rules as [| rule rules IH]; simpl; intros l H r Hin.
  - inversion H; subst. destruct Hin.
  - destruct (is_epsilon rule) eqn:Heps.
    + apply bind_Ok in H. destruct H as [v [_ H]].
      apply bind_Ok in H. destruct H as [rest [Hrest H]].
      inversion H; subst; clear H.
      destruct (strvar_eqb v (Word word)).
      * destruct Hin as [<- | Hin]; [exact Heps | exact (IH rest Hrest r Hin)].
      * exact (IH rest Hrest r Hin).
    + exact (IH l H r Hin).
Qed.

(** A lexical rule applied to one instance returns the left instance with
    the spans of that instance, or it raises: it has no no-match value. *)
Lemma seed_symbol (r : MCFGRule) (inst : MCFGRuleElementInstance)
    (o : option MCFGRuleElementInstance) :
  is_epsilon r = true ->
  instantiate_left_side r [inst] = Ok o ->
  o = Some (mkInstance (variable (left_side r)) (string_spans inst)).
Proof.
  intros Heps H. unfold instantiate_left_side in H. rewrite Heps in H.
  apply bind_Ok in H. destruct H as [strvars [_ H]].
  destruct (list_eq_dec strvar_eq_dec _ strvars).
  - inversion H. simpl. rewrite app_nil_r. reflexivity.
  - rewrite instantiate_by_span_map_misaligned in H; [discriminate |].
    unfold _right_side_aligns. unfold is_epsilon in Heps.
    destruct (right_side r); [reflexivity | discriminate].
Qed.

Lemma seed_entry_shape (word : string) (idx : nat) (rule : MCFGRule)
    (e : ABEntry) :
  is_epsilon rule = true ->
  seed_entry word idx rule = Ok e ->
  backpointers e = [[None; None]] /\
  string_spans (symbol e) = [(Z.of_nat idx, (Z.of_nat idx + 1)%Z)].
Proof.
  intros Heps H. unfold seed_entry in H.
  apply bind_Ok in H. destruct H as [o [Ho H]].
  apply (seed_symbol _ _ _ Heps) in Ho. subst o.
  inversion H; subst. split; reflexivity.
Qed.

Lemma seed_shapes (g : MultipleContextFreeGrammar) (words : list string) :
  forall idx entries,
    seed g idx words = Ok entries ->
    Forall (fun e =>
              backpointers e = [[None; None]] /\
              exists i, idx <= i < idx + List.length words /\
                string_spans (symbol e) = [(Z.of_nat i, (Z.of_nat i + 1)%Z)])
           entries.
Proof.
  induction words as [| word words IH]; simpl; intros idx entries H.
  - inversion H. constructor.
  - apply bind_Ok in H. destruct H as [rules [Hrules H]].
    apply bind_Ok in H. destruct H as [es [Hes H]].
    apply bind_Ok in H. destruct H as [rest [Hrest H]].
    inversion H; subst; clear H. apply Forall_app. split.
    + apply (mapM_Forall _ _ _ _ Hes). intros rule e Hin He.
      destruct (seed_entry_shape word idx rule e) as [Hbp Hsp];
        [exact (lexical_rules_epsilon _ _ _ Hrules rule Hin) | exact He |].
      split; [exact Hbp |]. exists idx. split; [lia | exact Hsp].
    + apply IH in Hrest. revert Hrest. apply Forall_impl.
      intros e [Hbp [i [Hi Hsp]]]. split; [exact Hbp |].
      exists i. split; [lia | exact Hsp].
Qed.

Lemma reindex_index (entries : list ABEntry) :
  forall n, map index (reindex n entries) = seq n (List.length entries).
Proof.
  induction entries as [| e es IH]; simpl; intros n; [reflexivity |].
  rewrite IH. reflexivity.
Qed.

Lemma reindex_shape (P : MCFGRuleElementInstance ->
                         list (list ABBackPointer) -> Prop)
    (entries : list ABEntry) :
  Forall (fun e => P (symbol e) (backpointers e)) entries ->
  forall n, Forall (fun e => P (symbol e) (backpointers e)) (reindex n entries).
Proof.
  induction 1 as [| e es He Hes IH]; simpl; intros n; constructor.
  - exact He.
  - apply IH.
Qed.

Lemma init_state_invariant (g : MultipleContextFreeGrammar)
    (words : list string) (st : state) :
  init_state g words = Ok st -> invariant words st.
Proof.
  unfold init_state. intros H.
  apply bind_Ok in H. destruct H as [seeds [Hseeds H]].
  destruct seeds as [| s0 seeds']; [discriminate |].
  inversion H; subst; clear H. constructor; simpl.
  - apply (reindex_index (s0 :: seeds') 0).
  - apply seed_shapes in Hseeds.
    pose proof (reindex_shape
                  (fun sym bps =>
                     bps = [[None; None]] /\
                     exists i, 0 <= i < 0 + List.length words /\
                       string_spans sym = [(Z.of_nat i, (Z.of_nat i + 1)%Z)])
                  _ Hseeds 0) as Hre.
    revert Hre. apply Forall_impl.
    intros e [Hbp [i [Hi Hsp]]]. left. split; [exact Hbp |].
    exists i. split; [lia | exact Hsp].
  - intros i. split; intros [].
Qed.

(** ** One round of the loop *)

Lemma append_parses_spec (r : nat) (current element : ABEntry)
    (combination : list MCFGRuleElementInstance) :
  forall agenda0 n,
    index current < n -> index element < n ->
    exists news,
      append_parses r current element combination agenda0 n
        = ((agenda0 ++ news)%list, n + List.length news) /\
      map index news = seq n (List.length news) /\
      Forall derived_shape news.
Proof.
  induction combination as [| c cs IH]; simpl; intros agenda0 n Hc He.
  - exists []. rewrite app_nil_r, Nat.add_0_r. repeat split. constructor.
  - destruct (IH (agenda0 ++ [new_parse r current element c n])%list (S n))
      as [news [Heq [Hidx Hshape]]]; [lia | lia |].
    exists (new_parse r current element c n :: news).
    rewrite Heq, <- app_assoc. simpl.
    replace (n + S (List.length news)) with (S (n + List.length news)) by lia.
    split; [reflexivity |]. split.
    + rewrite Hidx. unfold new_parse.
      destruct (Nat.eqb r 0); reflexivity.
    + constructor; [| exact Hshape].
      unfold new_parse.
      destruct (Nat.eqb r 0); red; simpl.
      * exists (index current), (inst_variable (symbol current)),
          (index element), (inst_variable (symbol element)). auto.
      * exists (index element), (inst_variable (symbol element)),
          (index current), (inst_variable (symbol current)). auto.
Qed.

Lemma scan_chart_spec (g : MultipleContextFreeGrammar) (current : ABEntry)
    (elements : list ABEntry) :
  forall agenda0 n an,
    index current < n ->
    Forall (fun e => index e < n) elements ->
    scan_chart g current elements agenda0 n = Ok an ->
    exists news,
      an = ((agenda0 ++ news)%list, n + List.length news) /\
      map index news = seq n (List.length news) /\
      Forall derived_shape news.
Proof.
  induction elements as [| element rest IH]; simpl;
    intros agenda0 n an Hc Hel H.
  - inversion H; subst. exists [].
    rewrite app_nil_r, Nat.add_0_r. repeat split. constructor.
  - apply bind_Ok in H. destruct H as [[r combination] [_ H]].
    simpl in H. inversion Hel as [| ? ? He Hrest]; subst.
    assert (Hstep : exists news1,
               match combination with
               | Some cs => append_parses r current element cs agenda0 n
               | None => (agenda0, n)
               end = ((agenda0 ++ news1)%list, n + List.length news1) /\
               map index news1 = seq n (List.length news1) /\
               Forall derived_shape news1).
    { destruct combination as [cs |].
      - apply append_parses_spec; assumption.
      - exists []. rewrite app_nil_r, Nat.add_0_r. repeat split.
        constructor. }
    destruct Hstep as [news1 [Heq [Hidx1 Hsh1]]].
    rewrite Heq in H. simpl in H.
    apply IH in H; [| lia |].
    + destruct H as [news2 [-> [Hidx2 Hsh2]]].
      exists (news1 ++ news2)%list.
      rewrite <- app_assoc, length_app, map_app, seq_app, Hidx1, Hidx2.
      split; [f_equal; lia |]. split; [reflexivity |].
      apply Forall_app; auto.
    + revert Hrest. apply Forall_impl. intros; lia.
Qed.

Lemma seq_In_lt (n i : nat) : In i (seq 0 n) <-> i < n.
Proof.
  rewrite in_seq. lia.
Qed.

Lemma ids_lt (l : list ABEntry) (n : nat) :
  map index l = seq 0 n -> Forall (fun e => index e < n) l.
Proof.
  intros H. apply Forall_forall. intros e He.
  apply seq_In_lt. rewrite <- H. apply in_map. exact He.
Qed.

Lemma existsb_eqb_In (i : nat) (l : list nat) :
  existsb (Nat.eqb i) l = true <-> In i l.
Proof.
  rewrite existsb_exists. split.
  - intros [x [Hin Hx]]. apply Nat.eqb_eq in Hx. subst. exact Hin.
  - intros Hin. exists i. split; [exact Hin | apply Nat.eqb_refl].
Qed.

(** A round pops [current], appends it to the chart and appends the new
    entries, with the next ids, to the agenda. *)
Lemma loop_body_spec (g : MultipleContextFreeGrammar) (words : list string)
    (st st' : state) (current : ABEntry) (rest : list ABEntry) :
  invariant words st ->
  agenda st = current :: rest ->
  loop_body g current rest st = Ok st' ->
  exists news,
    agenda st' = (rest ++ news)%list /\
    chart st' = (chart st ++ [current])%list /\
    next_id st' = next_id st + List.length news /\
    map index news = seq (next_id st) (List.length news) /\
    Forall derived_shape news /\
    chart_ids st' = index current :: chart_ids st.
Proof.
  intros [Hids Hshape Hcids] Hag H. unfold loop_body in H.
  apply bind_Ok in H. destruct H as [an [Han H]].
  rewrite Hag in Hids.
  pose proof (ids_lt _ _ Hids) as Hlt.
  apply Forall_app in Hlt. destruct Hlt as [Hchart Hagenda].
  inversion Hagenda as [| ? ? Hcur _]; subst.
  destruct (scan_chart_spec g current (chart st) rest (next_id st) an
              Hcur Hchart Han) as [news [-> [Hidx Hsh]]].
  assert (Hnot : existsb (Nat.eqb (index current)) (chart_ids st) = false).
  { apply not_true_is_false. intros Hin.
    apply existsb_eqb_In, Hcids in Hin.
    pose proof (seq_NoDup (next_id st) 0) as Hnd.
    rewrite <- Hids, map_app in Hnd. simpl in Hnd.
    apply NoDup_remove_2 in Hnd. apply Hnd, in_or_app. left. exact Hin. }
  rewrite Hnot in H. inversion H; subst; clear H. simpl.
  exists news. repeat split; assumption.
Qed.

Lemma loop_body_invariant (g : MultipleContextFreeGrammar)
    (words : list string) (st st' : state) (current : ABEntry)
    (rest : list ABEntry) :
  invariant words st ->
  agenda st = current :: rest ->
  loop_body g current rest st = Ok st' ->
  invariant words st'.
Proof.
  intros Hinv Hag H.
  destruct (loop_body_spec g words st st' current rest Hinv Hag H)
    as [news [Hag' [Hch' [Hn' [Hidx [Hsh Hcids']]]]]].
  destruct Hinv as [Hids Hshape Hcids]. rewrite Hag in Hids, Hshape.
  constructor.
  - rewrite Hag', Hch', Hn', <- app_assoc. simpl.
    replace (chart st ++ current :: rest ++ news)%list
      with ((chart st ++ current :: rest) ++ news)%list
      by (rewrite <- app_assoc; reflexivity).
    rewrite map_app, Hids, Hidx, seq_app. reflexivity.
  - rewrite Hag', Hch', <- app_assoc. simpl.
    replace (chart st ++ current :: rest ++ news)%list
      with ((chart st ++ current :: rest) ++ news)%list
      by (rewrite <- app_assoc; reflexivity).
    apply Forall_app. split; [exact Hshape |].
    revert Hsh. apply Forall_impl. intros e He. right. exact He.
  - intros i. rewrite Hcids', Hch', map_app, in_app_iff. simpl.
    rewrite Hcids. tauto.
Qed.

Lemma reachable_invariant (g : MultipleContextFreeGrammar)
    (words : list string) (st : state) :
  reachable g words st -> invariant words st.
Proof.
  induction 1 as [st H | st current rest st' _ IH Hag H].
  - exact (init_state_invariant g words st H).
  - exact (loop_body_invariant g words st st' current rest IH Hag H).
Qed.

(** The chart that [_fill_chart] returns is the chart of a state of the loop
    whose agenda is empty. *)
Lemma while_agenda_final (g : MultipleContextFreeGrammar)
    (words : list string) (fuel : nat) :
  forall st c,
    reachable g words st ->
    while_agenda fuel g st = Ok c ->
    exists st', reachable g words st' /\ agenda st' = [] /\ chart st' = c /\
                List.length c <= List.length (chart st) + fuel.
Proof.
  induction fuel as [| fuel IH]; intros st c Hr H; simpl in H.
  - destruct (agenda st) eqn:Hag; [| discriminate].
    inversion H; subst. exists st. repeat split; auto. lia.
  - destruct (agenda st) as [| current rest] eqn:Hag.
    + inversion H; subst. exists st. repeat split; auto. lia.
    + apply bind_Ok in H. destruct H as [st1 [Hst1 H]].
      pose proof (reach_round Hr Hag Hst1) as Hr1.
      destruct (IH st1 c Hr1 H) as [st' [Hr' [Hag' [Hc Hlen]]]].
      exists st'. repeat split; auto.
      destruct (loop_body_spec g words st st1 current rest
                  (reachable_invariant g words st Hr) Hag Hst1)
        as [news [_ [Hch _]]].
      rewrite Hch, length_app in Hlen. simpl in Hlen. lia.
Qed.

Lemma _fill_chart_final (g : MultipleContextFreeGrammar)
    (words : list string) (fuel : nat) (c : list ABEntry) :
  _fill_chart fuel g words = Ok c ->
  exists st, reachable g words st /\ agenda st = [] /\ chart st = c /\
             List.length c <= fuel.
Proof.
  unfold _fill_chart. intros H.
  apply bind_Ok in H. destruct H as [st0 [Hst0 H]].
  destruct (while_agenda_final g words fuel st0 c (@reach_init g words st0 Hst0) H)
    as [st [Hr [Hag [Hc Hlen]]]].
  exists st. repeat split; auto.
  unfold init_state in Hst0.
  apply bind_Ok in Hst0. destruct Hst0 as [seeds [_ Hst0]].
  destruct seeds; [discriminate |]. inversion Hst0; subst. simpl in Hlen. lia.
Qed.

(** The chart that [_fill_chart] returns: its ids are [0, ..., n-1] in this
    order, and each entry is a seed or is derived from earlier entries. *)
Lemma _fill_chart_chart (g : MultipleContextFreeGrammar)
    (words : list string) (fuel : nat) (c : list ABEntry) :
  _fill_chart fuel g words = Ok c ->
  map index c = seq 0 (List.length c) /\
  Forall (entry_shape words) c /\
  List.length c <= fuel.
Proof.
  intros H. destruct (_fill_chart_final g words fuel c H)
    as [st [Hr [Hag [Hc Hlen]]]].
  destruct (reachable_invariant g words st Hr) as [Hids Hshape _].
  rewrite Hag, app_nil_r, Hc in Hids, Hshape.
  split; [| split; assumption].
  assert (Hn : List.length c = next_id st).
  { rewrite <- (length_map index c), Hids. apply length_seq. }
  rewrite Hn. exact Hids.
Qed.

(** ** Acceptance *)

Lemma is_start_node_spec (g : MultipleContextFreeGrammar)
    (words : list string) (entry : ABEntry) :
  is_start_node g words entry = true <-> start_entry g words entry.
Proof.
  unfold is_start_node, start_entry.
  rewrite andb_true_iff, existsb_exists.
  destruct (list_eq_dec span_eq_dec (string_spans (symbol entry))
              [(0%Z, Z.of_nat (List.length words))]) as [Heq | Hne].
  - split.
    + intros [[x [Hin Hx]] _]. apply String.eqb_eq in Hx. subst x. auto.
    + intros [Hin _]. split; [| reflexivity].
      exists (inst_variable (symbol entry)).
      split; [exact Hin | apply String.eqb_refl].
  - split; [intros [_ H]; discriminate | intros [_ H]; contradiction].
Qed.

Lemma filter_nonempty {A : Type} (f : A -> bool) (l : list A) :
  filter f l <> [] <-> exists a, In a l /\ f a = true.
Proof.
  split.
  - destruct (filter f l) as [| a l'] eqn:E; [contradiction |]. intros _.
    exists a. apply filter_In. rewrite E. left. reflexivity.
  - intros [a Ha] E. apply filter_In in Ha. rewrite E in Ha. exact Ha.
Qed.

(** C1.  Whenever [_fill_chart] returns a chart for a token sequence of
    length [n], the recogniser returns a boolean, and it returns true if and
    only if the chart has an entry whose variable is the name of a start
    variable and whose spans are exactly [((0, n),)]. *)
Theorem recognize_iff_start_entry (fuel : nat)
    (g : MultipleContextFreeGrammar) (words : list string)
    (chart : list ABEntry) :
  _fill_chart fuel g words = Ok chart ->
  exists b, _recognize fuel g words = Ok b /\
    (b = true <->
     exists entry, In entry chart /\
       In (inst_variable (symbol entry)) (map variable (_start_variables g)) /\
       string_spans (symbol entry) = [(0%Z, Z.of_nat (List.length words))]).
Proof.
  intros Hfill. unfold _recognize. rewrite Hfill. simpl.
  eexists. split; [reflexivity |].
  destruct (filter (is_start_node g words) chart) as [| e l] eqn:E.
  - split; [discriminate |]. intros [entry [Hin Hstart]]. exfalso.
    assert (H : In entry (filter (is_start_node g words) chart)).
    { apply filter_In. split; [exact Hin |].
      apply is_start_node_spec. exact Hstart. }
    rewrite E in H. exact H.
  - split; [intros _ | reflexivity].
    assert (H : In e (filter (is_start_node g words) chart))
      by (rewrite E; left; reflexivity).
    apply filter_In in H. destruct H as [Hin H].
    exists e. split; [exact Hin |]. apply is_start_node_spec. exact H.
Qed.

Lemma recognize_iff_start_entry_witness :
  exists b, _recognize 3 small_grammar ["a"; "b"] = Ok b /\
    (b = true <->
     exists entry, In entry small_chart /\
       In (inst_variable (symbol entry))
          (map variable (_start_variables small_grammar)) /\
       string_spans (symbol entry) = [(0%Z, 2%Z)]).
Proof.
  exact (recognize_iff_start_entry 3 small_grammar ["a"; "b"] small_chart
           eq_refl).
Defined.

(** ** Back-pointers *)

Lemma _get_item_In (inventory : list ABEntry) (idx : nat) :
  In idx (map index inventory) ->
  exists item, _get_item inventory idx = Some item /\
               In item inventory /\ index item = idx.
Proof.
  induction inventory as [| i inventory IH]; simpl; [intros [] |].
  intros H. destruct (Nat.eqb_spec (index i) idx) as [Heq | Hne].
  - exists i. auto.
  - destruct H as [H | H]; [contradiction |].
    destruct (IH H) as [item [Hget [Hin Hidx]]]. exists item. auto.
Qed.

Lemma backpointer_lt (words : list string) (entry : ABEntry)
    (id : nat) (name : string) :
  entry_shape words entry ->
  In (Some (id, name)) (List.concat (backpointers entry)) ->
  id < index entry.
Proof.
  intros [[Hbp _] | [i0 [n0 [i1 [n1 [Hbp [H0 H1]]]]]]] Hin;
    rewrite Hbp in Hin; simpl in Hin.
  - destruct Hin as [H | [H | []]]; discriminate.
  - destruct Hin as [H | [H | []]]; inversion H; subst; assumption.
Qed.

(** C6.  The seeds get the ids [0, ..., k-1] and [next_id] starts at [k].
    In every state of the loop of [_fill_chart] the entries of the chart and
    of the agenda carry the ids [0, ..., next_id - 1], once each: no two
    entries of the chart share an id.  A round gives the entries that it
    derives the next ids, from [next_id] on, and [next_id] never decreases.
    No two entries of the chart that [_fill_chart] returns share an id. *)
Theorem chart_ids_distinct (g : MultipleContextFreeGrammar)
    (words : list string) :
  (forall st, init_state g words = Ok st ->
     chart st = [] /\ map index (agenda st) = seq 0 (next_id st)) /\
  (forall st, reachable g words st ->
     map index (chart st ++ agenda st)%list = seq 0 (next_id st) /\
     NoDup (map index (chart st))) /\
  (forall st current rest st',
     reachable g words st -> agenda st = current :: rest ->
     loop_body g current rest st = Ok st' ->
     exists derived,
       agenda st' = (rest ++ derived)%list /\
       map index derived = seq (next_id st) (List.length derived) /\
       next_id st' = next_id st + List.length derived) /\
  (forall fuel chart, _fill_chart fuel g words = Ok chart ->
     NoDup (map index chart)).
Proof.
  split; [| split; [| split]].
  - intros st H. pose proof (init_state_invariant g words st H) as [Hids _ _].
    unfold init_state in H. apply bind_Ok in H. destruct H as [seeds [_ H]].
    destruct seeds; [discriminate |]. inversion H; subst.
    split; [reflexivity | exact Hids].
  - intros st Hr. destruct (reachable_invariant g words st Hr) as [Hids _ _].
    split; [exact Hids |].
    pose proof (seq_NoDup (next_id st) 0) as Hnd.
    rewrite <- Hids, map_app in Hnd. apply NoDup_app_remove_r in Hnd.
    exact Hnd.
  - intros st current rest st' Hr Hag H.
    destruct (loop_body_spec g words st st' current rest
                (reachable_invariant g words st Hr) Hag H)
      as [news [Hag' [_ [Hn [Hidx _]]]]].
    exists news. auto.
  - intros fuel c H. destruct (_fill_chart_chart g words fuel c H) as [Hids _].
    rewrite Hids. apply seq_NoDup.
Qed.

Lemma chart_ids_distinct_witness :
  NoDup (map index small_chart).
Proof.
  exact (proj2 (proj2 (proj2 (chart_ids_distinct small_grammar ["a"; "b"])))
           3 small_chart eq_refl).
Defined.

(** C7.  In a chart that [_fill_chart] returns, every id that a
    back-pointer of an entry names is the id of an entry of the chart, and
    [_get_item] returns that entry. *)
Theorem backpointers_resolve (fuel : nat) (g : MultipleContextFreeGrammar)
    (words : list string) (chart : list ABEntry) :
  _fill_chart fuel g words = Ok chart ->
  forall entry id name,
    In entry chart ->
    In (Some (id, name)) (List.concat (backpointers entry)) ->
    exists item, _get_item chart id = Some item /\
                 In item chart /\ index item = id.
Proof.
  intros H entry id name Hin Hbp.
  destruct (_fill_chart_chart g words fuel chart H) as [Hids [Hshape _]].
  apply _get_item_In. rewrite Hids. apply seq_In_lt.
  rewrite Forall_forall in Hshape.
  pose proof (backpointer_lt words entry id name (Hshape entry Hin) Hbp).
  pose proof (ids_lt _ _ Hids) as Hlt. rewrite Forall_forall in Hlt.
  specialize (Hlt entry Hin). lia.
Qed.

Lemma backpointers_resolve_witness :
  exists item, _get_item small_chart 1 = Some item /\
               In item small_chart /\ index item = 1.
Proof.
  exact (backpointers_resolve 3 small_grammar ["a"; "b"] small_chart eq_refl
           (mkEntry (mkInstance "S" [(0, 2)%Z]) 2
                    [[Some (0, "A"); Some (1, "B")]])
           1 "B"
           (or_intror (or_intror (or_introl eq_refl)))
           (or_intror (or_introl eq_refl))).
Defined.

(** ** Forest extraction *)

Lemma mapM_ext_Ok {A B : Type} (f f' : A -> result B) (l : list A)
    (bs : list B) :
  (forall a b, In a l -> f a = Ok b -> f' a = Ok b) ->
  mapM f l = Ok bs -> mapM f' l = Ok bs.
Proof.
  revert bs; induction l as [| a l IH]; simpl; intros bs Hf H;
    [exact H |].
  apply bind_Ok in H. destruct H as [b [Hb H]].
  apply bind_Ok in H. destruct H as [bs' [Hbs' H]].
  rewrite (Hf a b (or_introl eq_refl) Hb). simpl.
  rewrite (IH bs' (fun a' b' Hin => Hf a' b' (or_intror Hin)) Hbs'). exact H.
Qed.

(** More depth does not change a tree that was built. *)
Lemma _construct_parses_more (chart : list ABEntry) (words : list string) :
  forall depth entry t,
    _construct_parses depth chart words entry = Ok t ->
    _construct_parses (S depth) chart words entry = Ok t.
Proof.
  induction depth as [| depth IH]; intros entry t H; [discriminate |].
  simpl in H. change (_construct_parses (S (S depth)) chart words entry)
    with
      (if is_leaf entry then
         match string_spans (symbol entry) with
         | [] => Raise IndexError
         | sp :: _ =>
             word <- py_getitem words (fst sp) ;;
             Ok (Node (inst_variable (symbol entry) ++ "(" ++ word ++ ")") [])
         end
       else
         children <-
           mapM (fun bp : ABBackPointer =>
                   match bp with
                   | None => Raise TypeError
                   | Some (child_entry_id, _) =>
                       match _get_item chart child_entry_id with
                       | None => Raise AttributeError
                       | Some child_entry =>
                           _construct_parses (S depth) chart words child_entry
                       end
                   end)
                (List.concat (backpointers entry)) ;;
         Ok (Node (inst_variable (symbol entry)) children)).
  destruct (is_leaf entry); [exact H |].
  apply bind_Ok in H. destruct H as [children [Hch H]].
  erewrite mapM_ext_Ok; [exact H | | exact Hch].
  intros [[id name] |] b _ Hb; [| discriminate].
  destruct (_get_item chart id); [apply IH; exact Hb | discriminate].
Qed.

Lemma _construct_parses_le (chart : list ABEntry) (words : list string)
    (entry : ABEntry) (t : Tree) (depth depth' : nat) :
  depth <= depth' ->
  _construct_parses depth chart words entry = Ok t ->
  _construct_parses depth' chart words entry = Ok t.
Proof.
  induction 1 as [| depth' _ IH]; intros H; [exact H |].
  apply _construct_parses_more, IH, H.
Qed.

Lemma py_getitem_nat {A : Type} (l : list A) (i : nat) :
  i < List.length l -> returns (py_getitem l (Z.of_nat i)).
Proof.
  intros Hi. unfold py_getitem.
  destruct (Z.ltb_spec (Z.of_nat i) 0); [lia |].
  destruct (Z.leb_spec 0 (Z.of_nat i)); [| lia].
  destruct (Z.ltb_spec (Z.of_nat i) (Z.of_nat (List.length l))); [| lia].
  simpl. rewrite Nat2Z.id.
  destruct (nth_error l i) as [a |] eqn:E; [exists a; reflexivity |].
  apply nth_error_None in E. lia.
Qed.

(** On a chart whose ids are [0, ..., n-1] and whose entries are seeds or
    derived from earlier entries, the tree of the entry with id [i] is built
    within depth [i + 1]. *)
Lemma _construct_parses_returns (chart : list ABEntry) (words : list string) :
  map index chart = seq 0 (List.length chart) ->
  Forall (entry_shape words) chart ->
  forall depth entry,
    In entry chart -> index entry < depth ->
    returns (_construct_parses depth chart words entry).
Proof.
  intros Hids Hshape. rewrite Forall_forall in Hshape.
  pose proof (ids_lt _ _ Hids) as Hlt. rewrite Forall_forall in Hlt.
  assert (Hget : forall entry id, In entry chart -> id < index entry ->
            exists item, _get_item chart id = Some item /\
                         In item chart /\ index item = id).
  { intros entry id Hin Hid. apply _get_item_In. rewrite Hids.
    apply seq_In_lt. specialize (Hlt entry Hin). lia. }
  induction depth as [| depth IH]; intros entry Hin Hdepth; [lia |].
  simpl. destruct (Hshape entry Hin)
    as [[Hbp [idx [Hidx Hsp]]] | [i0 [n0 [i1 [n1 [Hbp [H0 H1]]]]]]].
  - unfold is_leaf. rewrite Hbp, Hsp. simpl.
    destruct (py_getitem_nat words idx Hidx) as [word ->]. simpl.
    eexists; reflexivity.
  - unfold is_leaf. rewrite Hbp. simpl.
    destruct (Hget entry i0 Hin H0) as [e0 [-> [Hin0 Hi0]]].
    destruct (Hget entry i1 Hin H1) as [e1 [-> [Hin1 Hi1]]].
    destruct (IH e0 Hin0) as [t0 ->]; [lia |].
    destruct (IH e1 Hin1) as [t1 ->]; [lia |].
    simpl. eexists; reflexivity.
Qed.

(** C10.  In a chart that [_fill_chart] returns, the id of every
    back-pointer of an entry is strictly smaller than the index of the
    entry, and [_construct_parses] returns a tree for the entry -- for a
    start entry as for any other -- within a depth of recursion of its
    index plus one, the same tree at any greater depth. *)
Theorem construct_parses_terminates (fuel : nat)
    (g : MultipleContextFreeGrammar) (words : list string)
    (chart : list ABEntry) :
  _fill_chart fuel g words = Ok chart ->
  forall entry, In entry chart ->
    (forall id name,
       In (Some (id, name)) (List.concat (backpointers entry)) ->
       id < index entry) /\
    exists t, forall depth, index entry < depth ->
      _construct_parses depth chart words entry = Ok t.
Proof.
  intros H entry Hin.
  destruct (_fill_chart_chart g words fuel chart H) as [Hids [Hshape _]].
  split.
  - intros id name. apply (backpointer_lt words).
    rewrite Forall_forall in Hshape. apply Hshape, Hin.
  - destruct (_construct_parses_returns chart words Hids Hshape
                (S (index entry)) entry Hin (Nat.lt_succ_diag_r _)) as [t Ht].
    exists t. intros depth Hd.
    apply (_construct_parses_le chart words entry t (S (index entry)) depth);
      [lia | exact Ht].
Qed.

Lemma construct_parses_terminates_witness :
  exists t, forall depth, 2 < depth ->
    _construct_parses depth small_chart ["a"; "b"]
      (mkEntry (mkInstance "S" [(0, 2)%Z]) 2 [[Some (0, "A"); Some (1, "B")]])
    = Ok t.
Proof.
  exact (proj2 (construct_parses_terminates 3 small_grammar ["a"; "b"]
                  small_chart eq_refl
                  (mkEntry (mkInstance "S" [(0, 2)%Z]) 2
                           [[Some (0, "A"); Some (1, "B")]])
                  (or_intror (or_intror (or_introl eq_refl))))).
Defined.

(** ** Recognition and parsing *)

Lemma set_of_nonempty (l : list Tree) : l <> [] -> set_of l <> [].
Proof.
  induction l as [| t l IH]; intros H; [contradiction |]. simpl.
  destruct (existsb (tree_eqb t) l) eqn:E; [| discriminate].
  apply IH. intros ->. discriminate E.
Qed.

Lemma start_nodes_parsed (fuel : nat) (g : MultipleContextFreeGrammar)
    (words : list string) (chart : list ABEntry) :
  _fill_chart fuel g words = Ok chart ->
  returns (mapM (_construct_parses fuel chart words)
                (filter (is_start_node g words) chart)).
Proof.
  intros H. destruct (_fill_chart_chart g words fuel chart H)
    as [Hids [Hshape Hlen]].
  apply mapM_Ok_all. intros e He. apply filter_In in He. destruct He as [He _].
  apply (_construct_parses_returns chart words Hids Hshape fuel e He).
  pose proof (ids_lt _ _ Hids) as Hlt. rewrite Forall_forall in Hlt.
  specialize (Hlt e He). lia.
Qed.

Lemma unseeded_fill_chart (fuel : nat) (g : MultipleContextFreeGrammar)
    (words : list string) :
  (forall word, In word words -> parts_of_speech g word = Ok []) ->
  _fill_chart fuel g words = Raise UnboundLocalError.
Proof.
  intros Hnone.
  assert (Hseed : forall idx, seed g idx words = Ok []).
  { induction words as [| word words IH]; intros idx; [reflexivity |].
    simpl. rewrite (Hnone word (or_introl eq_refl)). simpl.
    rewrite IH; [reflexivity |]. intros w Hw. apply Hnone. right. exact Hw. }
  unfold _fill_chart, init_state. rewrite Hseed. reflexivity.
Qed.

(** C2: what the code does.  The recogniser returns true if and only if
    the parser returns a set of trees that is not empty, and it returns
    false exactly when the parser returns [None], its value for no parse.
    When [_fill_chart] returns a chart without a start entry that covers
    the whole input, the recogniser returns false and the parser [None], as
    the claim says.  But when nothing is seeded -- the empty token sequence,
    or words without a lexical rule -- there is no chart and so no start
    entry, and the recogniser and the parser do not return false and
    [None]: both raise the [UnboundLocalError] of [next_id = n+1] in
    [_fill_chart]. *)
Theorem recognize_parse_consistent (fuel : nat)
    (g : MultipleContextFreeGrammar) (words : list string) :
  (_recognize fuel g words = Ok true <->
   exists trees, _parse fuel g words = Ok (Some trees) /\ trees <> []) /\
  (_recognize fuel g words = Ok false <-> _parse fuel g words = Ok None) /\
  (forall chart, _fill_chart fuel g words = Ok chart ->
     (forall entry, In entry chart -> ~ start_entry g words entry) ->
     _recognize fuel g words = Ok false /\ _parse fuel g words = Ok None) /\
  ((forall word, In word words -> parts_of_speech g word = Ok []) ->
   (forall chart, _fill_chart fuel g words <> Ok chart) /\
   _recognize fuel g words = Raise UnboundLocalError /\
   _parse fuel g words = Raise UnboundLocalError /\
   _recognize fuel g words <> Ok false /\
   _parse fuel g words <> Ok None).
Proof.
  split; [| split; [| split]].
  - unfold _recognize, _parse.
    destruct (_fill_chart fuel g words) as [chart | e |] eqn:Hfill; simpl;
      try (split; [discriminate | intros [ts [H _]]; discriminate]).
    pose proof (start_nodes_parsed fuel g words chart Hfill) as [trees Htrees].
    destruct (filter (is_start_node g words) chart) as [| s l] eqn:E.
    + simpl. split; [discriminate | intros [ts [H _]]; discriminate].
    + rewrite Htrees. simpl. split; [intros _ | reflexivity].
      exists (set_of trees). split; [reflexivity |].
      apply set_of_nonempty. intros ->.
      apply mapM_length in Htrees. discriminate Htrees.
  - unfold _recognize, _parse.
    destruct (_fill_chart fuel g words) as [chart | e |] eqn:Hfill; simpl;
      try (split; discriminate).
    pose proof (start_nodes_parsed fuel g words chart Hfill) as [trees Htrees].
    destruct (filter (is_start_node g words) chart) as [| s l] eqn:E.
    + simpl. split; reflexivity.
    + rewrite Htrees. simpl. split; discriminate.
  - intros chart Hfill Hnone. unfold _recognize, _parse. rewrite Hfill.
    cbn [bind].
    destruct (filter (is_start_node g words) chart) as [| s l] eqn:E;
      [simpl; auto |].
    exfalso.
    assert (H : In s (filter (is_start_node g words) chart))
      by (rewrite E; left; reflexivity).
    apply filter_In in H. destruct H as [Hin H].
    apply (Hnone s Hin). apply is_start_node_spec. exact H.
  - intros Hnone.
    pose proof (unseeded_fill_chart fuel g words Hnone) as Hfill.
    unfold _recognize, _parse. rewrite Hfill. simpl.
    split; [intros chart; discriminate |].
    split; [reflexivity |]. split; [reflexivity |].
    split; discriminate.
Qed.

Lemma recognize_parse_consistent_witness :
  (exists trees, _parse 3 small_grammar ["a"; "b"] = Ok (Some trees) /\
                 trees <> []) /\
  (_recognize 2 small_grammar ["a"; "a"] = Ok false /\
   _parse 2 small_grammar ["a"; "a"] = Ok None) /\
  (_recognize 5 small_grammar [] = Raise UnboundLocalError /\
   _parse 5 small_grammar [] = Raise UnboundLocalError) /\
  (_recognize 5 small_grammar ["c"] = Raise UnboundLocalError /\
   _parse 5 small_grammar ["c"] = Raise UnboundLocalError).
Proof.
  split; [| split; [| split]].
  - exact (proj1 (proj1 (recognize_parse_consistent 3 small_grammar ["a"; "b"]))
             eq_refl).
  - refine (proj1 (proj2 (proj2 (recognize_parse_consistent 2 small_grammar
                                   ["a"; "a"])))
              [mkEntry (mkInstance "A" [(0, 1)%Z]) 0 [[None; None]];
               mkEntry (mkInstance "A" [(1, 2)%Z]) 1 [[None; None]]]
              eq_refl _).
    intros entry [<- | [<- | []]] [H _]; simpl in H;
      destruct H as [H | []]; discriminate H.
  - destruct (proj2 (proj2 (proj2 (recognize_parse_consistent 5 small_grammar
                                     [])))
                (fun word (H : In word []) => match H with end))
      as [_ [Hr [Hp _]]].
    exact (conj Hr Hp).
  - destruct (proj2 (proj2 (proj2 (recognize_parse_consistent 5 small_grammar
                                     ["c"]))))
      as [_ [Hr [Hp _]]].
    + intros word [<- | []]. reflexivity.
    + exact (conj Hr Hp).
Defined.

(** C5: what the code does.  When no word has a lexical rule -- and so for
    the empty token sequence -- nothing is seeded, no loop binds [n], and
    [next_id = n+1] raises [UnboundLocalError] in [_fill_chart]: the
    recogniser and the parser raise it too, they return nothing. *)
Theorem nothing_seeded_raises (fuel : nat) (g : MultipleContextFreeGrammar)
    (words : list string) :
  (forall word, In word words -> parts_of_speech g word = Ok []) ->
  _fill_chart fuel g words = Raise UnboundLocalError /\
  _recognize fuel g words = Raise UnboundLocalError /\
  _parse fuel g words = Raise UnboundLocalError.
Proof.
  intros Hnone.
  assert (Hseed : forall idx, seed g idx words = Ok []).
  { induction words as [| word words IH]; intros idx; [reflexivity |].
    simpl. rewrite (Hnone word (or_introl eq_refl)). simpl.
    rewrite IH; [reflexivity |]. intros w Hw. apply Hnone. right. exact Hw. }
  assert (Hfill : _fill_chart fuel g words = Raise UnboundLocalError).
  { unfold _fill_chart, init_state. rewrite Hseed. reflexivity. }
  unfold _recognize, _parse. rewrite Hfill. auto.
Qed.

Lemma nothing_seeded_raises_witness :
  (_recognize 5 small_grammar [] = Raise UnboundLocalError /\
   _parse 5 small_grammar [] = Raise UnboundLocalError) /\
  (_recognize 5 small_grammar ["c"] = Raise UnboundLocalError /\
   _parse 5 small_grammar ["c"] = Raise UnboundLocalError).
Proof.
  split.
  - exact (proj2 (nothing_seeded_raises 5 small_grammar []
                    (fun word (H : In word []) => match H with end))).
  - refine (proj2 (nothing_seeded_raises 5 small_grammar ["c"] _)).
    intros word [<- | []]. reflexivity.
Defined.

(** ** The tests of the repository *)

(** [test_fill_chart] of [tests/parser_test.py]: the chart of
    [the human saw the greyhound]. *)
Example test_fill_chart :
  (g <- test_grammar ;;
   c <- _fill_chart 19 g ["the"; "human"; "saw"; "the"; "greyhound"] ;;
   Ok (map entry_repr c)) =
  Ok [(0, "D", [(0, 1)%Z], [[None; None]]);
      (1, "N", [(1, 2)%Z], [[None; None]]);
      (2, "N", [(2, 3)%Z], [[None; None]]);
      (3, "Vpres", [(2, 3)%Z], [[None; None]]);
      (4, "D", [(3, 4)%Z], [[None; None]]);
      (5, "N", [(4, 5)%Z], [[None; None]]);
      (6, "NP", [(0, 2)%Z], [[Some (0, "D"); Some (1, "N")]]);
      (7, "VPrc", [(1, 2)%Z; (2, 3)%Z], [[Some (1, "N"); Some (3, "Vpres")]]);
      (8, "VPrc", [(2, 3)%Z; (2, 3)%Z], [[Some (2, "N"); Some (3, "Vpres")]]);
      (9, "VPrc", [(4, 5)%Z; (2, 3)%Z], [[Some (5, "N"); Some (3, "Vpres")]]);
      (10, "NP", [(3, 5)%Z], [[Some (4, "D"); Some (5, "N")]]);
      (11, "Src", [(1, 2)%Z; (0, 3)%Z], [[Some (6, "NP"); Some (7, "VPrc")]]);
      (12, "Src", [(2, 3)%Z; (0, 3)%Z], [[Some (6, "NP"); Some (8, "VPrc")]]);
      (13, "Src", [(4, 5)%Z; (0, 3)%Z], [[Some (6, "NP"); Some (9, "VPrc")]]);
      (14, "VP", [(2, 5)%Z], [[Some (3, "Vpres"); Some (10, "NP")]]);
      (15, "Src", [(1, 2)%Z; (2, 5)%Z], [[Some (1, "N"); Some (14, "VP")]]);
      (16, "Src", [(2, 3)%Z; (2, 5)%Z], [[Some (2, "N"); Some (14, "VP")]]);
      (17, "Src", [(4, 5)%Z; (2, 5)%Z], [[Some (5, "N"); Some (14, "VP")]]);
      (18, "S", [(0, 5)%Z], [[Some (6, "NP"); Some (14, "VP")]])].
Proof. vm_compute. reflexivity. Qed.

(** [test_recoginze]: the five sentences of the grammar and the three that
    are not. *)
Example test_recoginze :
  map (test_recognize 107)
    [["the"; "human"; "saw"; "the"; "greyhound"];
     ["the"; "human"; "believes"; "that"; "the"; "greyhound"; "saw"; "a";
      "salmon"];
     ["which"; "human"; "that"; "saw"; "a"; "salmon"; "believes"; "the";
      "greyhound"];
     ["the"; "human"; "that"; "believes"; "the"; "salmon"; "that";
      "believes"; "a"; "human"; "saw"; "the"; "greyhound"];
     ["the"; "human"; "saw"; "the"; "greyhound"; "with"; "a"; "salmon"];
     ["the"; "human"; "saw"; "greyhound"];
     ["the"; "human"; "believe"; "that"; "the"; "greyhound"; "saw"; "a";
      "salmon"];
     ["who"; "saw"; "a"; "salmon"]]
  = [Ok true; Ok true; Ok true; Ok true; Ok true;
     Ok false; Ok false; Ok false].
Proof. vm_compute. reflexivity. Qed.

(** [test_construct_parses]: the tree of [the human saw the greyhound]. *)
Example test_construct_parses :
  test_parse 19 ["the"; "human"; "saw"; "the"; "greyhound"] =
  Ok (Some
        [Node "S"
           [Node "NP" [Node "D(the)" []; Node "N(human)" []];
            Node "VP"
              [Node "Vpres(saw)" [];
               Node "NP" [Node "D(the)" []; Node "N(greyhound)" []]]]]).
Proof. vm_compute. reflexivity. Qed.

(** ** Strings *)

Lemma append_assoc (a b c : string) : (a ++ b) ++ c = a ++ (b ++ c).
Proof.
  induction a as [| x a IH]; simpl; [reflexivity | rewrite IH; reflexivity].
Qed.

Lemma append_nil_r (a : string) : a ++ "" = a.
Proof.
  induction a as [| x a IH]; simpl; [reflexivity | rewrite IH; reflexivity].
Qed.

Lemma length_append (a b : string) :
  String.length (a ++ b) = String.length a + String.length b.
Proof.
  induction a as [| x a IH]; simpl; [reflexivity | rewrite IH; reflexivity].
Qed.

Lemma all_chars_append (p : ascii -> bool) (a b : string) :
  all_chars p (a ++ b) = all_chars p a && all_chars p b.
Proof.
  induction a as [| x a IH]; simpl; [reflexivity |].
  rewrite IH, andb_assoc. reflexivity.
Qed.

(** The first character outside a class ends the prefix inside it. *)
Lemma first_outside (p : ascii -> bool) (a a' : string) (c c' : ascii)
    (x x' : string) :
  all_chars p a = true -> all_chars p a' = true ->
  p c = false -> p c' = false ->
  a ++ String c x = a' ++ String c' x' ->
  a = a' /\ c = c' /\ x = x'.
Proof.
  revert a'; induction a as [| y a IH]; intros [| y' a'] Ha Ha' Hc Hc' H;
    simpl in *.
  - inversion H. auto.
  - inversion H; subst. apply andb_true_iff in Ha'. destruct Ha' as [Hy _].
    rewrite Hy in Hc. discriminate.
  - inversion H; subst. apply andb_true_iff in Ha. destruct Ha as [Hy _].
    rewrite Hy in Hc'. discriminate.
  - inversion H; subst.
    apply andb_true_iff in Ha. apply andb_true_iff in Ha'.
    destruct (IH a' (proj2 Ha) (proj2 Ha') Hc Hc' H2) as [-> [-> ->]]. auto.
Qed.

Lemma consumed_append (pre rest : string) : consumed (pre ++ rest) rest = pre.
Proof.
  unfold consumed. rewrite length_append.
  replace (String.length pre + String.length rest - String.length rest)
    with (String.length pre) by lia.
  induction pre as [| x pre IH]; simpl.
  - destruct rest; reflexivity.
  - rewrite IH. reflexivity.
Qed.

Lemma shorter_append (pre rest : string) (c c' : captures) :
  pre <> "" -> shorter (rest, c) (pre ++ rest, c') = true.
Proof.
  intros H. unfold shorter. simpl. rewrite length_append.
  apply Nat.ltb_lt. destruct pre; [contradiction | simpl; lia].
Qed.

(** ** The matcher: what a match has consumed *)

Lemma greedy_chars (p : ascii -> bool) (fuel : nat) :
  forall s c st,
    In st (greedy (pm (Chr p)) fuel (s, c)) ->
    exists pre, pre <> "" /\ all_chars p pre = true /\
                s = pre ++ fst st /\ snd st = c.
Proof.
  induction fuel as [| fuel IH]; intros s c st H; [destruct H |].
  simpl in H. destruct s as [| x s]; [destruct H |].
  destruct (p x) eqn:Hx; [| destruct H]. simpl in H.
  rewrite app_nil_r in H. apply in_app_or in H. destruct H as [H | [<- | []]].
  - destruct (shorter (s, c) (String x s, c)); [| destruct H].
    destruct (IH s c st H) as [pre [_ [Hp [Hs Hc]]]].
    exists (String x pre). simpl. rewrite Hx, Hp, <- Hs.
    repeat split; [discriminate | exact Hc].
  - exists (String x ""). simpl. rewrite Hx.
    repeat split. discriminate.
Qed.

Lemma word_chars_sound (s : string) (c : captures) (st : mstate) :
  In st (pm word_chars (s, c)) ->
  exists w, word w /\ s = w ++ fst st /\ snd st = c.
Proof.
  intros H. apply greedy_chars in H.
  destruct H as [pre [Hne [Hp [Hs Hc]]]]. exists pre. repeat split; assumption.
Qed.

Lemma opt_char_sound (x : ascii) (st st' : mstate) :
  In st' (pm (Opt (lit_char x)) st) ->
  snd st' = snd st /\
  (fst st = fst st' \/ fst st = String x (fst st')).
Proof.
  simpl. intros H. apply in_app_or in H. destruct H as [H | [<- | []]].
  - destruct st as [[| y s] c]; simpl in H; [destruct H |].
    destruct (Ascii.eqb_spec x y) as [-> | _]; [| destruct H].
    destruct H as [<- | []]. simpl. auto.
  - auto.
Qed.

Lemma vars_round_sound (s : string) (c : captures) (st : mstate) :
  In st (pm vars_round (s, c)) ->
  exists b, block b /\ s = b ++ fst st /\ snd st = c.
Proof.
  unfold vars_round. intros H.
  change (In st (flat_map (pm (Seq (Opt (lit_char ",")) (Opt (lit_char " "))))
                          (pm word_chars (s, c)))) in H.
  apply in_flat_map in H. destruct H as [st1 [H1 H]].
  change (In st (flat_map (pm (Opt (lit_char " ")))
                          (pm (Opt (lit_char ",")) st1))) in H.
  apply in_flat_map in H. destruct H as [st2 [H2 H3]].
  apply word_chars_sound in H1. destruct H1 as [w [Hw [Hs Hc1]]].
  apply opt_char_sound in H2. destruct H2 as [Hc2 Hs2].
  apply opt_char_sound in H3. destruct H3 as [Hc3 Hs3].
  assert (Hsep : exists sep, In sep [""; ","; " "; ", "] /\
                             fst st1 = sep ++ fst st).
  { destruct Hs2 as [-> | ->]; destruct Hs3 as [-> | ->].
    - exists "". simpl. auto.
    - exists " ". simpl. auto.
    - exists ",". simpl. auto.
    - exists ", ". simpl. auto 6. }
  destruct Hsep as [sep [Hsep Hs1]].
  exists (w ++ sep). split; [constructor; assumption |].
  split; [rewrite append_assoc, <- Hs1; exact Hs | congruence].
Qed.

Lemma lazy_rounds_sound (fuel : nat) :
  forall s c st,
    In st (lazy (pm vars_round) fuel (s, c)) ->
    exists bs, blocks bs /\ s = bs ++ fst st /\ snd st = c.
Proof.
  induction fuel as [| fuel IH]; intros s c st H; [destruct H |].
  simpl in H. apply in_flat_map in H. destruct H as [[s1 c1] [H1 H]].
  apply vars_round_sound in H1. destruct H1 as [b [Hb [Hs Hc]]].
  simpl in Hs, Hc. subst c1. destruct H as [<- | H].
  - exists b. split; [constructor; exact Hb | auto].
  - destruct (shorter (s1, c) (s, c)); [| destruct H].
    destruct (IH s1 c st H) as [bs [Hbs [Hs1 Hc1]]].
    exists (b ++ bs). split; [apply blocks_more; assumption |].
    split; [rewrite append_assoc, <- Hs1; exact Hs | exact Hc1].
Qed.

(** A match of the element pattern: a name, the parenthesis, rounds of
    variables, the parenthesis; the two groups are the name and the
    variables. *)
Lemma elem_pattern_sound (s : string) (st : mstate) :
  In st (pm elem_pattern (s, [])) ->
  exists name body,
    word name /\ blocks body /\
    s = name ++ "(" ++ body ++ ")" ++ fst st /\
    snd st = [(2, body); (1, name)].
Proof.
  unfold elem_pattern. intros H.
  change (In st
            (flat_map
               (pm (Seq (lit_char "(")
                        (Seq (Group 2 (PlusLazy vars_round)) (lit_char ")"))))
               (map (fun st' => (fst st', (1, consumed s (fst st')) :: snd st'))
                    (pm word_chars (s, []))))) in H.
  apply in_flat_map in H. destruct H as [st1 [H1 H]].
  apply in_map_iff in H1. destruct H1 as [[s0 c0] [<- H0]].
  apply word_chars_sound in H0. destruct H0 as [name [Hname [Hs Hc0]]].
  simpl in Hs, Hc0. subst c0. simpl fst in H. simpl snd in H.
  rewrite Hs, consumed_append in H.
  change (In st
            (flat_map
               (pm (Seq (Group 2 (PlusLazy vars_round)) (lit_char ")")))
               (pm (lit_char "(") (s0, [(1, name)])))) in H.
  apply in_flat_map in H. destruct H as [st2 [H2 H]].
  destruct s0 as [| x s2]; [destruct H2 |].
  change (In st2 (if Ascii.eqb "(" x then [(s2, [(1, name)])] else [])) in H2.
  destruct (Ascii.eqb_spec "(" x) as [<- | _]; [| destruct H2].
  destruct H2 as [<- | []].
  change (In st
            (flat_map (pm (lit_char ")"))
               (map (fun st' => (fst st', (2, consumed s2 (fst st')) :: snd st'))
                    (lazy (pm vars_round) (S (String.length s2))
                          (s2, [(1, name)]))))) in H.
  apply in_flat_map in H. destruct H as [st3 [H3 H]].
  apply in_map_iff in H3. destruct H3 as [[s4 c4] [<- H4]].
  apply lazy_rounds_sound in H4. destruct H4 as [body [Hbody [Hs2 Hc4]]].
  simpl in Hs2, Hc4. subst c4. simpl fst in H. simpl snd in H.
  rewrite Hs2, consumed_append in H.
  destruct s4 as [| y s4]; [destruct H |].
  change (In st (if Ascii.eqb ")" y
                 then [(s4, [(2, body); (1, name)])] else [])) in H.
  destruct (Ascii.eqb_spec ")" y) as [<- | _]; [| destruct H].
  destruct H as [<- | []]. simpl.
  exists name, body.
  split; [exact Hname | split; [exact Hbody | split; [| reflexivity]]].
  rewrite Hs, Hs2. reflexivity.
Qed.

(** ** The matcher: what it does match *)

Lemma greedy_char (p : ascii -> bool) (fuel : nat) (x : ascii) (s : string)
    (c : captures) :
  p x = true ->
  greedy (pm (Chr p)) (S fuel) (String x s, c) =
  (greedy (pm (Chr p)) fuel (s, c) ++ [(s, c)])%list.
Proof.
  intros Hx. simpl. rewrite Hx. simpl. rewrite app_nil_r.
  unfold shorter. simpl.
  destruct (Nat.ltb_spec (String.length s) (S (String.length s)));
    [reflexivity | lia].
Qed.

Lemma greedy_complete (p : ascii -> bool) (pre : string) :
  forall rest c fuel,
    pre <> "" -> all_chars p pre = true ->
    String.length (pre ++ rest) < fuel ->
    In (rest, c) (greedy (pm (Chr p)) fuel (pre ++ rest, c)).
Proof.
  induction pre as [| x pre IH]; intros rest c fuel Hne Hp Hfuel;
    [contradiction |].
  destruct fuel as [| fuel]; [lia |].
  simpl in Hp. apply andb_true_iff in Hp. destruct Hp as [Hx Hp].
  change (String x pre ++ rest) with (String x (pre ++ rest)).
  rewrite (greedy_char p fuel x (pre ++ rest) c Hx). apply in_or_app.
  destruct pre as [| y pre].
  - right. left. reflexivity.
  - left. apply IH; [discriminate | exact Hp | simpl in *; lia].
Qed.

Lemma word_chars_complete (w rest : string) (c : captures) :
  word w -> In (rest, c) (pm word_chars (w ++ rest, c)).
Proof.
  intros [Hne Hw]. apply greedy_complete; simpl; auto.
Qed.

Lemma opt_skip (a : regex) (st : mstate) : In st (pm (Opt a) st).
Proof.
  simpl. apply in_or_app. right. left. reflexivity.
Qed.

Lemma opt_take (x : ascii) (s : string) (c : captures) :
  In (s, c) (pm (Opt (lit_char x)) (String x s, c)).
Proof.
  change (In (s, c) ((if Ascii.eqb x x then [(s, c)] else []) ++
                     [(String x s, c)])%list).
  rewrite Ascii.eqb_refl. left. reflexivity.
Qed.

Lemma vars_round_complete (b rest : string) (c : captures) :
  block b -> In (rest, c) (pm vars_round (b ++ rest, c)).
Proof.
  intros [w sep Hw Hsep]. rewrite append_assoc.
  change (In (rest, c)
            (flat_map (pm (Seq (Opt (lit_char ",")) (Opt (lit_char " "))))
                      (pm word_chars (w ++ sep ++ rest, c)))).
  apply in_flat_map. exists (sep ++ rest, c).
  split; [apply word_chars_complete; exact Hw |].
  change (In (rest, c)
            (flat_map (pm (Opt (lit_char " ")))
                      (pm (Opt (lit_char ",")) (sep ++ rest, c)))).
  apply in_flat_map.
  destruct Hsep as [<- | [<- | [<- | [<- | []]]]].
  - exists (rest, c). split; apply opt_skip.
  - exists (rest, c). split; [apply opt_take | apply opt_skip].
  - exists (String " " rest, c). split; [apply opt_skip | apply opt_take].
  - exists (String " " rest, c). split; apply opt_take.
Qed.

Lemma word_nonempty_append (w x : string) : word w -> w ++ x <> "".
Proof.
  intros [Hne _]. destruct w; [contradiction | discriminate].
Qed.

Lemma block_nonempty (b : string) : block b -> b <> "".
Proof.
  intros [w sep Hw _]. apply word_nonempty_append. exact Hw.
Qed.

Lemma lazy_rounds_complete (bs : string) :
  blocks bs ->
  forall fuel rest c,
    String.length (bs ++ rest) < fuel ->
    In (rest, c) (lazy (pm vars_round) fuel (bs ++ rest, c)).
Proof.
  induction 1 as [b Hb | b bs Hb Hbs IH]; intros fuel rest c Hfuel;
    (destruct fuel as [| fuel]; [lia |]); simpl; apply in_flat_map.
  - exists (rest, c). split; [apply vars_round_complete; exact Hb |].
    left. reflexivity.
  - exists (bs ++ rest, c). split.
    + rewrite append_assoc. apply vars_round_complete. exact Hb.
    + right. rewrite append_assoc.
      rewrite (shorter_append b (bs ++ rest) c c (block_nonempty b Hb)).
      apply IH. rewrite append_assoc, length_append in Hfuel.
      pose proof (block_nonempty b Hb). destruct b; [contradiction |].
      simpl in Hfuel. lia.
Qed.

Lemma elem_pattern_complete (name body rest : string) :
  word name -> blocks body ->
  In (rest, [(2, body); (1, name)])
     (pm elem_pattern (name ++ "(" ++ body ++ ")" ++ rest, [])).
Proof.
  intros Hname Hbody.
  change (In (rest, [(2, body); (1, name)])
            (flat_map
               (pm (Seq (lit_char "(")
                        (Seq (Group 2 (PlusLazy vars_round)) (lit_char ")"))))
               (map (fun st' =>
                       (fst st',
                        (1, consumed (name ++ "(" ++ body ++ ")" ++ rest)
                                     (fst st')) :: snd st'))
                    (pm word_chars
                        (name ++ "(" ++ body ++ ")" ++ rest, []))))).
  apply in_flat_map.
  exists ("(" ++ body ++ ")" ++ rest, [(1, name)]). split.
  - apply in_map_iff. exists ("(" ++ body ++ ")" ++ rest, []). split.
    + simpl fst. simpl snd. rewrite consumed_append. reflexivity.
    + apply word_chars_complete. exact Hname.
  - change (In (rest, [(2, body); (1, name)])
              (flat_map
                 (pm (Seq (Group 2 (PlusLazy vars_round)) (lit_char ")")))
                 (pm (lit_char "(")
                     ("(" ++ body ++ ")" ++ rest, [(1, name)])))).
    apply in_flat_map. exists (body ++ ")" ++ rest, [(1, name)]).
    split; [left; reflexivity |].
    change (In (rest, [(2, body); (1, name)])
              (flat_map (pm (lit_char ")"))
                 (map (fun st' =>
                         (fst st',
                          (2, consumed (body ++ ")" ++ rest) (fst st'))
                            :: snd st'))
                      (lazy (pm vars_round)
                            (S (String.length (body ++ ")" ++ rest)))
                            (body ++ ")" ++ rest, [(1, name)]))))).
    apply in_flat_map. exists (")" ++ rest, [(2, body); (1, name)]). split.
    + apply in_map_iff. exists (")" ++ rest, [(1, name)]). split.
      * simpl fst. simpl snd. rewrite consumed_append. reflexivity.
      * apply lazy_rounds_complete; [exact Hbody | lia].
    + left. reflexivity.
Qed.

Lemma is_word_vars_char (s : string) :
  all_chars is_word s = true -> all_chars is_vars_char s = true.
Proof.
  induction s as [| x s IH]; simpl; [reflexivity |]. intros H.
  apply andb_true_iff in H. destruct H as [Hx Hs].
  unfold is_vars_char at 1. rewrite Hx, (IH Hs). reflexivity.
Qed.

Lemma block_chars (b : string) : block b -> all_chars is_vars_char b = true.
Proof.
  intros [w sep [_ Hw] Hsep]. rewrite all_chars_append.
  rewrite (is_word_vars_char w Hw).
  destruct Hsep as [<- | [<- | [<- | [<- | []]]]]; reflexivity.
Qed.

Lemma blocks_chars (bs : string) :
  blocks bs -> all_chars is_vars_char bs = true.
Proof.
  induction 1 as [b Hb | b bs Hb _ IH].
  - apply block_chars, Hb.
  - rewrite all_chars_append, (block_chars b Hb), IH. reflexivity.
Qed.

(** The element pattern matches the text of an element in one way. *)
Lemma elem_pattern_first (name body rest : string) :
  word name -> blocks body ->
  exists sts,
    pm elem_pattern (name ++ "(" ++ body ++ ")" ++ rest, []) =
    (rest, [(2, body); (1, name)]) :: sts.
Proof.
  intros Hname Hbody.
  pose proof (elem_pattern_complete name body rest Hname Hbody) as Hin.
  destruct (pm elem_pattern (name ++ "(" ++ body ++ ")" ++ rest, []))
    as [| st sts] eqn:E; [destruct Hin |].
  exists sts. f_equal.
  assert (Hst : In st (pm elem_pattern
                         (name ++ "(" ++ body ++ ")" ++ rest, [])))
    by (rewrite E; left; reflexivity).
  apply elem_pattern_sound in Hst.
  destruct Hst as [name' [body' [[_ Hn'] [Hb' [Hs Hc]]]]].
  destruct Hname as [_ Hn].
  destruct (first_outside is_word name name' "(" "("
              (body ++ ")" ++ rest) (body' ++ ")" ++ fst st)
              Hn Hn' eq_refl eq_refl Hs) as [<- [_ Hs']].
  destruct (first_outside is_vars_char body body' ")" ")" rest (fst st)
              (blocks_chars body Hbody) (blocks_chars body' Hb')
              eq_refl eq_refl Hs') as [<- [_ Hrest]].
  destruct st as [s c]. simpl in Hrest, Hc. subst s c. reflexivity.
Qed.

(** ** The scan of [findall] *)

Lemma scan_zero (r : regex) (s : string) :
  scan r s 0 =
  let next (k : nat) : list captures :=
    match s with
    | String _ s' => scan r s' k
    | EmptyString => []
    end in
  let len (st : mstate) : nat := String.length s - String.length (fst st) in
  match pm r (s, []) with
  | [] => next 0
  | st1 :: sts =>
      if shorter st1 (s, [])
      then snd st1 :: next (len st1 - 1)
      else
        snd st1 ::
        match find (fun st2 => shorter st2 (s, [])) sts with
        | Some st2 => snd st2 :: next (len st2 - 1)
        | None => next 0
        end
  end.
Proof.
  destruct s; reflexivity.
Qed.

Lemma scan_skip (r : regex) (pre tail : string) :
  scan r (pre ++ tail) (String.length pre) = scan r tail 0.
Proof.
  induction pre as [| x pre IH]; [reflexivity | exact IH].
Qed.

(** A match that is not empty is reported and the scan goes on after it. *)
Lemma scan_match (r : regex) (pre tail : string) (c : captures)
    (sts : list mstate) :
  pre <> "" ->
  pm r (pre ++ tail, []) = (tail, c) :: sts ->
  scan r (pre ++ tail) 0 = c :: scan r tail 0.
Proof.
  intros Hne Hpm. rewrite scan_zero, Hpm. cbv zeta.
  unfold shorter. simpl fst. simpl snd.
  destruct pre as [| x pre]; [contradiction |].
  destruct (Nat.ltb_spec (String.length tail)
              (String.length (String x pre ++ tail))) as [_ | Hge];
    [| simpl in Hge; rewrite length_append in Hge; lia].
  f_equal.
  change (scan r (pre ++ tail)
            (String.length (String x pre ++ tail) - String.length tail - 1) =
          scan r tail 0).
  rewrite length_append.
  replace (String.length (String x pre) + String.length tail
           - String.length tail - 1)
    with (String.length pre)
    by (change (String.length (String x pre)) with (S (String.length pre));
        lia).
  apply scan_skip.
Qed.

Lemma scan_fail (r : regex) (x : ascii) (s : string) :
  pm r (String x s, []) = [] -> scan r (String x s) 0 = scan r s 0.
Proof.
  intros H. rewrite scan_zero, H. reflexivity.
Qed.

Lemma elem_pattern_fail (x : ascii) (s : string) :
  is_word x = false -> pm elem_pattern (String x s, []) = [].
Proof.
  intros H. unfold elem_pattern, word_chars.
  change (flat_map
            (pm (Seq (lit_char "(")
                     (Seq (Group 2 (PlusLazy vars_round)) (lit_char ")"))))
            (map (fun st' =>
                    (fst st', (1, consumed (String x s) (fst st')) :: snd st'))
                 (flat_map
                    (fun st' =>
                       ((if shorter st' (String x s, [])
                         then greedy (pm (Chr is_word))
                                (String.length (String x s)) st'
                         else []) ++ [st'])%list)
                    (if is_word x then [(s, [])] else []))) = []).
  rewrite H. reflexivity.
Qed.

Lemma elem_pattern_end : scan elem_pattern "" 0 = [].
Proof. reflexivity. Qed.

(** Every match that the scan reports is a match of the pattern at some
    place of the text. *)
Lemma scan_sound (r : regex) (s : string) :
  forall k c, In c (scan r s k) ->
    exists s1 st, In st (pm r (s1, [])) /\ c = snd st.
Proof.
  induction s as [| x s IH]; intros k c H.
  - destruct k as [| k]; [| destruct H].
    rewrite scan_zero in H. cbv zeta in H.
    destruct (pm r ("", [])) as [| st1 sts] eqn:E; [destruct H |].
    assert (H1 : In st1 (pm r ("", []))) by (rewrite E; left; reflexivity).
    destruct (shorter st1 ("", [])).
    + destruct H as [<- | []]. exists "", st1. auto.
    + destruct H as [<- | H]; [exists "", st1; auto |].
      destruct (find (fun st2 => shorter st2 ("", [])) sts) as [st2 |] eqn:F;
        [| destruct H].
      destruct H as [<- | []]. apply find_some in F.
      exists "", st2. split; [rewrite E; right; apply F | reflexivity].
  - destruct k as [| k]; [| exact (IH k c H)].
    rewrite scan_zero in H. cbv zeta in H.
    destruct (pm r (String x s, [])) as [| st1 sts] eqn:E;
      [exact (IH 0 c H) |].
    assert (H1 : In st1 (pm r (String x s, [])))
      by (rewrite E; left; reflexivity).
    destruct (shorter st1 (String x s, [])).
    + destruct H as [<- | H]; [exists (String x s), st1; auto |].
      exact (IH _ c H).
    + destruct H as [<- | H]; [exists (String x s), st1; auto |].
      destruct (find (fun st2 => shorter st2 (String x s, [])) sts)
        as [st2 |] eqn:F; [| exact (IH 0 c H)].
      destruct H as [<- | H]; [| exact (IH _ c H)].
      apply find_some in F.
      exists (String x s), st2. split; [rewrite E; right; apply F | reflexivity].
Qed.

(** The elements that [from_string] reads: a name and rounds of
    variables. *)
Lemma findall_elem_sound (text name body : string) :
  In (name, body) (findall2 elem_pattern text) ->
  word name /\ blocks body.
Proof.
  unfold findall2. intros H. apply in_map_iff in H.
  destruct H as [c [Hc H]]. apply scan_sound in H.
  destruct H as [s1 [st [Hst ->]]]. apply elem_pattern_sound in Hst.
  destruct Hst as [name' [body' [Hn [Hb [_ Hcap]]]]].
  rewrite Hcap in Hc. simpl in Hc. inversion Hc; subst. auto.
Qed.

(** ** The text of a rule, scanned *)

Lemma str_element_eq (el : MCFGRuleElement) :
  str_element el = variable el ++ "(" ++ str_components el ++ ")".
Proof. reflexivity. Qed.

Lemma scan_elem (el : MCFGRuleElement) (tail : string) :
  word (variable el) -> blocks (str_components el) ->
  scan elem_pattern (str_element el ++ tail) 0 =
  [(2, str_components el); (1, variable el)] :: scan elem_pattern tail 0.
Proof.
  intros Hname Hbody.
  destruct (elem_pattern_first (variable el) (str_components el) tail
              Hname Hbody) as [sts Hpm].
  apply (scan_match elem_pattern (str_element el) tail
           [(2, str_components el); (1, variable el)] sts).
  - rewrite str_element_eq. apply word_nonempty_append. exact Hname.
  - etransitivity; [| exact Hpm]. f_equal. f_equal. rewrite str_element_eq.
    rewrite append_assoc. f_equal. simpl. f_equal. apply append_assoc.
Qed.

Lemma scan_elems (els : list MCFGRuleElement) :
  Forall (fun el => word (variable el) /\ blocks (str_components el)) els ->
  scan elem_pattern (String.concat " " (map str_element els)) 0 =
  map (fun el => [(2, str_components el); (1, variable el)]) els.
Proof.
  induction 1 as [| el els [Hname Hbody] Hels IH]; [reflexivity |].
  destruct els as [| el' els'].
  - simpl. rewrite <- (append_nil_r (str_element el)).
    rewrite (scan_elem el "" Hname Hbody). reflexivity.
  - change (String.concat " " (map str_element (el :: el' :: els')))
      with (str_element el ++
            String " " (String.concat " " (map str_element (el' :: els')))).
    rewrite (scan_elem el _ Hname Hbody).
    rewrite scan_fail by (apply elem_pattern_fail; reflexivity).
    rewrite IH. reflexivity.
Qed.

Lemma findall_str_rule (r : MCFGRule) :
  right_side r <> [] ->
  Forall (fun el => word (variable el) /\ blocks (str_components el))
         (left_side r :: right_side r) ->
  findall2 elem_pattern (str_rule r) =
  map (fun el => (variable el, str_components el))
      (left_side r :: right_side r).
Proof.
  intros Hne Hall. inversion Hall as [| ? ? [Hname Hbody] Hright]; subst.
  unfold findall2, str_rule, is_epsilon.
  destruct (right_side r) as [| el els] eqn:E; [contradiction |].
  rewrite (scan_elem (left_side r) _ Hname Hbody).
  change (" -> " ++ String.concat " " (map str_element (el :: els)))
    with (String " " (String "-" (String ">" (String " "
            (String.concat " " (map str_element (el :: els))))))).
  do 4 (rewrite scan_fail by (apply elem_pattern_fail; reflexivity)).
  rewrite (scan_elems (el :: els) Hright).
  simpl. f_equal. rewrite map_map. reflexivity.
Qed.

Lemma findall_str_element (el : MCFGRuleElement) :
  word (variable el) -> blocks (str_components el) ->
  findall2 elem_pattern (str_element el) =
  [(variable el, str_components el)].
Proof.
  intros Hname Hbody. unfold findall2.
  rewrite <- (append_nil_r (str_element el)).
  rewrite (scan_elem el "" Hname Hbody). reflexivity.
Qed.

(** ** [split] and [strip] *)

Lemma is_word_no_comma (c : ascii) : is_word c = true -> no_comma c = true.
Proof.
  destruct c as [[] [] [] [] [] [] [] []]; intros H;
    try reflexivity; discriminate H.
Qed.

Lemma is_word_no_space (c : ascii) : is_word c = true -> no_space c = true.
Proof.
  destruct c as [[] [] [] [] [] [] [] []]; intros H;
    try reflexivity; discriminate H.
Qed.

Lemma all_chars_impl (p q : ascii -> bool) (s : string) :
  (forall c, p c = true -> q c = true) ->
  all_chars p s = true -> all_chars q s = true.
Proof.
  intros Hpq. induction s as [| x s IH]; simpl; [reflexivity |]. intros H.
  apply andb_true_iff in H. destruct H as [Hx Hs].
  rewrite (Hpq x Hx), (IH Hs). reflexivity.
Qed.

Lemma split_on_no_comma (s : string) :
  all_chars no_comma s = true -> split_on "," s = [s].
Proof.
  induction s as [| x s IH]; simpl; [reflexivity |]. intros H.
  apply andb_true_iff in H. destruct H as [Hx Hs].
  unfold no_comma in Hx. apply negb_true_iff in Hx. rewrite Hx, (IH Hs).
  reflexivity.
Qed.

Lemma split_on_comma (a b : string) :
  all_chars no_comma a = true ->
  split_on "," (a ++ String "," b) = a :: split_on "," b.
Proof.
  induction a as [| x a IH]; simpl; [reflexivity |]. intros H.
  apply andb_true_iff in H. destruct H as [Hx Ha].
  unfold no_comma in Hx. apply negb_true_iff in Hx. rewrite Hx, (IH Ha).
  reflexivity.
Qed.

Lemma rstrip_no_space (s : string) :
  all_chars no_space s = true -> rstrip s = s.
Proof.
  induction s as [| x s IH]; simpl; [reflexivity |]. intros H.
  apply andb_true_iff in H. destruct H as [Hx Hs]. rewrite (IH Hs).
  unfold no_space in Hx. apply negb_true_iff in Hx. rewrite Hx.
  destruct s; reflexivity.
Qed.

Lemma lstrip_no_space (s : string) :
  all_chars no_space s = true -> lstrip s = s.
Proof.
  destruct s as [| x s]; simpl; [reflexivity |]. intros H.
  apply andb_true_iff in H. destruct H as [Hx _].
  unfold no_space in Hx. apply negb_true_iff in Hx. rewrite Hx. reflexivity.
Qed.

Lemma strip_word (pfx w : string) :
  In pfx [""; " "] -> all_chars is_word w = true -> strip (pfx ++ w) = w.
Proof.
  intros Hpfx Hw.
  pose proof (all_chars_impl is_word no_space w is_word_no_space Hw) as Hns.
  unfold strip. destruct Hpfx as [<- | [<- | []]]; simpl.
  - rewrite (lstrip_no_space w Hns). apply rstrip_no_space, Hns.
  - rewrite (lstrip_no_space w Hns). apply rstrip_no_space, Hns.
Qed.

(** The components of an element, printed and read again. *)
Lemma split_strip_components (ws tail : list string) :
  ws <> [] -> Forall word ws -> tail = [] \/ tail = [""] ->
  forall pfx, In pfx [""; " "] ->
    map strip (split_on "," (pfx ++ String.concat ", " (ws ++ tail)))
    = (ws ++ tail)%list.
Proof.
  intros Hne Hall Htail.
  induction Hall as [| c cs [_ Hc] Hcs IH]; intros pfx Hpfx;
    [contradiction |].
  assert (Hnc : all_chars no_comma (pfx ++ c) = true).
  { rewrite all_chars_append.
    rewrite (all_chars_impl is_word no_comma c is_word_no_comma Hc).
    destruct Hpfx as [<- | [<- | []]]; reflexivity. }
  destruct cs as [| c' cs'].
  - destruct Htail as [-> | ->].
    + simpl String.concat. rewrite (split_on_no_comma _ Hnc). simpl.
      rewrite (strip_word pfx c Hpfx Hc). reflexivity.
    + change (String.concat ", " ([c] ++ [""])) with (c ++ String "," " ").
      rewrite <- append_assoc, (split_on_comma _ _ Hnc), map_cons.
      rewrite (strip_word pfx c Hpfx Hc). reflexivity.
  - change (String.concat ", " ((c :: c' :: cs') ++ tail))
      with (c ++ String "," (" " ++ String.concat ", " ((c' :: cs') ++ tail))).
    rewrite <- append_assoc, (split_on_comma _ _ Hnc), map_cons.
    rewrite (strip_word pfx c Hpfx Hc).
    rewrite (IH ltac:(discriminate) " " ltac:(right; left; reflexivity)).
    reflexivity.
Qed.

Lemma blocks_components (ws tail : list string) :
  ws <> [] -> Forall word ws -> tail = [] \/ tail = [""] ->
  blocks (String.concat ", " (ws ++ tail)).
Proof.
  intros Hne Hall Htail.
  induction Hall as [| c cs Hc Hcs IH]; [contradiction |].
  destruct cs as [| c' cs'].
  - destruct Htail as [-> | ->].
    + simpl. rewrite <- (append_nil_r c). constructor.
      constructor; simpl; auto.
    + change (String.concat ", " ([c] ++ [""])) with (c ++ ", ").
      constructor. constructor; simpl; auto.
  - change (String.concat ", " ((c :: c' :: cs') ++ tail))
      with (c ++ ", " ++ String.concat ", " ((c' :: cs') ++ tail)).
    rewrite <- append_assoc. apply blocks_more.
    + constructor; simpl; auto.
    + apply IH. discriminate.
Qed.

(** ** Positions below ten *)

Ltac below_ten i :=
  do 10 (destruct i as [| i]; [first [reflexivity | lia] |]); lia.

Lemma str_strvar_digit (i : nat) :
  i < 10 -> str_strvar (Pos i) = String (digit_char i) "".
Proof. intros H. below_ten i. Qed.

Lemma digit_char_word (i : nat) : i < 10 -> is_word (digit_char i) = true.
Proof. intros H. below_ten i. Qed.

Lemma str_component_digits (ids : list nat) :
  Forall (fun i => i < 10) ids ->
  str_component (map Pos ids) = digit_string ids.
Proof.
  unfold str_component. induction 1 as [| i ids Hi Hids IH]; [reflexivity |].
  destruct ids as [| i' ids'].
  - simpl. apply str_strvar_digit, Hi.
  - change (String.concat "" (map str_strvar (map Pos (i :: i' :: ids'))))
      with (str_strvar (Pos i) ++
            String.concat "" (map str_strvar (map Pos (i' :: ids')))).
    rewrite IH, (str_strvar_digit i Hi). reflexivity.
Qed.

Lemma digit_string_word (ids : list nat) :
  ids <> [] -> Forall (fun i => i < 10) ids -> word (digit_string ids).
Proof.
  intros Hne Hall. split.
  - destruct ids; [contradiction | discriminate].
  - clear Hne. induction Hall as [| i ids Hi _ IH]; [reflexivity |].
    change (is_word (digit_char i) && all_chars is_word (digit_string ids)
            = true).
    rewrite (digit_char_word i Hi). exact IH.
Qed.

Lemma printed_all_distinct (n : nat) :
  n <= 10 -> all_distinct (printed_strvars n) = true.
Proof.
  intros H. do 11 (destruct n as [| n]; [reflexivity |]). lia.
Qed.

Lemma printed_index (n i : nat) :
  n <= 10 -> i < n ->
  index_of (printed_strvars n) (str_strvar (Pos i)) = Ok i.
Proof.
  intros Hn Hi. do 11 (destruct n as [| n]; [below_ten i |]). lia.
Qed.

Lemma printed_alternative (n i : nat) (rest : string) (c : captures) :
  n <= 10 -> i < n ->
  pm (alternatives (printed_strvars n)) (String (digit_char i) rest, c) =
  [(rest, c)].
Proof.
  intros Hn Hi. do 11 (destruct n as [| n]; [below_ten i |]). lia.
Qed.

Lemma printed_alternative_end (n : nat) (c : captures) :
  1 <= n <= 10 -> pm (alternatives (printed_strvars n)) ("", c) = [].
Proof.
  intros H. destruct n as [| n]; [lia |].
  do 10 (destruct n as [| n]; [reflexivity |]). lia.
Qed.

(** The text of a left component, read with the pattern of the printed
    variables: its positions. *)
Lemma findall_digits (n : nat) (ids : list nat) :
  1 <= n <= 10 -> Forall (fun i => i < n) ids ->
  findall1 (strvar_pattern (printed_strvars n)) (digit_string ids) =
  map (fun i => str_strvar (Pos i)) ids.
Proof.
  intros Hn Hall. unfold findall1.
  induction Hall as [| i ids Hi _ IH].
  - simpl digit_string. rewrite scan_zero. cbv zeta.
    change (pm (strvar_pattern (printed_strvars n)) ("", []))
      with (map (fun st' : mstate =>
                   (fst st', (1, consumed "" (fst st')) :: snd st'))
                (pm (alternatives (printed_strvars n)) ("", []))).
    rewrite printed_alternative_end by exact Hn. reflexivity.
  - change (digit_string (i :: ids))
      with (String (digit_char i) "" ++ digit_string ids).
    rewrite (scan_match (strvar_pattern (printed_strvars n))
               (String (digit_char i) "") (digit_string ids)
               [(1, String (digit_char i) "")] []).
    + simpl map. rewrite IH. rewrite (str_strvar_digit i); [reflexivity | lia].
    + discriminate.
    + change (pm (strvar_pattern (printed_strvars n))
                 (String (digit_char i) "" ++ digit_string ids, []))
        with (map (fun st' : mstate =>
                     (fst st',
                      (1, consumed (String (digit_char i) "" ++
                                    digit_string ids) (fst st')) :: snd st'))
                  (pm (alternatives (printed_strvars n))
                      (String (digit_char i) (digit_string ids), []))).
      rewrite printed_alternative by lia. cbn [map fst snd].
      rewrite consumed_append. reflexivity.
Qed.

Lemma index_digits (n : nat) (ids : list nat) :
  n <= 10 -> Forall (fun i => i < n) ids ->
  mapM (fun v => k <- index_of (printed_strvars n) v ;; Ok (Pos k))
       (map (fun i => str_strvar (Pos i)) ids) = Ok (map Pos ids).
Proof.
  intros Hn. induction 1 as [| i ids Hi _ IH]; [reflexivity |].
  simpl. rewrite (printed_index n i Hn Hi). simpl.
  simpl in IH. rewrite IH. reflexivity.
Qed.

Lemma positions_of (n : nat) (vs : StringVariables) :
  Forall (fun v => exists i, v = Pos i /\ i < n) vs ->
  exists ids, vs = map Pos ids /\ Forall (fun i => i < n) ids.
Proof.
  induction 1 as [| v vs [i [-> Hi]] _ [ids [-> Hids]]].
  - exists []. split; [reflexivity | constructor].
  - exists (i :: ids). split; [reflexivity | constructor; assumption].
Qed.

(** ** A printed rule, read again *)

Lemma from_string_tuples (text : string) :
  from_string text = rule_of_tuples (elem_tuples_of text).
Proof. reflexivity. Qed.

Lemma mapM_map_id {A B : Type} (f : B -> result A) (g : A -> B)
    (l : list A) :
  (forall a, In a l -> f (g a) = Ok a) -> mapM f (map g l) = Ok l.
Proof.
  induction l as [| a l IH]; intros H; [reflexivity |].
  simpl. rewrite (H a (or_introl eq_refl)). simpl.
  rewrite IH; [reflexivity |]. intros a' Ha'. apply H. right. exact Ha'.
Qed.

Lemma printable_element_blocks (el : MCFGRuleElement) :
  printable_element el ->
  word (variable el) /\ blocks (str_components el).
Proof.
  intros [Hname [ws [tail [Hcs [Hne [Hall Htail]]]]]]. split; [exact Hname |].
  unfold str_components. rewrite Hcs.
  exact (blocks_components ws tail Hne Hall Htail).
Qed.

Lemma printable_element_tuple (el : MCFGRuleElement) :
  printable_element el ->
  (variable el, map strip (split_on "," (str_components el))) = tuple_of el.
Proof.
  intros [_ [ws [tail [Hcs [Hne [Hall Htail]]]]]]. unfold tuple_of. f_equal.
  unfold str_components. rewrite Hcs.
  exact (split_strip_components ws tail Hne Hall Htail ""
           (or_introl eq_refl)).
Qed.

Lemma elem_tuples_str_rule (r : MCFGRule) :
  right_side r <> [] ->
  Forall printable_element (left_side r :: right_side r) ->
  elem_tuples_of (str_rule r) = map tuple_of (left_side r :: right_side r).
Proof.
  intros Hne Hall. unfold elem_tuples_of.
  rewrite (findall_str_rule r Hne).
  - rewrite map_map. apply map_ext_in. intros el Hel. simpl.
    apply printable_element_tuple.
    rewrite Forall_forall in Hall. apply Hall, Hel.
  - revert Hall. apply Forall_impl. exact printable_element_blocks.
Qed.

Lemma flat_map_tuples (els : list MCFGRuleElement) :
  flat_map snd (map tuple_of els) =
  map str_component (flat_map string_variables els).
Proof.
  induction els as [| el els IH]; [reflexivity |].
  simpl. rewrite map_app, IH. reflexivity.
Qed.

Lemma printed_strvars_eq (n : nat) :
  map str_component (map (fun i => [Pos i]) (seq 0 n)) = printed_strvars n.
Proof.
  unfold printed_strvars. rewrite map_map. reflexivity.
Qed.

Lemma left_component_read (n : nat) (vs : StringVariables) :
  1 <= n <= 10 ->
  Forall (fun v => exists i, v = Pos i /\ i < n) vs ->
  mapM (fun v => k <- index_of (printed_strvars n) v ;; Ok (Pos k))
       (findall1 (strvar_pattern (printed_strvars n)) (str_component vs))
  = Ok vs.
Proof.
  intros Hn Hvs. destruct (positions_of n vs Hvs) as [ids [-> Hids]].
  assert (Hten : Forall (fun i => i < 10) ids)
    by (revert Hids; apply Forall_impl; intros; lia).
  rewrite (str_component_digits ids Hten), (findall_digits n ids Hn Hids).
  apply index_digits; [lia | exact Hids].
Qed.

Lemma right_component_read (n i : nat) :
  n <= 10 -> i < n ->
  (k <- index_of (printed_strvars n) (str_component [Pos i]) ;; Ok [Pos k])
  = Ok [Pos i].
Proof.
  intros Hn Hi.
  change (str_component [Pos i]) with (str_strvar (Pos i)).
  rewrite (printed_index n i Hn Hi). reflexivity.
Qed.

Lemma right_components (els : list MCFGRuleElement) (n : nat) :
  flat_map string_variables els = map (fun i => [Pos i]) (seq 0 n) ->
  forall el vs, In el els -> In vs (string_variables el) ->
    exists i, vs = [Pos i] /\ i < n.
Proof.
  intros H el vs Hel Hvs.
  assert (Hin : In vs (flat_map string_variables els))
    by (apply in_flat_map; exists el; auto).
  rewrite H in Hin. apply in_map_iff in Hin. destruct Hin as [i [<- Hi]].
  exists i. split; [reflexivity |]. apply in_seq in Hi. lia.
Qed.

Lemma MCFGRule_init_valid (r : MCFGRule) :
  _validate r = Ok tt ->
  MCFGRule_init (left_side r) (right_side r) = Ok r.
Proof.
  intros H. unfold MCFGRule_init. destruct r as [l rs]. simpl.
  simpl in H. rewrite H. reflexivity.
Qed.

Lemma MCFGRule_init_Ok (l : MCFGRuleElement) (rs : list MCFGRuleElement)
    (r : MCFGRule) :
  MCFGRule_init l rs = Ok r -> r = mkRule l rs /\ _validate r = Ok tt.
Proof.
  unfold MCFGRule_init. intros H. apply bind_Ok in H.
  destruct H as [[] [Hv H]]. inversion H; subst. auto.
Qed.

Lemma digit_component_word (n : nat) (vs : StringVariables) :
  n <= 10 -> vs <> [] ->
  Forall (fun v => exists i, v = Pos i /\ i < n) vs ->
  word (str_component vs).
Proof.
  intros Hn Hne Hvs. destruct (positions_of n vs Hvs) as [ids [-> Hids]].
  assert (Hten : Forall (fun i => i < 10) ids)
    by (revert Hids; apply Forall_impl; intros; lia).
  rewrite (str_component_digits ids Hten). apply digit_string_word.
  - destruct ids; [contradiction | discriminate].
  - exact Hten.
Qed.

Lemma components_printed (n : nat) (comps : list StringVariables) :
  n <= 10 -> comps <> [] -> comps <> [[]] ->
  ~ In [] (removelast comps) ->
  Forall (Forall (fun v => exists i, v = Pos i /\ i < n)) comps ->
  printed_components (map str_component comps).
Proof.
  intros Hn Hne Hone Hlast Hpos.
  assert (Hsplit : comps = (removelast comps ++ [last comps []])%list)
    by exact (app_removelast_last [] Hne).
  rewrite Forall_forall in Hpos.
  assert (Hwords : forall cs, incl cs comps -> ~ In [] cs ->
                              Forall word (map str_component cs)).
  { intros cs Hincl Hfull. apply Forall_forall. intros s Hs.
    apply in_map_iff in Hs. destruct Hs as [vs [<- Hvs]].
    apply (digit_component_word n vs Hn); [| exact (Hpos vs (Hincl vs Hvs))].
    intros ->. exact (Hfull Hvs). }
  destruct (last comps []) as [| v l] eqn:El.
  - exists (map str_component (removelast comps)), [""].
    split; [| split; [| split; [| right; reflexivity]]].
    + rewrite Hsplit at 1. rewrite map_app. reflexivity.
    + destruct (removelast comps) eqn:Er; [| discriminate].
      exfalso. apply Hone. rewrite Hsplit. reflexivity.
    + apply Hwords; [| exact Hlast].
      intros x Hx. rewrite Hsplit. apply in_or_app. left. exact Hx.
  - exists (map str_component comps), [].
    split; [| split; [| split; [| left; reflexivity]]].
    + rewrite app_nil_r. reflexivity.
    + destruct comps; [contradiction | discriminate].
    + apply Hwords; [apply incl_refl |].
      rewrite Hsplit. intros Hin. apply in_app_iff in Hin.
      destruct Hin as [Hin | [Hin | []]]; [exact (Hlast Hin) | discriminate].
Qed.

Lemma bind_returns {A B : Type} (a : A) (m : result A)
    (k : A -> result B) :
  m = Ok a -> bind m k = k a.
Proof.
  intros ->. reflexivity.
Qed.

Lemma rule_of_tuples_cons (lhs p : string * list string)
    (rights : list (string * list string)) :
  rule_of_tuples (lhs :: p :: rights) =
  let strvars := flat_map snd (p :: rights) in
  if all_distinct strvars then
    comps <-
      mapM (fun vs =>
              mapM (fun v => n <- index_of strvars v ;; Ok (Pos n))
                   (findall1 (strvar_pattern strvars) vs))
           (snd lhs) ;;
    rights' <-
      mapM (fun p =>
              cs <- mapM (fun sv => n <- index_of strvars sv ;; Ok [Pos n])
                         (snd p) ;;
              Ok (mkElement (fst p) cs))
           (p :: rights) ;;
    MCFGRule_init (mkElement (fst lhs) comps) rights'
  else Raise ValueError.
Proof.
  destruct lhs; reflexivity.
Qed.

(** A printable rule that the constructor accepts is read back from its
    text. *)
Lemma printable_roundtrip (r : MCFGRule) :
  printable r -> _validate r = Ok tt -> from_string (str_rule r) = Ok r.
Proof.
  intros [Hname Hp] Hvalid. rewrite from_string_tuples.
  destruct (right_side r) as [| el els] eqn:Hright.
  - (* a lexical rule *)
    destruct Hp as [w [Hcomps [Hblocks [Hcomma Hstrip]]]].
    assert (Hbody : str_components (left_side r) = w)
      by (unfold str_components; rewrite Hcomps; reflexivity).
    unfold elem_tuples_of, str_rule, is_epsilon. rewrite Hright.
    rewrite (findall_str_element (left_side r) Hname)
      by (rewrite Hbody; exact Hblocks).
    rewrite Hbody. simpl map.
    rewrite (split_on_no_comma w Hcomma). simpl. rewrite Hstrip.
    rewrite <- (MCFGRule_init_valid r Hvalid), Hright. f_equal.
    destruct (left_side r) as [name comps]. simpl in Hcomps. subst comps.
    reflexivity.
  - (* a rule with a right side *)
    rewrite <- Hright in Hp.
    destruct Hp as [Hels [Hnum [Hten [Hlne [Hone [Hlast Hleft]]]]]].
    assert (Hn : 1 <= rank r <= 10).
    { split; [| exact Hten]. unfold rank. rewrite Hright. simpl.
      rewrite Hright in Hels. inversion Hels as [| ? ? [_ Hc] _]; subst.
      destruct (string_variables el); [contradiction | simpl; lia]. }
    assert (Hall : Forall printable_element (left_side r :: right_side r)).
    { constructor.
      - split; [exact Hname |].
        exact (components_printed (rank r) _ Hten Hlne Hone Hlast Hleft).
      - apply Forall_forall. intros e He. rewrite Forall_forall in Hels.
        destruct (Hels e He) as [Hen Hec]. split; [exact Hen |].
        exists (map str_component (string_variables e)), [].
        split; [rewrite app_nil_r; reflexivity |].
        split; [destruct (string_variables e); [contradiction | discriminate] |].
        split; [| left; reflexivity].
        apply Forall_forall. intros s Hs. apply in_map_iff in Hs.
        destruct Hs as [vs [<- Hvs]].
        destruct (right_components (right_side r) (rank r) Hnum e vs He Hvs)
          as [i [-> Hi]].
        apply (digit_component_word (rank r) [Pos i] Hten);
          [discriminate |].
        constructor; [exists i; auto | constructor]. }
    rewrite (elem_tuples_str_rule r);
      [| rewrite Hright; discriminate | exact Hall].
    rewrite Hright.
    change (map tuple_of (left_side r :: el :: els))
      with (tuple_of (left_side r) :: tuple_of el :: map tuple_of els).
    rewrite rule_of_tuples_cons. cbv zeta.
    change (tuple_of el :: map tuple_of els)
      with (map tuple_of (el :: els)).
    rewrite <- Hright.
    rewrite flat_map_tuples, Hnum, printed_strvars_eq.
    rewrite (printed_all_distinct (rank r) Hten).
    change (snd (tuple_of (left_side r)))
      with (map str_component (string_variables (left_side r))).
    change (fst (tuple_of (left_side r))) with (variable (left_side r)).
    rewrite (bind_returns (string_variables (left_side r))).
    + rewrite (bind_returns (right_side r)).
      * rewrite <- (MCFGRule_init_valid r Hvalid). f_equal.
        destruct (left_side r); reflexivity.
      * apply mapM_map_id. intros e He. unfold tuple_of. cbn [fst snd].
        rewrite (bind_returns (string_variables e)).
        -- destruct e; reflexivity.
        -- apply mapM_map_id. intros vs Hvs.
           destruct (right_components (right_side r) (rank r) Hnum e vs He Hvs)
             as [i [-> Hi]].
           apply right_component_read; assumption.
    + apply mapM_map_id. intros vs Hvs. rewrite Forall_forall in Hleft.
      apply left_component_read; [exact Hn | apply Hleft, Hvs].
Qed.

(** ** A rule that [from_string] returns *)

Lemma split_on_nonempty (sep : ascii) (s : string) : split_on sep s <> [].
Proof.
  destruct s as [| x s]; simpl; [discriminate |].
  destruct (Ascii.eqb x sep); [discriminate |].
  destruct (split_on sep s); discriminate.
Qed.

Lemma split_on_single (s p : string) :
  split_on "," s = [p] -> p = s /\ all_chars no_comma s = true.
Proof.
  revert p; induction s as [| x s IH]; simpl; intros p H.
  - inversion H. auto.
  - unfold no_comma at 1. destruct (Ascii.eqb x ",").
    + inversion H as [[Hp Hs]]. exfalso. exact (split_on_nonempty _ _ Hs).
    + destruct (split_on "," s) as [| piece pieces] eqn:E;
        [exfalso; exact (split_on_nonempty _ _ E) |].
      inversion H; subst. destruct (IH piece eq_refl) as [-> ->]. auto.
Qed.

Lemma rstrip_append_blank (s t : string) :
  rstrip t = "" -> rstrip (s ++ t) = rstrip s.
Proof.
  intros Ht. induction s as [| x s IH]; simpl; [exact Ht |].
  rewrite IH. reflexivity.
Qed.

Lemma rstrip_append (s t : string) :
  rstrip t <> "" -> rstrip (s ++ t) = s ++ rstrip t.
Proof.
  intros Ht. induction s as [| x s IH]; simpl; [reflexivity |].
  rewrite IH. destruct (s ++ rstrip t) eqn:E; [| reflexivity].
  exfalso. destruct s; simpl in E; [exact (Ht E) | discriminate E].
Qed.

Lemma rstrip_idempotent (s : string) : rstrip (rstrip s) = rstrip s.
Proof.
  induction s as [| x s IH]; simpl; [reflexivity |].
  destruct (rstrip s) as [| y t] eqn:E.
  - destruct (is_space x) eqn:Hx; simpl; [reflexivity |].
    rewrite Hx. reflexivity.
  - simpl. simpl in IH. rewrite IH. reflexivity.
Qed.

Lemma rstrip_head (x : ascii) (s : string) :
  is_space x = false -> exists t, rstrip (String x s) = String x t.
Proof.
  intros Hx. simpl. rewrite Hx.
  destruct (rstrip s); eexists; reflexivity.
Qed.

Lemma rstrip_chars (p : ascii -> bool) (s : string) :
  all_chars p s = true -> all_chars p (rstrip s) = true.
Proof.
  induction s as [| x s IH]; simpl; [reflexivity |]. intros H.
  apply andb_true_iff in H. destruct H as [Hx Hs]. specialize (IH Hs).
  destruct (rstrip s).
  - destruct (is_space x); simpl; [reflexivity | rewrite Hx; reflexivity].
  - simpl. simpl in IH. rewrite Hx, IH. reflexivity.
Qed.

Lemma word_head (w : string) :
  word w -> exists x t, w = String x t /\ is_space x = false.
Proof.
  intros [Hne Hw]. destruct w as [| x t]; [contradiction |].
  exists x, t. split; [reflexivity |]. simpl in Hw.
  apply andb_true_iff in Hw. destruct Hw as [Hx _].
  apply is_word_no_space in Hx. unfold no_space in Hx.
  apply negb_true_iff in Hx. exact Hx.
Qed.

Lemma blocks_head (bs : string) :
  blocks bs -> exists x t, bs = String x t /\ is_space x = false.
Proof.
  assert (Hblock : forall b, block b ->
            exists x t, b = String x t /\ is_space x = false).
  { intros b [w sep Hw _]. destruct (word_head w Hw) as [x [t [-> Hx]]].
    exists x, (t ++ sep). auto. }
  induction 1 as [b Hb | b bs Hb _ _].
  - apply Hblock, Hb.
  - destruct (Hblock b Hb) as [x [t [-> Hx]]]. exists x, (t ++ bs). auto.
Qed.

Lemma rstrip_blocks_nonempty (bs : string) : blocks bs -> rstrip bs <> "".
Proof.
  intros H. destruct (blocks_head bs H) as [x [t [-> Hx]]].
  destruct (rstrip_head x t Hx) as [t' ->]. discriminate.
Qed.

Lemma rstrip_block (b : string) :
  block b -> all_chars no_comma b = true -> block (rstrip b).
Proof.
  intros [w sep Hw Hsep] Hc. rewrite all_chars_append in Hc.
  apply andb_true_iff in Hc. destruct Hc as [_ Hc].
  pose proof (all_chars_impl is_word no_space w is_word_no_space (proj2 Hw))
    as Hns.
  destruct Hsep as [<- | [<- | [<- | [<- | []]]]]; try discriminate Hc.
  - rewrite append_nil_r, (rstrip_no_space w Hns).
    rewrite <- (append_nil_r w). constructor; simpl; auto.
  - rewrite (rstrip_append_blank w " " eq_refl), (rstrip_no_space w Hns).
    rewrite <- (append_nil_r w). constructor; simpl; auto.
Qed.

Lemma rstrip_blocks (bs : string) :
  blocks bs -> all_chars no_comma bs = true -> blocks (rstrip bs).
Proof.
  induction 1 as [b Hb | b bs Hb Hbs IH]; intros Hc.
  - constructor. apply rstrip_block; assumption.
  - rewrite all_chars_append in Hc. apply andb_true_iff in Hc.
    rewrite (rstrip_append b bs (rstrip_blocks_nonempty bs Hbs)).
    apply blocks_more; [exact Hb | apply IH, Hc].
Qed.

(** A match of the rounds of variables without a comma is, stripped, a
    literal. *)
Lemma strip_literal (body : string) :
  blocks body -> all_chars no_comma body = true -> literal (strip body).
Proof.
  intros Hb Hc. destruct (blocks_head body Hb) as [x [t [Hbody Hx]]].
  assert (Hl : lstrip body = body)
    by (rewrite Hbody; simpl; rewrite Hx; reflexivity).
  unfold strip. rewrite Hl. split; [| split].
  - apply rstrip_blocks; assumption.
  - apply rstrip_chars, Hc.
  - destruct (rstrip_head x t Hx) as [t' Ht']. rewrite Hbody, Ht'.
    unfold strip.
    change (lstrip (String x t'))
      with (if is_space x then lstrip t' else String x t').
    rewrite Hx, <- Ht'. apply rstrip_idempotent.
Qed.

Lemma elem_tuples_sound (text : string) (var : string) (svs : list string) :
  In (var, svs) (elem_tuples_of text) ->
  word var /\ exists body, blocks body /\
                           svs = map strip (split_on "," body).
Proof.
  unfold elem_tuples_of. intros H. apply in_map_iff in H.
  destruct H as [[name body] [Heq Hin]]. simpl in Heq.
  inversion Heq; subst. destruct (findall_elem_sound text var body Hin).
  split; [assumption |]. exists body. auto.
Qed.

Lemma index_of_lt (l : list string) (v : string) (k : nat) :
  index_of l v = Ok k -> k < List.length l.
Proof.
  revert k; induction l as [| x l IH]; simpl; intros k H; [discriminate |].
  destruct (String.eqb x v).
  - inversion H. lia.
  - apply bind_Ok in H. destruct H as [n [Hn H]]. inversion H; subst.
    specialize (IH n Hn). lia.
Qed.

Lemma index_of_app (pre suf : list string) (v : string) :
  existsb (String.eqb v) pre = false ->
  index_of (pre ++ suf) v =
  (k <- index_of suf v ;; Ok (List.length pre + k)).
Proof.
  induction pre as [| x pre IH]; simpl; intros H.
  - destruct (index_of suf v); reflexivity.
  - apply orb_false_iff in H. destruct H as [Hx Hpre].
    rewrite String.eqb_sym, Hx, (IH Hpre).
    destruct (index_of suf v); reflexivity.
Qed.

Lemma all_distinct_app (pre : list string) (v : string) (suf : list string) :
  all_distinct (pre ++ v :: suf) = true ->
  existsb (String.eqb v) pre = false /\
  all_distinct ((pre ++ [v]) ++ suf) = true.
Proof.
  intros H. split.
  - induction pre as [| x pre IH]; [reflexivity |].
    simpl in H. apply andb_true_iff in H. destruct H as [Hx Hrest].
    simpl. rewrite (IH Hrest), orb_false_r.
    apply negb_true_iff in Hx. rewrite existsb_app in Hx.
    apply orb_false_iff in Hx. destruct Hx as [_ Hx]. simpl in Hx.
    apply orb_false_iff in Hx. rewrite String.eqb_sym. apply Hx.
  - rewrite <- app_assoc. exact H.
Qed.

(** Distinct variables are numbered in their order. *)
Lemma index_distinct (suf : list string) :
  forall pre,
    all_distinct (pre ++ suf) = true ->
    mapM (fun sv => k <- index_of (pre ++ suf) sv ;; Ok [Pos k]) suf =
    Ok (map (fun i => [Pos i]) (seq (List.length pre) (List.length suf))).
Proof.
  induction suf as [| v suf IH]; intros pre H; [reflexivity |].
  destruct (all_distinct_app pre v suf H) as [Hv H'].
  simpl. rewrite (index_of_app pre (v :: suf) v Hv). simpl.
  rewrite String.eqb_refl. simpl. rewrite Nat.add_0_r.
  specialize (IH (pre ++ [v])%list H').
  rewrite <- app_assoc in IH. simpl in IH. rewrite IH.
  rewrite length_app. simpl. rewrite Nat.add_1_r. reflexivity.
Qed.

Lemma mapM_app {A B : Type} (f : A -> result B) (l l' : list A)
    (bs bs' : list B) :
  mapM f l = Ok bs -> mapM f l' = Ok bs' ->
  mapM f (l ++ l') = Ok (bs ++ bs')%list.
Proof.
  revert bs; induction l as [| a l IH]; simpl; intros bs H H'.
  - inversion H. exact H'.
  - apply bind_Ok in H. destruct H as [b [Hb H]].
    apply bind_Ok in H. destruct H as [bs0 [Hbs0 H]]. inversion H; subst.
    rewrite Hb. simpl. rewrite (IH bs0 Hbs0 H'). reflexivity.
Qed.

(** The right side that [from_string] builds, component after
    component. *)
Lemma rights_components (strvars : list string)
    (rights : list (string * list string)) (rights' : list MCFGRuleElement) :
  mapM (fun p =>
          cs <- mapM (fun sv => k <- index_of strvars sv ;; Ok [Pos k])
                     (snd p) ;;
          Ok (mkElement (fst p) cs)) rights = Ok rights' ->
  mapM (fun sv => k <- index_of strvars sv ;; Ok [Pos k])
       (flat_map snd rights) = Ok (flat_map string_variables rights') /\
  Forall2 (fun p el => variable el = fst p /\
                       List.length (string_variables el) = List.length (snd p))
          rights rights'.
Proof.
  revert rights'; induction rights as [| p rights IH]; simpl;
    intros rights' H.
  - inversion H. split; [reflexivity | constructor].
  - apply bind_Ok in H. destruct H as [el [Hel H]].
    apply bind_Ok in H. destruct H as [els [Hels H]]. inversion H; subst.
    apply bind_Ok in Hel. destruct Hel as [cs [Hcs Hel]].
    inversion Hel; subst. destruct (IH els Hels) as [Hflat Hall]. split.
    + simpl. apply mapM_app; assumption.
    + constructor; [| exact Hall]. simpl. split; [reflexivity |].
      apply (mapM_length _ _ _ Hcs).
Qed.

Lemma Forall2_In_r {A B : Type} (P : A -> B -> Prop) (l : list A)
    (l' : list B) :
  Forall2 P l l' -> forall b, In b l' -> exists a, In a l /\ P a b.
Proof.
  induction 1 as [| a b l l' Hab _ IH]; intros b' Hb'; [destruct Hb' |].
  destruct Hb' as [<- | Hb'].
  - exists a. split; [left; reflexivity | exact Hab].
  - destruct (IH b' Hb') as [a' [Ha' HP]]. exists a'. split; [right |]; auto.
Qed.

Lemma split_strip_nonempty (body : string) :
  map strip (split_on "," body) <> [].
Proof.
  pose proof (split_on_nonempty "," body).
  destruct (split_on "," body); [contradiction | discriminate].
Qed.

(** A rule that [from_string] returns is printable as soon as, lexical, it
    holds one literal, or, with a right side, it has at most ten string
    variables and no empty component on its left side other than the
    last. *)
Lemma from_string_printable (text : string) (r : MCFGRule) :
  from_string text = Ok r ->
  (is_epsilon r = true -> exists w, string_variables (left_side r) = [[w]]) ->
  (is_epsilon r = false ->
   rank r <= 10 /\ ~ In [] (removelast (string_variables (left_side r)))) ->
  printable r /\ _validate r = Ok tt.
Proof.
  intros H Hlex Hrhs. rewrite from_string_tuples in H.
  pose proof (elem_tuples_sound text) as Hsound.
  destruct (elem_tuples_of text) as [| [var svs] rest]; [discriminate |].
  destruct (Hsound var svs (or_introl eq_refl))
    as [Hvar [body [Hbody Hsvs]]].
  destruct rest as [| p rest]; simpl in H.
  - (* one element: a lexical rule *)
    apply MCFGRule_init_Ok in H. destruct H as [-> Hvalid].
    split; [| exact Hvalid]. split; [exact Hvar |]. simpl.
    destruct (Hlex eq_refl) as [w Hw]. simpl in Hw.
    destruct svs as [| w0 [| w1 svs]]; try discriminate Hw.
    exists w0. split; [reflexivity |].
    destruct (split_on "," body) as [| piece [| piece' pieces]] eqn:E;
      try discriminate Hsvs.
    destruct (split_on_single body piece E) as [-> Hcomma].
    inversion Hsvs; subst. apply strip_literal; assumption.
  - (* several elements: a rule with a right side *)
    set (rights := p :: rest) in *.
    set (strvars := flat_map snd rights) in *.
    change (snd p ++ flat_map snd rest)%list with strvars in H.
    destruct (all_distinct strvars) eqn:Hdistinct; [| discriminate].
    apply bind_Ok in H. destruct H as [comps [Hcomps H]].
    apply bind_Ok in H. destruct H as [rights' [Hrights H]].
    apply MCFGRule_init_Ok in H. destruct H as [-> Hvalid].
    split; [| exact Hvalid].
    destruct (rights_components strvars rights rights' Hrights)
      as [Hflat Hall].
    pose proof (eq_trans (eq_sym Hflat)
                  (index_distinct strvars [] Hdistinct)) as Hnum.
    inversion Hnum as [Hnum'].
    assert (Hrank : rank (mkRule (mkElement var comps) rights')
                    = List.length strvars).
    { unfold rank. simpl. rewrite Hnum', length_map, length_seq.
      reflexivity. }
    assert (Hne : rights' <> []).
    { inversion Hall; subst. discriminate. }
    assert (Heps : is_epsilon (mkRule (mkElement var comps) rights') = false).
    { unfold is_epsilon. simpl. destruct rights'; [contradiction | auto]. }
    destruct (Hrhs Heps) as [Hten Hempty]. simpl in Hempty.
    assert (Hels : Forall (fun e => word (variable e) /\
                                    string_variables e <> []) rights').
    { apply Forall_forall. intros e He.
      destruct (Forall2_In_r _ _ _ Hall e He) as [[v s] [Hin [Hv Hlen]]].
      simpl in Hv, Hlen.
      destruct (Hsound v s (or_intror Hin)) as [Hword [b [_ Hs]]].
      split; [rewrite Hv; exact Hword |].
      intros Hnil. rewrite Hnil, Hs in Hlen. simpl in Hlen.
      apply (split_strip_nonempty b).
      destruct (map strip (split_on "," b)); [reflexivity | discriminate]. }
    split; [exact Hvar |]. simpl.
    destruct rights' as [| el els] eqn:Erights; [contradiction |].
    rewrite <- Erights in *. rewrite Hrank.
    split; [exact Hels |].
    split; [rewrite Erights; rewrite Erights in Hnum'; exact Hnum' |].
    split; [rewrite <- Hrank; exact Hten |].
    split; [| split; [| split]].
    + apply mapM_length in Hcomps. simpl in Hcomps. intros Hnil.
      rewrite Hnil, Hsvs in Hcomps. simpl in Hcomps.
      apply (split_strip_nonempty body).
      destruct (map strip (split_on "," body)); [reflexivity | discriminate].
    + (* the left side names the variables of the right side, and there is
         one *)
      intros Hone. subst comps.
      assert (Hel : In el rights') by (rewrite Erights; left; reflexivity).
      rewrite Forall_forall in Hels. destruct (Hels el Hel) as [_ Hcs].
      destruct (string_variables el) as [| comp cs] eqn:Ecs;
        [contradiction |].
      assert (Hcomp : In comp (flat_map string_variables rights')).
      { apply in_flat_map. exists el. split; [exact Hel |].
        rewrite Ecs. left. reflexivity. }
      rewrite Hnum' in Hcomp. apply in_map_iff in Hcomp.
      destruct Hcomp as [i [<- _]].
      unfold _validate in Hvalid. rewrite Heps in Hvalid.
      cbn [right_side left_side] in Hvalid.
      destruct (sharing (map unique_string_variables rights'));
        [discriminate |].
      destruct (set_eqb (unique_string_variables (mkElement var [[]]))
                  (List.concat (map unique_string_variables rights')))
        eqn:Hset; [| discriminate].
      unfold set_eqb in Hset. apply andb_true_iff in Hset.
      destruct Hset as [_ Hsub]. rewrite forallb_forall in Hsub.
      assert (Hin : In (Pos i)
                       (List.concat (map unique_string_variables rights'))).
      { apply in_concat. exists (unique_string_variables el).
        split; [apply in_map, Hel |].
        unfold unique_string_variables. rewrite Ecs. left. reflexivity. }
      apply Hsub in Hin. discriminate Hin.
    + exact Hempty.
    + pose proof (mapM_Forall _
                    (fun vs => Forall (fun v => exists i, v = Pos i /\
                                         i < List.length strvars) vs)
                    _ _ Hcomps) as HF.
      apply HF. intros s vs' _ Hvs'.
      apply (mapM_Forall _ _ _ _ Hvs'). intros v b _ Hb.
      apply bind_Ok in Hb. destruct Hb as [k [Hk Hb]].
      inversion Hb; subst. exists k. split; [reflexivity |].
      apply (index_of_lt _ _ _ Hk).
Qed.

(** C8 (as amended).  For a rule string that [from_string] accepts, if
    the Rule is lexical and holds a single literal, or has a right side, at
    most ten string variables and no empty component on its left side other
    than the last, then parsing the text of the Rule ([str]) with
    [from_string] yields the Rule again. *)
Theorem from_string_roundtrip (rule_string : string) (r : MCFGRule) :
  from_string rule_string = Ok r ->
  (is_epsilon r = true -> exists w, string_variables (left_side r) = [[w]]) ->
  (is_epsilon r = false ->
   rank r <= 10 /\ ~ In [] (removelast (string_variables (left_side r)))) ->
  from_string (str_rule r) = Ok r.
Proof.
  intros H Hlex Hrhs.
  destruct (from_string_printable rule_string r H Hlex Hrhs) as [Hp Hv].
  exact (printable_roundtrip r Hp Hv).
Qed.

Lemma from_string_roundtrip_witness :
  from_string (str_rule rule_1) = Ok rule_1 /\
  from_string (str_rule (mkRule (mkElement "D" [[Word "the"]]) []))
  = Ok (mkRule (mkElement "D" [[Word "the"]]) []) /\
  from_string
    (str_rule (mkRule (mkElement "A" [[Pos 0; Pos 1]; []])
                      [mkElement "B" [[Pos 0]]; mkElement "C" [[Pos 1]]]))
  = Ok (mkRule (mkElement "A" [[Pos 0; Pos 1]; []])
               [mkElement "B" [[Pos 0]]; mkElement "C" [[Pos 1]]]).
Proof.
  split; [| split].
  - apply (from_string_roundtrip "VPwhrc(v, uw) -> Vpres(u) Sbarwhrc(v, w)"
             rule_1 eq_refl).
    + intros H. discriminate H.
    + intros _. split; [unfold rank; simpl; lia |].
      simpl. intros [H | []]; discriminate H.
  - apply (from_string_roundtrip "D(the)"
             (mkRule (mkElement "D" [[Word "the"]]) []) eq_refl).
    + intros _. exists (Word "the"). reflexivity.
    + intros H. discriminate H.
  - apply (from_string_roundtrip "A(uv, x) -> B(u) C(v)"
             (mkRule (mkElement "A" [[Pos 0; Pos 1]; []])
                     [mkElement "B" [[Pos 0]]; mkElement "C" [[Pos 1]]])
             eq_refl).
    + intros H. discriminate H.
    + intros _. split; [unfold rank; simpl; lia |].
      simpl. intros [H | []]; discriminate H.
Defined.

(** C8, as the claim states it, fails on rule strings that [from_string]
    accepts: a lexical rule with two literals is printed without the comma
    and read back with one literal; with eleven string variables the
    position 10 is printed as the digits of 1 and 0, and the text is
    rejected ([ValueError]); with an empty component on the left side that is
    not the last, the first or one in the middle, the left element is not
    read back, and the text is rejected. *)
Lemma from_string_roundtrip_fails :
  (exists r, from_string "D(the, a)" = Ok r /\
             str_rule r = "D(thea)" /\
             from_string (str_rule r) <> Ok r) /\
  (exists r,
     from_string "A(abcdefghijk) -> B(a, b, c, d, e, f, g, h, i, j, k)"
       = Ok r /\
     str_rule r = "A(012345678910) -> B(0, 1, 2, 3, 4, 5, 6, 7, 8, 9, 10)" /\
     from_string (str_rule r) = Raise ValueError) /\
  (exists r, from_string "A(x, uv) -> B(u) C(v)" = Ok r /\
             str_rule r = "A(, 01) -> B(0) C(1)" /\
             from_string (str_rule r) = Raise ValueError) /\
  (exists r, from_string "A(u, x, v) -> B(u) C(v)" = Ok r /\
             str_rule r = "A(0, , 1) -> B(0) C(1)" /\
             from_string (str_rule r) = Raise ValueError).
Proof.
  split; [| split; [| split]]; eexists; (split; [reflexivity |]);
    (split; [reflexivity |]); try reflexivity.
  vm_compute. discriminate.
Qed.

(** A text holds the code points below 256: the letter of code point 233
    is a character of a word, as for [\w] of [re], and the rule is read and
    read back from its text. *)
Example from_string_latin_letter :
  let text := "N(caf" ++ String "233" ")" in
  let rule := mkRule (mkElement "N" [[Word ("caf" ++ String "233" "")]]) [] in
  is_word "233" = true /\
  from_string text = Ok rule /\
  str_rule rule = text /\
  from_string (str_rule rule) = Ok rule.
Proof.
  repeat split.
Qed.

(** The rules of the grammar of the tests are read back from their text. *)
Example literal_rules_roundtrip :
  mapM (fun text => r <- from_string text ;; from_string (str_rule r))
       literal_rules
  = mapM from_string literal_rules.
Proof. vm_compute. reflexivity. Qed.

(** [test_str] and [test_init] of [tests/grammar_test.py]. *)
Example test_str :
  from_string "VPwhrc(v, uw) -> Vpres(u) Sbarwhrc(v, w)" = Ok rule_1 /\
  str_rule rule_1 = "VPwhrc(1, 02) -> Vpres(0) Sbarwhrc(1, 2)" /\
  from_string "D(the)" = Ok (mkRule (mkElement "D" [[Word "the"]]) []) /\
  str_rule (mkRule (mkElement "D" [[Word "the"]]) []) = "D(the)".
Proof. repeat split. Qed.

(** * Further properties *)

(** ** The constructor of a rule *)

Lemma intersects_spec (s1 s2 : list strvar) :
  intersects s1 s2 = true <-> exists v, In v s1 /\ In v s2.
Proof.
  unfold intersects. rewrite existsb_exists. split.
  - intros [v [H1 H2]]. exists v. split; [exact H1 | apply mem_In, H2].
  - intros [v [H1 H2]]. exists v. split; [exact H1 | apply mem_In, H2].
Qed.

Lemma sharing_spec (vs : list (list strvar)) :
  sharing vs = true <->
  exists i j a b v,
    i < j /\ nth_error vs i = Some a /\ nth_error vs j = Some b /\
    In v a /\ In v b.
Proof.
  induction vs as [| s vs IH]; simpl.
  - split; [discriminate |].
    intros [i [j [a [b [v [_ [H _]]]]]]]. destruct i; discriminate H.
  - rewrite orb_true_iff, IH, existsb_exists. split.
    + intros [[t [Ht Hst]] | [i [j [a [b [v [Hij [Hi [Hj Hv]]]]]]]]].
      * apply In_nth_error in Ht. destruct Ht as [k Hk].
        apply intersects_spec in Hst. destruct Hst as [v [Hvs Hvt]].
        exists 0, (S k), s, t, v. repeat split; auto. lia.
      * exists (S i), (S j), a, b, v. repeat split; auto; try apply Hv. lia.
    + intros [i [j [a [b [v [Hij [Hi [Hj [Hva Hvb]]]]]]]]].
      destruct j as [| j]; [lia |]. destruct i as [| i].
      * left. simpl in Hi, Hj. inversion Hi; subst a. exists b.
        split; [exact (nth_error_In _ _ Hj) |].
        apply intersects_spec. exists v. auto.
      * right. exists i, j, a, b, v. simpl in Hi, Hj. repeat split; auto. lia.
Qed.

Lemma set_eqb_spec (s1 s2 : list strvar) :
  set_eqb s1 s2 = true <-> forall v, In v s1 <-> In v s2.
Proof.
  unfold set_eqb. rewrite andb_true_iff, !forallb_forall. split.
  - intros [H1 H2] v. split; intros H; apply mem_In; auto.
  - intros H. split; intros v Hv; apply mem_In, H, Hv.
Qed.

Lemma in_unique_variables (rs : list MCFGRuleElement) (v : strvar) :
  In v (List.concat (map unique_string_variables rs)) <->
  exists el, In el rs /\ In v (unique_string_variables el).
Proof.
  rewrite in_concat. split.
  - intros [s [Hs Hv]]. apply in_map_iff in Hs. destruct Hs as [el [<- Hel]].
    exists el. auto.
  - intros [el [Hel Hv]]. exists (unique_string_variables el).
    split; [apply in_map, Hel | exact Hv].
Qed.

(** X1.  The constructor of a rule returns the rule or raises
    [ValueError].  It returns the rule exactly when no string variable
    occurs in two elements of the right side and, if there is a right side,
    the left side and the right side name the same set of string
    variables. *)
Theorem rule_constructor (l : MCFGRuleElement) (rs : list MCFGRuleElement) :
  (MCFGRule_init l rs = Ok (mkRule l rs) \/
   MCFGRule_init l rs = Raise ValueError) /\
  (MCFGRule_init l rs = Ok (mkRule l rs) <->
   (forall i j a b v,
      i < j -> nth_error rs i = Some a -> nth_error rs j = Some b ->
      In v (unique_string_variables a) ->
      ~ In v (unique_string_variables b)) /\
   (rs <> [] ->
    forall v, In v (unique_string_variables l) <->
              exists el, In el rs /\ In v (unique_string_variables el))).
Proof.
  unfold MCFGRule_init, _validate, is_epsilon. simpl.
  destruct (sharing (map unique_string_variables rs)) eqn:Hsh.
  - split; [right; reflexivity |]. split; [discriminate |].
    intros [Hdis _]. exfalso. apply sharing_spec in Hsh.
    destruct Hsh as [i [j [a [b [v [Hij [Hi [Hj [Hva Hvb]]]]]]]]].
    rewrite nth_error_map in Hi, Hj.
    destruct (nth_error rs i) as [ea |] eqn:Ei; [| discriminate].
    destruct (nth_error rs j) as [eb |] eqn:Ej; [| discriminate].
    inversion Hi; inversion Hj; subst.
    exact (Hdis i j ea eb v Hij Ei Ej Hva Hvb).
  - assert (Hdis : forall i j a b v,
               i < j -> nth_error rs i = Some a -> nth_error rs j = Some b ->
               In v (unique_string_variables a) ->
               ~ In v (unique_string_variables b)).
    { intros i j a b v Hij Hi Hj Hva Hvb.
      assert (H : sharing (map unique_string_variables rs) = true).
      { apply sharing_spec.
        exists i, j, (unique_string_variables a), (unique_string_variables b), v.
        rewrite !nth_error_map, Hi, Hj. auto. }
      rewrite Hsh in H. discriminate. }
    destruct rs as [| el rs'].
    + simpl. split; [left; reflexivity |].
      split; [intros _ | reflexivity].
      split; [exact Hdis | intros H; contradiction].
    + destruct (set_eqb (unique_string_variables l)
                  (List.concat (map unique_string_variables (el :: rs'))))
        eqn:Hset.
      * simpl. split; [left; reflexivity |].
        split; [intros _ | reflexivity]. split; [exact Hdis |].
        intros _ v. rewrite <- (in_unique_variables (el :: rs') v).
        revert v. apply set_eqb_spec. exact Hset.
      * simpl. split; [right; reflexivity |]. split; [discriminate |].
        intros [_ Hsame]. exfalso.
        assert (H : set_eqb (unique_string_variables l)
                      (List.concat
                         (map unique_string_variables (el :: rs'))) = true).
        { apply set_eqb_spec. intros v.
          rewrite (in_unique_variables (el :: rs') v).
          apply Hsame. discriminate. }
        rewrite Hset in H. discriminate.
Qed.

Lemma rule_constructor_witness :
  (forall i j a b v,
     i < j ->
     nth_error [mkElement "A" [[Pos 0]]; mkElement "B" [[Pos 1]]] i = Some a ->
     nth_error [mkElement "A" [[Pos 0]]; mkElement "B" [[Pos 1]]] j = Some b ->
     In v (unique_string_variables a) ->
     ~ In v (unique_string_variables b)) /\
  ([mkElement "A" [[Pos 0]]; mkElement "B" [[Pos 1]]] <> [] ->
   forall v,
     In v (unique_string_variables (mkElement "S" [[Pos 0; Pos 1]])) <->
     exists el,
       In el [mkElement "A" [[Pos 0]]; mkElement "B" [[Pos 1]]] /\
       In v (unique_string_variables el)).
Proof.
  apply (proj1 (proj2 (rule_constructor
                         (mkElement "S" [[Pos 0; Pos 1]])
                         [mkElement "A" [[Pos 0]]; mkElement "B" [[Pos 1]]]))).
  reflexivity.
Defined.

(** ** A lexical rule applied to instances *)

(** X2.  A lexical rule applied to instances, as in the seeding of the
    chart: it raises [IndexError] if a component of its left side is empty;
    it returns the left instance with the spans of the instances if the
    first literals of its components are the names of the instances; in
    every other case it raises [ValueError], it has no no-match value. *)
Theorem lexical_rule_instantiation (r : MCFGRule)
    (rs : list MCFGRuleElementInstance) :
  is_epsilon r = true -> rs <> [] ->
  (In [] (string_variables (left_side r)) ->
   instantiate_left_side r rs = Raise IndexError) /\
  (forall firsts,
     mapM first_of (string_variables (left_side r)) = Ok firsts ->
     (firsts = map (fun el => Word (inst_variable el)) rs ->
      instantiate_left_side r rs =
        Ok (Some (mkInstance (variable (left_side r))
                             (flat_map string_spans rs)))) /\
     (firsts <> map (fun el => Word (inst_variable el)) rs ->
      instantiate_left_side r rs = Raise ValueError)).
Proof.
  intros Heps Hne. unfold instantiate_left_side. rewrite Heps. split.
  - intros H. rewrite (first_of_empty _ H). reflexivity.
  - intros firsts ->. simpl. split; intros H.
    + destruct (list_eq_dec strvar_eq_dec _ firsts) as [_ | Hn];
        [reflexivity | exfalso; apply Hn; symmetry; exact H].
    + destruct (list_eq_dec strvar_eq_dec _ firsts) as [He | _];
        [exfalso; apply H; symmetry; exact He |].
      apply instantiate_by_span_map_misaligned.
      unfold _right_side_aligns. unfold is_epsilon in Heps.
      destruct (right_side r); [| discriminate].
      destruct rs; [contradiction | reflexivity].
Qed.

Lemma lexical_rule_instantiation_witness :
  instantiate_left_side (mkRule (mkElement "D" [[Word "the"]]) [])
    [mkInstance "the" [(3, 4)%Z]] =
    Ok (Some (mkInstance "D" [(3, 4)%Z])) /\
  instantiate_left_side (mkRule (mkElement "D" [[Word "the"]]) [])
    [mkInstance "a" [(3, 4)%Z]] = Raise ValueError.
Proof.
  split.
  - apply (proj1 (proj2 (lexical_rule_instantiation
                           (mkRule (mkElement "D" [[Word "the"]]) [])
                           [mkInstance "the" [(3, 4)%Z]] eq_refl
                           ltac:(discriminate))
                        [Word "the"] eq_refl)).
    reflexivity.
  - apply (proj2 (proj2 (lexical_rule_instantiation
                           (mkRule (mkElement "D" [[Word "the"]]) [])
                           [mkInstance "a" [(3, 4)%Z]] eq_refl
                           ltac:(discriminate))
                        [Word "the"] eq_refl)).
    discriminate.
Defined.

(** ** The spans of an instance that a rule returns *)

Lemma dict_get_In (m : SpanMap) (k : strvar) (s : SpanIndices) :
  dict_get m k = Ok s -> In s (map snd m).
Proof.
  induction m as [| [k' s'] m IH]; simpl; [discriminate |].
  destruct (strvar_eqb k k').
  - intros H. inversion H. left. reflexivity.
  - intros H. right. exact (IH H).
Qed.

Lemma span_map_of_values (pairs : list (StringVariables * SpanIndices)) :
  forall d m,
    span_map_of d pairs = Ok m ->
    forall s, In s (map snd m) -> In s (map snd d) \/ In s (map snd pairs).
Proof.
  induction pairs as [| [sv sp] pairs IH]; simpl; intros d m H s Hs.
  - inversion H; subst. left. exact Hs.
  - destruct sv as [| k sv]; [discriminate |].
    destruct (IH _ _ H s Hs) as [Hd | Hp].
    + simpl in Hd. destruct Hd as [<- | Hd]; [right; left |]; auto.
    + right. right. exact Hp.
Qed.

(** The spans of the span map are spans of the instances. *)
Lemma _build_span_map_values (r : MCFGRule)
    (rs : list MCFGRuleElementInstance) (m : SpanMap) (k : strvar)
    (s : SpanIndices) :
  _build_span_map r rs = Ok m -> dict_get m k = Ok s ->
  exists a, In a rs /\ In s (string_spans a).
Proof.
  unfold _build_span_map. destruct (_right_side_aligns r rs); [| discriminate].
  intros Hm Hk. apply dict_get_In in Hk.
  destruct (span_map_of_values _ _ _ Hm s Hk) as [[] | Hs].
  apply in_map_iff in Hs. destruct Hs as [[sv sp] [<- Hin]].
  unfold zipped_components in Hin. apply in_flat_map in Hin.
  destruct Hin as [[el inst] [Hel Hin]]. simpl in Hin.
  exists inst. split; [exact (in_combine_r _ _ _ _ Hel) |].
  exact (in_combine_r _ _ _ _ Hin).
Qed.

Lemma last_cons {A : Type} (a b : A) (l : list A) :
  last (a :: l) b = last l a.
Proof.
  revert a b; induction l as [| x l IH]; intros a b; [reflexivity |].
  change (last (x :: l) b = last (x :: l) a).
  rewrite (IH x b), (IH x a). reflexivity.
Qed.

Section Chains.

Variable R : Z -> Z -> Prop.
Hypothesis R_trans : forall a b c, R a b -> R b c -> R a c.
Variable m : SpanMap.
Hypothesis R_map : forall k s, dict_get m k = Ok s -> R (fst s) (snd s).

(** Along a chain of adjacent spans the begin of the first and the end of
    the last are related as the ends of each span are. *)
Lemma adjacent_from_chain (rest : list strvar) :
  forall prev sp,
    adjacent_from m prev rest = Ok true -> dict_get m prev = Ok sp ->
    exists se, dict_get m (last rest prev) = Ok se /\ R (fst sp) (snd se).
Proof.
  induction rest as [| cur rest IH]; intros prev sp Hadj Hsp.
  - exists sp. split; [exact Hsp | exact (R_map _ _ Hsp)].
  - simpl in Hadj. rewrite Hsp in Hadj. simpl in Hadj.
    destruct (dict_get m cur) as [sc | e |] eqn:Hsc; try discriminate.
    simpl in Hadj.
    destruct (Z.eqb_spec (snd sp) (fst sc)) as [Heq | Hne]; [| discriminate].
    destruct (IH cur sc Hadj Hsc) as [se [Hse HR]].
    exists se. rewrite last_cons. split; [exact Hse |].
    apply R_trans with (b := snd sp); [exact (R_map _ _ Hsp) |].
    rewrite Heq. exact HR.
Qed.

Lemma component_span_chain (vs : StringVariables) (sp : SpanIndices) :
  component_span m vs = Ok (Some sp) ->
  R (fst sp) (snd sp) /\
  exists k1 s1 k2 s2,
    dict_get m k1 = Ok s1 /\ dict_get m k2 = Ok s2 /\
    fst sp = fst s1 /\ snd sp = snd s2.
Proof.
  destruct vs as [| v0 rest]; [discriminate |]. unfold component_span.
  destruct (adjacent_from m v0 rest) as [[|] | e |] eqn:Hadj;
    try discriminate. simpl bind. cbv iota.
  destruct (dict_get m v0) as [b | e |] eqn:Hb; try discriminate.
  simpl bind.
  destruct (adjacent_from_chain rest v0 b Hadj Hb) as [se [Hse HR]].
  change (match rest with [] => v0 | _ :: _ => last rest v0 end)
    with (last (v0 :: rest) v0).
  rewrite last_cons, Hse. simpl. intros H. inversion H; subst sp. simpl.
  split; [exact HR |]. exists v0, b, (last rest v0), se. auto.
Qed.

Lemma new_spans_of_chain (comps : list StringVariables) :
  forall spans,
    new_spans_of m comps = Ok (Some spans) ->
    forall sp, In sp spans ->
      R (fst sp) (snd sp) /\
      exists k1 s1 k2 s2,
        dict_get m k1 = Ok s1 /\ dict_get m k2 = Ok s2 /\
        fst sp = fst s1 /\ snd sp = snd s2.
Proof.
  induction comps as [| vs comps IH]; intros spans H sp Hin.
  - inversion H; subst. destruct Hin.
  - simpl in H.
    destruct (component_span m vs) as [[s0 |] | e |] eqn:Hc;
      try discriminate. simpl in H.
    destruct (new_spans_of m comps) as [[rest |] | e |] eqn:Hr;
      try discriminate. simpl in H. inversion H; subst spans.
    destruct Hin as [<- | Hin].
    + exact (component_span_chain vs s0 Hc).
    + exact (IH rest eq_refl sp Hin).
Qed.

End Chains.

(** The spans of a returned instance, for a relation [R] that holds of the
    ends of every span of the instances. *)
Lemma instantiate_left_side_chain (R : Z -> Z -> Prop)
    (R_trans : forall a b c, R a b -> R b c -> R a c)
    (r : MCFGRule) (rs : list MCFGRuleElementInstance)
    (inst : MCFGRuleElementInstance) :
  instantiate_left_side r rs = Ok (Some inst) ->
  (forall a s, In a rs -> In s (string_spans a) -> R (fst s) (snd s)) ->
  inst_variable inst = variable (left_side r) /\
  forall sp, In sp (string_spans inst) ->
    R (fst sp) (snd sp) /\
    exists a1 s1 a2 s2,
      In a1 rs /\ In s1 (string_spans a1) /\
      In a2 rs /\ In s2 (string_spans a2) /\
      fst sp = fst s1 /\ snd sp = snd s2.
Proof.
  intros H HR.
  assert (Hmap : instantiate_by_span_map r rs = Ok (Some inst) ->
                 inst_variable inst = variable (left_side r) /\
                 forall sp, In sp (string_spans inst) ->
                   R (fst sp) (snd sp) /\
                   exists a1 s1 a2 s2,
                     In a1 rs /\ In s1 (string_spans a1) /\
                     In a2 rs /\ In s2 (string_spans a2) /\
                     fst sp = fst s1 /\ snd sp = snd s2).
  { clear H. unfold instantiate_by_span_map.
    destruct (_build_span_map r rs) as [m | e |] eqn:Hm; try discriminate.
    simpl bind.
    destruct (new_spans_of m (string_variables (left_side r)))
      as [[spans |] | e |] eqn:Hs; try discriminate.
    simpl. intros H. inversion H; subst inst. simpl.
    split; [reflexivity |]. intros sp Hin.
    assert (Rm : forall k s, dict_get m k = Ok s -> R (fst s) (snd s)).
    { intros k s Hk.
      destruct (_build_span_map_values r rs m k s Hm Hk) as [a [Ha Hsa]].
      exact (HR a s Ha Hsa). }
    destruct (new_spans_of_chain R R_trans m Rm _ spans Hs sp Hin)
      as [Hsp [k1 [s1 [k2 [s2 [H1 [H2 [Hb He]]]]]]]].
    split; [exact Hsp |].
    destruct (_build_span_map_values r rs m k1 s1 Hm H1) as [a1 [Ha1 Hs1]].
    destruct (_build_span_map_values r rs m k2 s2 Hm H2) as [a2 [Ha2 Hs2]].
    exists a1, s1, a2, s2. auto 10. }
  unfold instantiate_left_side in H.
  destruct (is_epsilon r); [| exact (Hmap H)].
  destruct (mapM first_of (string_variables (left_side r)))
    as [firsts | e |]; try discriminate. simpl in H.
  destruct (list_eq_dec strvar_eq_dec _ firsts); [| exact (Hmap H)].
  inversion H; subst inst. simpl. split; [reflexivity |].
  intros sp Hin. apply in_flat_map in Hin. destruct Hin as [a [Ha Hsa]].
  split; [exact (HR a sp Ha Hsa) |]. exists a, sp, a, sp. auto 10.
Qed.

(** X3.  An instance that [instantiate_left_side] returns carries the
    variable of the left side; each of its spans begins where a span of the
    given instances begins and ends where one ends; and if every given span
    is nonempty, [begin < end], so is every span of the result. *)
Theorem instantiate_left_side_spans (r : MCFGRule)
    (rs : list MCFGRuleElementInstance) (inst : MCFGRuleElementInstance) :
  instantiate_left_side r rs = Ok (Some inst) ->
  inst_variable inst = variable (left_side r) /\
  (forall sp, In sp (string_spans inst) ->
     exists a1 s1 a2 s2,
       In a1 rs /\ In s1 (string_spans a1) /\
       In a2 rs /\ In s2 (string_spans a2) /\
       fst sp = fst s1 /\ snd sp = snd s2) /\
  ((forall a s, In a rs -> In s (string_spans a) -> (fst s < snd s)%Z) ->
   forall sp, In sp (string_spans inst) -> (fst sp < snd sp)%Z).
Proof.
  intros H. split; [| split].
  - apply (instantiate_left_side_chain (fun _ _ => True)
             (fun _ _ _ _ _ => I) r rs inst H).
    intros; exact I.
  - intros sp Hin.
    apply (proj2 (instantiate_left_side_chain (fun _ _ => True)
                    (fun _ _ _ _ _ => I) r rs inst H (fun _ _ _ _ => I))
                 sp Hin).
  - intros Hlt sp Hin.
    apply (proj2 (instantiate_left_side_chain Z.lt Z.lt_trans r rs inst H Hlt)
                 sp Hin).
Qed.

Lemma instantiate_left_side_spans_witness :
  (fst (0, 2)%Z < snd (0, 2)%Z)%Z.
Proof.
  refine (proj2 (proj2 (instantiate_left_side_spans
    (mkRule (mkElement "S" [[Pos 0; Pos 1]])
            [mkElement "A" [[Pos 0]]; mkElement "B" [[Pos 1]]])
    [mkInstance "A" [(0, 1)%Z]; mkInstance "B" [(1, 2)%Z]]
    (mkInstance "S" [(0, 2)%Z]) eq_refl)) _ (0, 2)%Z (or_introl eq_refl)).
  intros a s [<- | [<- | []]] [<- | []]; reflexivity.
Defined.

(** ** Trees *)

Lemma Tree_forall_ind (P : Tree -> Prop) :
  (forall d cs, Forall P cs -> P (Node d cs)) -> forall t, P t.
Proof.
  intros H. fix IH 1. intros [d cs]. apply H.
  induction cs as [| c cs IHcs]; constructor; [apply IH | exact IHcs].
Qed.

Lemma tree_index_Node (d' : string) (cs : list Tree) (d : string)
    (p : list nat) :
  tree_index (Node d' cs) d p =
  ((if String.eqb d' d then [p] else []) ++ index_children d p cs 0)%list.
Proof.
  simpl. f_equal. generalize 0.
  induction cs as [| c cs IH]; intros i; simpl; [reflexivity |].
  f_equal. apply IH.
Qed.

Lemma contains_Node (d' : string) (cs : list Tree) (d : string) :
  contains (Node d' cs) d =
  String.eqb d' d || existsb (fun c => contains c d) cs.
Proof.
  simpl. destruct (String.eqb d' d); [reflexivity |]. simpl.
  induction cs as [| c cs IH]; simpl; [reflexivity |].
  destruct (contains c d); [reflexivity | exact IH].
Qed.

Lemma terminals_Node (d : string) (c : Tree) (cs : list Tree) :
  terminals (Node d (c :: cs)) = flat_map terminals (c :: cs).
Proof.
  reflexivity.
Qed.

Lemma getitem_cons (t : Tree) (i : Z) (rest : list Z) :
  getitem t (i :: rest) =
  (child <- py_getitem (children t) i ;; getitem child rest).
Proof.
  destruct rest; simpl; [| reflexivity].
  destruct (py_getitem (children t) i); reflexivity.
Qed.

Lemma py_getitem_nth {A : Type} (l : list A) (k : nat) (a : A) :
  py_getitem l (Z.of_nat k) = Ok a <-> nth_error l k = Some a.
Proof.
  unfold py_getitem.
  destruct (Z.ltb_spec (Z.of_nat k) 0); [lia |].
  destruct (Z.leb_spec 0 (Z.of_nat k)); [| lia].
  rewrite Nat2Z.id.
  destruct (Z.ltb_spec (Z.of_nat k) (Z.of_nat (List.length l))); simpl.
  - destruct (nth_error l k) as [b |]; split; intros E;
      inversion E; reflexivity.
  - split; [discriminate |]. intros E.
    assert (Hk : k < List.length l)
      by (apply nth_error_Some; rewrite E; discriminate).
    lia.
Qed.

Section Index.

Variable d : string.

Let on_path (t : Tree) (pre q : list nat) : Prop :=
  exists p u, q = (pre ++ p)%list /\
              getitem t (map Z.of_nat p) = Ok u /\ data u = d.

Lemma index_children_paths (cs : list Tree) :
  Forall (fun c => forall pre q, In q (tree_index c d pre) <-> on_path c pre q)
         cs ->
  forall i pre q,
    In q (index_children d pre cs i) <->
    exists k c p u,
      nth_error cs k = Some c /\ q = (pre ++ (i + k) :: p)%list /\
      getitem c (map Z.of_nat p) = Ok u /\ data u = d.
Proof.
  induction 1 as [| c cs Hc _ IH]; intros i pre q.
  - simpl. split; [intros [] |].
    intros [k [c [p [u [Hk _]]]]]. destruct k; discriminate Hk.
  - simpl. rewrite in_app_iff, Hc, IH. split.
    + intros [[p [u [Hq [Hg Hd]]]] | [k [c' [p [u [Hk [Hq [Hg Hd]]]]]]]].
      * exists 0, c, p, u. rewrite Nat.add_0_r.
        rewrite <- app_assoc in Hq. auto.
      * exists (S k), c', p, u. rewrite Nat.add_succ_r. auto.
    + intros [k [c' [p [u [Hk [Hq [Hg Hd]]]]]]]. destruct k as [| k].
      * left. simpl in Hk. inversion Hk; subst c'. exists p, u.
        rewrite Nat.add_0_r in Hq. rewrite <- app_assoc. auto.
      * right. exists k, c', p, u. rewrite Nat.add_succ_r in Hq. auto.
Qed.

Lemma tree_index_paths (t : Tree) :
  forall pre q, In q (tree_index t d pre) <-> on_path t pre q.
Proof.
  induction t as [d' cs IH] using Tree_forall_ind. intros pre q.
  rewrite tree_index_Node, in_app_iff, (index_children_paths cs IH).
  unfold on_path. split.
  - intros [Hq | [k [c [p [u [Hk [Hq [Hg Hd]]]]]]]].
    + destruct (String.eqb_spec d' d) as [E | E]; [| destruct Hq].
      destruct Hq as [<- | []]. exists [], (Node d' cs).
      rewrite app_nil_r. auto.
    + exists (k :: p), u. split; [exact Hq |]. split; [| exact Hd].
      change (map Z.of_nat (k :: p)) with (Z.of_nat k :: map Z.of_nat p).
      rewrite getitem_cons. simpl children.
      rewrite (proj2 (py_getitem_nth cs k c) Hk). exact Hg.
  - intros [p [u [Hq [Hg Hd]]]]. destruct p as [| k p].
    + left. simpl in Hg. inversion Hg; subst u. simpl in Hd.
      rewrite app_nil_r in Hq. subst q d'. rewrite String.eqb_refl.
      left. reflexivity.
    + right.
      change (map Z.of_nat (k :: p)) with (Z.of_nat k :: map Z.of_nat p)
        in Hg.
      rewrite getitem_cons in Hg. simpl children in Hg.
      destruct (py_getitem cs (Z.of_nat k)) as [c | e |] eqn:Hc;
        try discriminate.
      exists k, c, p, u. split; [apply py_getitem_nth, Hc |]. auto.
Qed.

Lemma contains_index (t : Tree) :
  forall pre, contains t d = true <-> exists q, In q (tree_index t d pre).
Proof.
  induction t as [d' cs IH] using Tree_forall_ind. intros pre.
  rewrite contains_Node, tree_index_Node, orb_true_iff.
  assert (Hcs : forall i,
             existsb (fun c => contains c d) cs = true <->
             exists q, In q (index_children d pre cs i)).
  { induction IH as [| c cs Hc _ IHcs]; intros i; simpl.
    - split; [discriminate | intros [q []]].
    - rewrite orb_true_iff, (Hc (pre ++ [i])%list), (IHcs (S i)). split.
      + intros [[q Hq] | [q Hq]]; exists q; apply in_app_iff; auto.
      + intros [q Hq]. apply in_app_iff in Hq.
        destruct Hq as [Hq | Hq]; [left | right]; exists q; exact Hq. }
  rewrite (Hcs 0). split.
  - intros [E | [q Hq]].
    + exists pre. rewrite E. left. reflexivity.
    + exists q. apply in_app_iff. right. exact Hq.
  - intros [q Hq]. apply in_app_iff in Hq. destruct Hq as [Hq | Hq].
    + left. destruct (String.eqb d' d); [reflexivity | destruct Hq].
    + right. exists q. exact Hq.
Qed.

End Index.

(** X4.  [Tree.index] and [Tree.__getitem__] agree: the paths that
    [index(data, index_path)] lists are [index_path] followed by exactly the
    index paths along which [__getitem__] reaches a node that carries
    [data]. *)
Theorem tree_index_getitem (t : Tree) (d : string) (index_path q : list nat) :
  In q (tree_index t d index_path) <->
  exists p u, q = (index_path ++ p)%list /\
              getitem t (map Z.of_nat p) = Ok u /\ data u = d.
Proof.
  apply tree_index_paths.
Qed.

(** X5.  [data in tree] holds exactly when [tree.index(data)] is not empty,
    and exactly when some index path leads to a node that carries
    [data]. *)
Theorem contains_iff_index (t : Tree) (d : string) :
  (contains t d = true <-> tree_index t d [] <> []) /\
  (contains t d = true <->
   exists p u, getitem t (map Z.of_nat p) = Ok u /\ data u = d).
Proof.
  split.
  - rewrite (contains_index d t []). split.
    + intros [q Hq] E. rewrite E in Hq. destruct Hq.
    + intros H. destruct (tree_index t d []) as [| q l]; [contradiction |].
      exists q. left. reflexivity.
  - rewrite (contains_index d t []). split.
    + intros [q Hq]. apply tree_index_paths in Hq.
      destruct Hq as [p [u [_ H]]]. exists p, u. exact H.
    + intros [p [u H]]. exists p. apply tree_index_paths.
      exists p, u. split; [reflexivity | exact H].
Qed.

(** ** Relabelling *)

Lemma relabel_Node (f : string -> string) (n tm : bool) (d : string)
    (cs : list Tree) :
  exists d', relabel f n tm (Node d cs) = Node d' (map (relabel f n tm) cs) /\
    (cs = [] -> d' = if n && negb tm then d else f d).
Proof.
  eexists. split; [reflexivity |]. intros ->.
  destruct n, tm; reflexivity.
Qed.

(** X6.  The leaves of a relabelled tree: [relabel] maps the labels of the
    leaves, in their order, unless it is called with [nonterminals_only]
    alone, which leaves them as they are.  With both flags set it relabels
    every node, as with no flag. *)
Theorem relabel_terminals (f : string -> string) (n tm : bool) (t : Tree) :
  terminals (relabel f n tm t) =
    (if n && negb tm then terminals t else map f (terminals t)) /\
  relabel f true true t = relabel f false false t.
Proof.
  split.
  - induction t as [d cs IH] using Tree_forall_ind.
    destruct (relabel_Node f n tm d cs) as [d' [-> Hd']].
    destruct cs as [| c cs].
    + rewrite (Hd' eq_refl). simpl. destruct (n && negb tm); reflexivity.
    + change (map (relabel f n tm) (c :: cs))
        with (relabel f n tm c :: map (relabel f n tm) cs).
      rewrite !terminals_Node. clear Hd'.
      change (relabel f n tm c :: map (relabel f n tm) cs)
        with (map (relabel f n tm) (c :: cs)).
      induction IH as [| c0 cs0 Hc _ IHcs].
      * destruct (n && negb tm); reflexivity.
      * change (flat_map terminals (map (relabel f n tm) (c0 :: cs0)))
          with (terminals (relabel f n tm c0) ++
                flat_map terminals (map (relabel f n tm) cs0))%list.
        rewrite Hc, IHcs.
        change (flat_map terminals (c0 :: cs0))
          with (terminals c0 ++ flat_map terminals cs0)%list.
        destruct (n && negb tm); [reflexivity |].
        rewrite map_app. reflexivity.
  - induction t as [d cs IH] using Tree_forall_ind. simpl.
    f_equal; [destruct cs; reflexivity |].
    induction IH as [| c cs Hc _ IHcs]; [reflexivity |].
    simpl. f_equal; [exact Hc | exact IHcs].
Qed.

(** X7.  [relabel] keeps the shape of the tree: an index path leads, in the
    relabelled tree, to the relabelled subtree that it leads to in the
    tree, and it raises [IndexError] in the one when it does in the
    other. *)
Theorem relabel_getitem (f : string -> string) (n tm : bool) (idx : list Z) :
  forall t,
    getitem (relabel f n tm t) idx =
    result_map (relabel f n tm) (getitem t idx).
Proof.
  induction idx as [| i rest IH]; intros t; [reflexivity |].
  rewrite !getitem_cons. destruct t as [d cs].
  destruct (relabel_Node f n tm d cs) as [d' [-> _]]. simpl children.
  unfold py_getitem. rewrite length_map.
  destruct ((0 <=? (if (i <? 0)%Z then (i + Z.of_nat (List.length cs))%Z
                    else i))%Z &&
            ((if (i <? 0)%Z then (i + Z.of_nat (List.length cs))%Z else i)
               <? Z.of_nat (List.length cs))%Z); [| reflexivity].
  rewrite nth_error_map.
  destruct (nth_error cs _) as [c |]; [| reflexivity]. simpl. apply IH.
Qed.

(** The tests of [tree_test.py], by computation. *)
Example test_tree :
  let tree :=
    Node "S" [Node "NP" [Node "D(the)" []; Node "N(dog)" []];
              Node "VP" [Node "V(barked)" []]] in
  let nl := String "010" "" in
  tree_str tree = "D(the) N(dog) V(barked)" /\
  to_string tree 0 =
    "S" ++ nl ++ "--NP" ++ nl ++ "  --D(the)" ++ nl ++ "  --N(dog)" ++ nl ++
    "--VP" ++ nl ++ "  --V(barked)" ++ nl /\
  contains tree "V(barked)" = true /\
  contains tree "Sbar" = false /\
  result_map data (getitem_int tree 0) = Ok "NP" /\
  result_map data (getitem_int tree 1) = Ok "VP" /\
  getitem_int tree 2 = Raise IndexError /\
  tree_index tree "NP" [] = [[0]] /\
  tree_index tree "VP" [] = [[1]] /\
  tree_index tree "S" [] = [[]] /\
  relabel (fun s => if String.eqb s "S" then "s" else s) false false tree =
    Node "s" [Node "NP" [Node "D(the)" []; Node "N(dog)" []];
              Node "VP" [Node "V(barked)" []]].
Proof.
  vm_compute. repeat split; reflexivity.
Qed.

(** ** The lexical rules of a word *)

Lemma first_literal_cases (r : MCFGRule) :
  first_literal r = Raise IndexError \/ returns (first_literal r).
Proof.
  unfold first_literal. destruct (string_variables (left_side r)) as [| vs l].
  - left. reflexivity.
  - destruct vs as [| v vs]; [left; reflexivity |].
    right. exists v. reflexivity.
Qed.

Lemma lexical_rules_raises (rules : list MCFGRule) (word : string) :
  (exists r, In r rules /\ is_epsilon r = true /\
             first_literal r = Raise IndexError) ->
  lexical_rules rules word = Raise IndexError.
Proof.
  induction rules as [| rule rules IH]; intros [r [Hin [Heps Hr]]];
    [destruct Hin |].
  simpl. destruct Hin as [-> | Hin].
  - rewrite Heps, Hr. reflexivity.
  - assert (Hrest : lexical_rules rules word = Raise IndexError)
      by (apply IH; exists r; auto).
    destruct (is_epsilon rule); [| exact Hrest].
    destruct (first_literal_cases rule) as [-> | [v ->]]; [reflexivity |].
    simpl. rewrite Hrest. reflexivity.
Qed.

Lemma lexical_rules_spec (rules : list MCFGRule) (word : string) :
  (forall r, In r rules -> is_epsilon r = true -> returns (first_literal r)) ->
  exists l, lexical_rules rules word = Ok l /\
    forall r, In r l <->
              In r rules /\ is_epsilon r = true /\
              first_literal r = Ok (Word word).
Proof.
  induction rules as [| rule rules IH]; intros Hall.
  - exists []. split; [reflexivity |]. intros r. simpl. tauto.
  - destruct IH as [l [Hl Hspec]].
    { intros r Hr. apply Hall. right. exact Hr. }
    simpl. destruct (is_epsilon rule) eqn:Heps.
    + destruct (Hall rule (or_introl eq_refl) Heps) as [v Hv].
      rewrite Hv, Hl. simpl.
      destruct (strvar_eqb v (Word word)) eqn:E.
      * apply strvar_eqb_eq in E. subst v.
        exists (rule :: l). split; [reflexivity |]. intros r. simpl.
        rewrite Hspec. split.
        -- intros [<- | H]; [auto | tauto].
        -- intros [[H | H] H']; [left; exact H | right; tauto].
      * exists l. split; [reflexivity |]. intros r. rewrite Hspec. split.
        -- intros H. simpl. tauto.
        -- intros [[<- | H] [H1 H2]]; [| tauto].
           rewrite Hv in H2. inversion H2; subst v.
           rewrite strvar_eqb_refl in E. discriminate.
    + exists l. split; [exact Hl |]. intros r. rewrite Hspec. split.
      * intros H. simpl. tauto.
      * intros [[<- | H] [H1 H2]]; [rewrite Heps in H1; discriminate | tauto].
Qed.

(** X8.  [parts_of_speech(word)] reads the first literal of every lexical
    rule of the grammar.  If one lexical rule has no first literal (no
    component, or an empty first one) the call raises [IndexError], for
    every word; if none is, it returns exactly the lexical rules whose
    first literal is the word, which are among the rules that
    [parts_of_speech()] returns without a word. *)
Theorem parts_of_speech_spec (g : MultipleContextFreeGrammar) (word : string) :
  ((exists r, In r (_rules g) /\ is_epsilon r = true /\
              first_literal r = Raise IndexError) ->
   parts_of_speech g word = Raise IndexError) /\
  ((forall r, In r (_rules g) -> is_epsilon r = true ->
              returns (first_literal r)) ->
   exists l, parts_of_speech g word = Ok l /\
     (forall r, In r l <->
                In r (_rules g) /\ is_epsilon r = true /\
                first_literal r = Ok (Word word)) /\
     incl l (all_parts_of_speech g)).
Proof.
  split.
  - apply lexical_rules_raises.
  - intros Hall.
    destruct (lexical_rules_spec (_rules g) word Hall) as [l [Hl Hspec]].
    exists l. split; [exact Hl |]. split; [exact Hspec |].
    intros r Hr. apply Hspec in Hr. apply filter_In. tauto.
Qed.

Lemma parts_of_speech_spec_witness :
  parts_of_speech
    (mkGrammar [mkRule (mkElement "A" []) []; mkRule (mkElement "B" [[Word "b"]]) []]
               [mkElement "A" []]) "b" = Raise IndexError /\
  exists l, parts_of_speech small_grammar "a" = Ok l /\
    (forall r, In r l <->
               In r (_rules small_grammar) /\ is_epsilon r = true /\
               first_literal r = Ok (Word "a")) /\
    incl l (all_parts_of_speech small_grammar).
Proof.
  split.
  - apply (proj1 (parts_of_speech_spec _ "b")).
    exists (mkRule (mkElement "A" []) []).
    split; [left; reflexivity | split; reflexivity].
  - apply (proj2 (parts_of_speech_spec small_grammar "a")).
    intros r [<- | [<- | [<- | []]]] H; try discriminate H;
      eexists; reflexivity.
Defined.

(** ** Looking an entry up *)

Lemma _get_item_None (inventory : list ABEntry) (idx : nat) :
  _get_item inventory idx = None <-> ~ In idx (map index inventory).
Proof.
  induction inventory as [| i inv IH]; simpl; [tauto |].
  destruct (Nat.eqb_spec (index i) idx) as [E | E].
  - split; [discriminate | intros H; exfalso; apply H; left; exact E].
  - rewrite IH. tauto.
Qed.

Lemma _get_item_first (inventory : list ABEntry) (idx : nat) (e : ABEntry) :
  _get_item inventory idx = Some e <->
  exists before after,
    inventory = (before ++ e :: after)%list /\ index e = idx /\
    ~ In idx (map index before).
Proof.
  induction inventory as [| i inv IH]; simpl.
  - split; [discriminate |]. intros [before [after [H _]]].
    destruct before; discriminate H.
  - destruct (Nat.eqb_spec (index i) idx) as [E | E].
    + split.
      * intros H. inversion H; subst i. exists [], inv. simpl. tauto.
      * intros [before [after [H [He Hn]]]]. destruct before as [| b bs].
        -- inversion H. reflexivity.
        -- exfalso. inversion H; subst b. apply Hn. left. exact E.
    + rewrite IH. split.
      * intros [before [after [H [He Hn]]]]. exists (i :: before), after.
        subst inv. simpl. split; [reflexivity |]. split; [exact He |].
        intros [H | H]; [exact (E H) | exact (Hn H)].
      * intros [before [after [H [He Hn]]]]. destruct before as [| b bs].
        -- inversion H; subst i. contradiction.
        -- inversion H; subst b inv. exists bs, after.
           split; [reflexivity |]. split; [exact He |].
           intros Hin. apply Hn. right. exact Hin.
Qed.

Lemma _get_item_position (l : list ABEntry) :
  forall n,
    map index l = seq n (List.length l) ->
    (forall k, _get_item l (n + k) = nth_error l k) /\
    (forall j, j < n -> _get_item l j = None).
Proof.
  induction l as [| e l IH]; intros n Hids.
  - split; [intros k; destruct k; reflexivity | reflexivity].
  - simpl in Hids. injection Hids as He Hl.
    destruct (IH (S n) Hl) as [Hk Hj]. split.
    + intros k. simpl. rewrite He. destruct k as [| k].
      * rewrite Nat.add_0_r, Nat.eqb_refl. reflexivity.
      * destruct (Nat.eqb_spec n (n + S k)) as [E | E]; [lia |].
        simpl. rewrite <- Hk. f_equal. lia.
    + intros j Hlt. simpl. rewrite He.
      destruct (Nat.eqb_spec n j) as [E | E]; [lia |].
      apply _get_item_None. rewrite Hl. intros Hin.
      apply in_seq in Hin. lia.
Qed.

(** X9.  [_get_item(inventory, index)] returns the first entry of the
    inventory whose id is [index], and [None] exactly when no entry has
    this id.  In a chart that [_fill_chart] returns, the entry with id [i]
    is at position [i]: [_get_item(chart, i)] is [chart[i]], and [None] for
    [i] beyond the chart. *)
Theorem _get_item_spec (inventory : list ABEntry) (idx : nat) :
  (forall e, _get_item inventory idx = Some e <->
     exists before after,
       inventory = (before ++ e :: after)%list /\ index e = idx /\
       ~ In idx (map index before)) /\
  (_get_item inventory idx = None <-> ~ In idx (map index inventory)) /\
  (forall fuel g words,
     _fill_chart fuel g words = Ok inventory ->
     _get_item inventory idx = nth_error inventory idx).
Proof.
  split; [| split].
  - intros e. apply _get_item_first.
  - apply _get_item_None.
  - intros fuel g words H.
    destruct (_fill_chart_chart g words fuel inventory H) as [Hids _].
    exact (proj1 (_get_item_position inventory 0 Hids) idx).
Qed.

Lemma _get_item_spec_witness :
  _get_item small_chart 2 = nth_error small_chart 2.
Proof.
  apply (proj2 (proj2 (_get_item_spec small_chart 2))
           3 small_grammar ["a"; "b"]).
  reflexivity.
Defined.

(** ** What the loop puts in the agenda *)

Lemma mapM_In {A B : Type} (f : A -> result B) (l : list A) :
  forall bs, mapM f l = Ok bs ->
    forall b, In b bs -> exists a, In a l /\ f a = Ok b.
Proof.
  induction l as [| a l IH]; simpl; intros bs H b Hb.
  - inversion H; subst. destruct Hb.
  - apply bind_Ok in H. destruct H as [b0 [Hb0 H]].
    apply bind_Ok in H. destruct H as [bs0 [Hbs0 H]].
    inversion H; subst bs. destruct Hb as [<- | Hb].
    + exists a. auto.
    + destruct (IH bs0 Hbs0 b Hb) as [a' [Ha' Hf]]. exists a'. auto.
Qed.

Lemma somes_In {A : Type} (l : list (option A)) (a : A) :
  In a (somes l) <-> In (Some a) l.
Proof.
  induction l as [| [x |] l IH]; simpl; [tauto | |].
  - rewrite IH. split; intros [H | H]; auto; left; congruence.
  - rewrite IH. split; [auto | intros [H | H]; [discriminate | exact H]].
Qed.

Lemma instantiate_all_sound (rules : list MCFGRule)
    (rs : list MCFGRuleElementInstance) (l : list MCFGRuleElementInstance) :
  instantiate_all rules rs = Ok l ->
  forall c, In c l ->
    exists rule, In rule rules /\ instantiate_left_side rule rs = Ok (Some c).
Proof.
  unfold instantiate_all. intros H c Hc.
  apply bind_Ok in H. destruct H as [os [Hos H]].
  inversion H; subst l. apply somes_In in Hc.
  exact (mapM_In _ _ os Hos (Some c) Hc).
Qed.

(** The instances of a combination: each comes from a rule that reduces
    the two symbols in the order that the flag tells, and the flag is set
    only when no rule reduces them in the order given. *)
Lemma _combine_sound (g : MultipleContextFreeGrammar)
    (current element : ABEntry) (r : nat)
    (combination : list MCFGRuleElementInstance) :
  _combine g current element = Ok (r, Some combination) ->
  forall c, In c combination ->
    exists rule, In rule (_rules g) /\
      ((r = 0 /\
        In rule (reduce g [symbol current; symbol element]) /\
        instantiate_left_side rule [symbol current; symbol element]
          = Ok (Some c)) \/
       (r = 1 /\
        reduce g [symbol current; symbol element] = [] /\
        In rule (reduce g [symbol element; symbol current]) /\
        instantiate_left_side rule [symbol element; symbol current]
          = Ok (Some c))).
Proof.
  unfold _combine. intros H c Hc.
  destruct (reduce g [symbol current; symbol element]) as [| r0 l0] eqn:E0.
  - destruct (reduce g [symbol element; symbol current]) as [| r1 l1] eqn:E1;
      [discriminate |].
    apply bind_Ok in H. destruct H as [res [Hres H]].
    inversion H; subst r combination.
    destruct (instantiate_all_sound _ _ _ Hres c Hc) as [rule [Hin Hinst]].
    exists rule. split; [| right; auto].
    rewrite <- E1 in Hin. apply reduce_aligns in Hin. tauto.
  - apply bind_Ok in H. destruct H as [res [Hres H]].
    inversion H; subst r combination.
    destruct (instantiate_all_sound _ _ _ Hres c Hc) as [rule [Hin Hinst]].
    exists rule. split; [| left; auto].
    rewrite <- E0 in Hin. apply reduce_aligns in Hin. tauto.
Qed.

Lemma append_parses_Forall (Q : ABEntry -> Prop) (r : nat)
    (current element : ABEntry)
    (combination : list MCFGRuleElementInstance) :
  forall agenda0 n,
    Forall Q agenda0 ->
    (forall c n', In c combination -> n <= n' ->
                  Q (new_parse r current element c n')) ->
    Forall Q (fst (append_parses r current element combination agenda0 n)) /\
    n <= snd (append_parses r current element combination agenda0 n).
Proof.
  induction combination as [| c cs IH]; simpl; intros agenda0 n Hag Hnew.
  - split; [exact Hag | lia].
  - destruct (IH (agenda0 ++ [new_parse r current element c n])%list (S n))
      as [HQ Hn].
    + apply Forall_app. split; [exact Hag |]. constructor; [| constructor].
      apply Hnew; [left; reflexivity | lia].
    + intros c' n' Hc' Hn'. apply Hnew; [right; exact Hc' | lia].
    + split; [exact HQ | lia].
Qed.

Lemma scan_chart_Forall (Q : ABEntry -> Prop)
    (g : MultipleContextFreeGrammar) (current : ABEntry)
    (elements : list ABEntry) :
  forall agenda0 n an,
    scan_chart g current elements agenda0 n = Ok an ->
    Forall Q agenda0 ->
    (forall element r combination c n',
       In element elements ->
       _combine g current element = Ok (r, Some combination) ->
       In c combination -> n <= n' ->
       Q (new_parse r current element c n')) ->
    Forall Q (fst an).
Proof.
  induction elements as [| element rest IH]; simpl; intros agenda0 n an H Hag Hnew.
  - inversion H; subst. exact Hag.
  - apply bind_Ok in H. destruct H as [[r o] [Hrc H]]. simpl in H.
    destruct o as [combination |].
    + destruct (append_parses_Forall Q r current element combination
                  agenda0 n Hag) as [HQ Hn].
      { intros c n' Hc Hn'.
        exact (Hnew element r combination c n' (or_introl eq_refl) Hrc Hc Hn'). }
      apply (IH _ _ an H HQ).
      intros el r' comb c n' Hel Hcomb Hc Hn'.
      apply (Hnew el r' comb c n' (or_intror Hel) Hcomb Hc). lia.
    + simpl in H. apply (IH _ _ an H Hag).
      intros el r' comb c n' Hel Hcomb Hc Hn'.
      exact (Hnew el r' comb c n' (or_intror Hel) Hcomb Hc Hn').
Qed.

Lemma init_state_agenda (g : MultipleContextFreeGrammar)
    (words : list string) (st : state) :
  init_state g words = Ok st ->
  exists seeds, seed g 0 words = Ok seeds /\
                agenda st = reindex 0 seeds /\ chart st = [].
Proof.
  unfold init_state. intros H.
  apply bind_Ok in H. destruct H as [seeds [Hseeds H]].
  destruct seeds as [| s0 seeds]; [discriminate |].
  inversion H; subst st. exists (s0 :: seeds). auto.
Qed.

Lemma ids_before (l1 : list ABEntry) (c : ABEntry) (l2 : list ABEntry) :
  forall a m,
    map index (l1 ++ c :: l2)%list = seq a m ->
    a <= index c /\ forall e, In e l1 -> index e < index c.
Proof.
  induction l1 as [| e0 l1 IH]; simpl; intros a m H.
  - destruct m as [| m]; [discriminate |]. simpl in H.
    injection H as Hc _. split; [lia | intros e []].
  - destruct m as [| m]; [discriminate |]. simpl in H.
    injection H as He0 H. destruct (IH (S a) m H) as [Hc Hall].
    split; [lia |]. intros e [<- | He]; [lia | exact (Hall e He)].
Qed.

(** A property of the entries that the seeds have and that the results of
    a rule inherit from the two entries combined holds of the chart. *)
Section ChartInvariant.

Variable g : MultipleContextFreeGrammar.
Variable words : list string.
Variable P : list ABEntry -> ABEntry -> Prop.

Hypothesis P_mono : forall l l' e, incl l l' -> P l e -> P l' e.

Hypothesis P_seed :
  forall seeds, seed g 0 words = Ok seeds ->
    Forall (P (reindex 0 seeds)) (reindex 0 seeds).

Hypothesis P_step :
  forall l current element rule c n,
    In current l -> In element l -> P l current -> P l element ->
    index element < index current -> index current < n ->
    In rule (_rules g) ->
    (In rule (reduce g [symbol current; symbol element]) ->
     instantiate_left_side rule [symbol current; symbol element]
       = Ok (Some c) ->
     P l (new_parse 0 current element c n)) /\
    (reduce g [symbol current; symbol element] = [] ->
     In rule (reduce g [symbol element; symbol current]) ->
     instantiate_left_side rule [symbol element; symbol current]
       = Ok (Some c) ->
     P l (new_parse 1 current element c n)).

Lemma loop_body_keeps (st st' : state) (current : ABEntry)
    (rest : list ABEntry) :
  invariant words st ->
  agenda st = current :: rest ->
  loop_body g current rest st = Ok st' ->
  Forall (P (chart st ++ agenda st)) (chart st ++ agenda st) ->
  Forall (P (chart st' ++ agenda st')) (chart st' ++ agenda st').
Proof.
  intros Hinv Hag Hbody HP.
  destruct (loop_body_spec g words st st' current rest Hinv Hag Hbody)
    as [news [Ha [Hc [_ [_ [_ _]]]]]].
  pose proof (ids_lt _ _ (inv_ids Hinv)) as Hlt.
  rewrite Forall_forall in Hlt, HP.
  assert (Hincl : incl (chart st ++ agenda st) (chart st' ++ agenda st')).
  { rewrite Ha, Hc, Hag. intros x Hx. apply in_app_iff in Hx.
    rewrite !in_app_iff. simpl. destruct Hx as [Hx | [Hx | Hx]]; tauto. }
  assert (Hcur : In current (chart st ++ agenda st)).
  { rewrite Hag. apply in_app_iff. right. left. reflexivity. }
  set (L' := (chart st' ++ agenda st')%list) in *.
  unfold loop_body in Hbody.
  apply bind_Ok in Hbody. destruct Hbody as [an [Hscan Hbody]].
  assert (Hfst : agenda st' = fst an).
  { destruct (existsb (Nat.eqb (index current)) (chart_ids st));
      inversion Hbody; reflexivity. }
  assert (HA : Forall (P L') (fst an)).
  { apply (scan_chart_Forall _ g current (chart st) rest (next_id st) an
             Hscan).
    - apply Forall_forall. intros x Hx. apply (P_mono _ _ _ Hincl), HP.
      rewrite Hag. apply in_app_iff. right. right. exact Hx.
    - intros element r combination c n' Hel Hcomb Hcc Hn'.
      assert (Hin : In element (chart st ++ agenda st))
        by (apply in_app_iff; left; exact Hel).
      destruct (_combine_sound g current element r combination Hcomb c Hcc)
        as [rule [Hrule Hinst]].
      apply (P_mono _ _ _ Hincl).
      assert (Hlc : index current < n') by (specialize (Hlt _ Hcur); lia).
      assert (Hle : index element < index current).
      { pose proof (inv_ids Hinv) as Hids. rewrite Hag in Hids.
        exact (proj2 (ids_before _ _ _ _ _ Hids) element Hel). }
      destruct (P_step (chart st ++ agenda st) current element rule c n'
                  Hcur Hin (HP _ Hcur) (HP _ Hin) Hle Hlc Hrule)
        as [H0 H1].
      destruct Hinst as [[-> [Hred Hinst]] | [-> [Hnone [Hred Hinst]]]];
        auto. }
  apply Forall_forall. intros x Hx. unfold L' in Hx.
  apply in_app_iff in Hx. destruct Hx as [Hx | Hx].
  - apply (P_mono _ _ _ Hincl), HP. rewrite Hc in Hx.
    apply in_app_iff in Hx. destruct Hx as [Hx | [<- | []]];
      [apply in_app_iff; left; exact Hx | exact Hcur].
  - rewrite Hfst in Hx. rewrite Forall_forall in HA. exact (HA x Hx).
Qed.

Lemma reachable_keeps (st : state) :
  reachable g words st ->
  Forall (P (chart st ++ agenda st)) (chart st ++ agenda st).
Proof.
  induction 1 as [st Hinit | st current rest st' Hr IH Hag Hbody].
  - destruct (init_state_agenda g words st Hinit) as [seeds [Hs [-> ->]]].
    simpl. apply P_seed, Hs.
  - exact (loop_body_keeps st st' current rest
             (reachable_invariant g words st Hr) Hag Hbody IH).
Qed.

Lemma chart_keeps (fuel : nat) (c : list ABEntry) :
  _fill_chart fuel g words = Ok c -> Forall (P c) c.
Proof.
  intros H. destruct (_fill_chart_final g words fuel c H)
    as [st [Hr [Hag [Hc _]]]].
  pose proof (reachable_keeps st Hr) as HP.
  rewrite Hag, app_nil_r, Hc in HP. exact HP.
Qed.

End ChartInvariant.

(** ** The entries of the chart are derivations *)

Lemma lexical_rules_sound (rules : list MCFGRule) (word : string) :
  forall l, lexical_rules rules word = Ok l ->
    forall r, In r l ->
      In r rules /\ is_epsilon r = true /\ first_literal r = Ok (Word word).
Proof.
  induction rules as [| rule rules IH]; simpl; intros l H r Hr.
  - inversion H; subst. destruct Hr.
  - destruct (is_epsilon rule) eqn:Heps.
    + apply bind_Ok in H. destruct H as [v [Hv H]].
      apply bind_Ok in H. destruct H as [rest [Hrest H]].
      inversion H; subst l; clear H.
      destruct (strvar_eqb v (Word word)) eqn:E.
      * destruct Hr as [<- | Hr].
        -- apply strvar_eqb_eq in E. subst v. auto.
        -- destruct (IH rest Hrest r Hr) as [H1 H2]. auto.
      * destruct (IH rest Hrest r Hr) as [H1 H2]. auto.
    + destruct (IH l H r Hr) as [H1 H2]. auto.
Qed.

Lemma seed_sound (g : MultipleContextFreeGrammar) (words : list string) :
  forall idx entries,
    seed g idx words = Ok entries ->
    Forall (fun e =>
              backpointers e = [[None; None]] /\
              exists i word rule,
                nth_error words i = Some word /\
                In rule (_rules g) /\ is_epsilon rule = true /\
                first_literal rule = Ok (Word word) /\
                symbol e =
                  mkInstance (variable (left_side rule))
                    [(Z.of_nat (idx + i), (Z.of_nat (idx + i) + 1)%Z)])
           entries.
Proof.
  induction words as [| word words IH]; simpl; intros idx entries H.
  - inversion H. constructor.
  - apply bind_Ok in H. destruct H as [rules [Hrules H]].
    apply bind_Ok in H. destruct H as [es [Hes H]].
    apply bind_Ok in H. destruct H as [rest [Hrest H]].
    inversion H; subst; clear H. apply Forall_app. split.
    + apply (mapM_Forall _ _ _ _ Hes). intros rule e Hin He.
      destruct (lexical_rules_sound _ _ _ Hrules rule Hin)
        as [Hr [Heps Hlit]].
      unfold seed_entry in He.
      apply bind_Ok in He. destruct He as [o [Ho He]].
      rewrite (seed_symbol rule _ o Heps Ho) in He.
      inversion He; subst e. simpl. split; [reflexivity |].
      exists 0, word, rule. rewrite Nat.add_0_r. simpl. auto 10.
    + apply IH in Hrest. revert Hrest. apply Forall_impl.
      intros e [Hbp [i [w [rule [Hw [Hr [Heps [Hlit Hsym]]]]]]]].
      split; [exact Hbp |]. exists (S i), w, rule.
      rewrite Nat.add_succ_r. simpl. auto 10.
Qed.

Lemma seeds_seeded (g : MultipleContextFreeGrammar) (words : list string)
    (seeds : list ABEntry) :
  seed g 0 words = Ok seeds -> Forall (seeded g words) (reindex 0 seeds).
Proof.
  intros H.
  apply (reindex_shape
           (fun s b =>
              b = [[None; None]] /\
              exists idx word rule,
                nth_error words idx = Some word /\
                In rule (_rules g) /\ is_epsilon rule = true /\
                first_literal rule = Ok (Word word) /\
                s = mkInstance (variable (left_side rule))
                      [(Z.of_nat idx, (Z.of_nat idx + 1)%Z)])).
  exact (seed_sound g words 0 seeds H).
Qed.

Lemma _fill_chart_derivations (fuel : nat) (g : MultipleContextFreeGrammar)
    (words : list string) (chart : list ABEntry) :
  _fill_chart fuel g words = Ok chart ->
  Forall (fun e => seeded g words e \/ derived_from g chart e) chart.
Proof.
  apply (chart_keeps g words
           (fun l e => seeded g words e \/ derived_from g l e)).
  - intros l l' e Hincl [Hs | [e0 [e1 [rule [H0 [H1 Hd]]]]]];
      [left; exact Hs |].
    right. exists e0, e1, rule. split; [exact (Hincl _ H0) |].
    split; [exact (Hincl _ H1) | exact Hd].
  - intros seeds Hs. generalize (seeds_seeded g words seeds Hs).
    apply Forall_impl. intros e He. left. exact He.
  - intros l current element rule c n Hc He _ _ Hle Hlc Hrule. split.
    + intros _ Hinst. right. exists current, element, rule.
      unfold new_parse. simpl.
      repeat (split; [first [assumption | reflexivity | lia] |]).
      exact Hinst.
    + intros _ _ Hinst. right. exists element, current, rule.
      unfold new_parse. simpl.
      repeat (split; [first [assumption | reflexivity | lia] |]).
      exact Hinst.
Qed.

(** X10.  The chart holds derivations only.  Every entry of a chart that
    [_fill_chart] returns is the seed of a lexical rule of the grammar for
    the word at its position, or the instance that a rule of the grammar
    returns for the symbols of two entries of the chart with smaller ids,
    which are the entries that its back-pointers name, in the order of the
    right side of the rule. *)
Theorem chart_sound (fuel : nat) (g : MultipleContextFreeGrammar)
    (words : list string) (chart : list ABEntry) :
  _fill_chart fuel g words = Ok chart ->
  forall e, In e chart -> seeded g words e \/ derived_from g chart e.
Proof.
  intros H. apply Forall_forall.
  exact (_fill_chart_derivations fuel g words chart H).
Qed.

Lemma chart_sound_witness :
  seeded small_grammar ["a"; "b"]
    (mkEntry (mkInstance "S" [(0, 2)%Z]) 2 [[Some (0, "A"); Some (1, "B")]]) \/
  derived_from small_grammar small_chart
    (mkEntry (mkInstance "S" [(0, 2)%Z]) 2 [[Some (0, "A"); Some (1, "B")]]).
Proof.
  apply (chart_sound 3 small_grammar ["a"; "b"] small_chart eq_refl).
  simpl. auto.
Defined.

(** ** The spans of the chart *)

Lemma span_within_trans (n : nat) (a b c : Z) :
  (0 <= a /\ a < b /\ b <= Z.of_nat n)%Z ->
  (0 <= b /\ b < c /\ c <= Z.of_nat n)%Z ->
  (0 <= a /\ a < c /\ c <= Z.of_nat n)%Z.
Proof. lia. Qed.

(** X11.  Every span of every entry of the chart lies in the input and is
    not empty: [0 <= begin < end <= len(string)]. *)
Theorem chart_spans_within (fuel : nat) (g : MultipleContextFreeGrammar)
    (words : list string) (chart : list ABEntry) :
  _fill_chart fuel g words = Ok chart ->
  forall e sp, In e chart -> In sp (string_spans (symbol e)) ->
    (0 <= fst sp /\ fst sp < snd sp /\ snd sp <= Z.of_nat (List.length words))%Z.
Proof.
  intros H.
  assert (HF : Forall (fun e => forall sp,
                         In sp (string_spans (symbol e)) ->
                         span_within (List.length words) sp) chart);
    [| intros e sp He Hsp; rewrite Forall_forall in HF;
       exact (HF e He sp Hsp)].
  revert H.
  apply (chart_keeps g words
           (fun _ e => forall sp, In sp (string_spans (symbol e)) ->
                                  span_within (List.length words) sp)).
  - intros l l' e _ He. exact He.
  - intros seeds Hs.
    apply (reindex_shape
             (fun s _ => forall sp, In sp (string_spans s) ->
                                    span_within (List.length words) sp)).
    generalize (seed_shapes g words 0 seeds Hs). apply Forall_impl.
    intros e [_ [i [Hi Hsp]]] sp Hin. rewrite Hsp in Hin.
    destruct Hin as [<- | []]. unfold span_within. simpl. lia.
  - intros l current element rule c n _ _ Hc He _ _ _.
    assert (Hin : forall rs,
               (forall a s, In a rs -> In s (string_spans a) ->
                            span_within (List.length words) s) ->
               instantiate_left_side rule rs = Ok (Some c) ->
               forall sp, In sp (string_spans c) ->
                          span_within (List.length words) sp).
    { intros rs Hrs Hinst sp Hsp.
      exact (proj1 (proj2 (instantiate_left_side_chain
                             (fun a b => (0 <= a /\ a < b /\
                                          b <= Z.of_nat (List.length words))%Z)
                             (span_within_trans (List.length words))
                             rule rs c Hinst Hrs) sp Hsp)). }
    split; [intros _ Hinst | intros _ _ Hinst]; unfold new_parse; simpl;
      refine (Hin _ _ Hinst); intros a s [<- | [<- | []]]; auto.
Qed.

Lemma chart_spans_within_witness :
  (0 <= fst (0, 2)%Z /\ fst (0, 2)%Z < snd (0, 2)%Z /\
   snd (0, 2)%Z <= Z.of_nat (List.length ["a"; "b"]))%Z.
Proof.
  apply (chart_spans_within 3 small_grammar ["a"; "b"] small_chart eq_refl
           (mkEntry (mkInstance "S" [(0, 2)%Z]) 2
                    [[Some (0, "A"); Some (1, "B")]])).
  - simpl. auto.
  - left. reflexivity.
Defined.

(** ** The chart is closed under the rules that the loop tries *)

Lemma mapM_In_Ok {A B : Type} (f : A -> result B) (l : list A) :
  forall bs, mapM f l = Ok bs ->
    forall a b, In a l -> f a = Ok b -> In b bs.
Proof.
  induction l as [| a0 l IH]; simpl; intros bs H a b Ha Hf; [destruct Ha |].
  apply bind_Ok in H. destruct H as [b0 [Hb0 H]].
  apply bind_Ok in H. destruct H as [bs0 [Hbs0 H]].
  inversion H; subst bs. destruct Ha as [-> | Ha].
  - left. congruence.
  - right. exact (IH bs0 Hbs0 a b Ha Hf).
Qed.

Lemma instantiate_all_complete (rules : list MCFGRule)
    (rs : list MCFGRuleElementInstance) (l : list MCFGRuleElementInstance) :
  instantiate_all rules rs = Ok l ->
  forall rule c, In rule rules ->
    instantiate_left_side rule rs = Ok (Some c) -> In c l.
Proof.
  unfold instantiate_all. intros H rule c Hr Hc.
  apply bind_Ok in H. destruct H as [os [Hos H]].
  inversion H; subst l. apply somes_In.
  exact (mapM_In_Ok _ _ os Hos rule (Some c) Hr Hc).
Qed.

(** [_combine] tries the symbols in the order given and, only if no rule
    reduces them, in the other order. *)
Lemma _combine_complete (g : MultipleContextFreeGrammar)
    (current element : ABEntry) (rc : nat * option (list MCFGRuleElementInstance)) :
  _combine g current element = Ok rc ->
  (forall rule c,
     In rule (reduce g [symbol current; symbol element]) ->
     instantiate_left_side rule [symbol current; symbol element]
       = Ok (Some c) ->
     exists combination, rc = (0, Some combination) /\ In c combination) /\
  (reduce g [symbol current; symbol element] = [] ->
   forall rule c,
     In rule (reduce g [symbol element; symbol current]) ->
     instantiate_left_side rule [symbol element; symbol current]
       = Ok (Some c) ->
     exists combination, rc = (1, Some combination) /\ In c combination).
Proof.
  unfold _combine. intros H.
  destruct (reduce g [symbol current; symbol element]) as [| r0 l0] eqn:E0.
  - split; [intros rule c [] |]. intros _ rule c Hr Hc.
    destruct (reduce g [symbol element; symbol current]) as [| r1 l1] eqn:E1;
      [destruct Hr |].
    apply bind_Ok in H. destruct H as [res [Hres H]].
    inversion H; subst rc. exists res. split; [reflexivity |].
    exact (instantiate_all_complete _ _ _ Hres rule c Hr Hc).
  - split; [| discriminate]. intros rule c Hr Hc.
    apply bind_Ok in H. destruct H as [res [Hres H]].
    inversion H; subst rc. exists res. split; [reflexivity |].
    exact (instantiate_all_complete _ _ _ Hres rule c Hr Hc).
Qed.

Lemma append_parses_complete (r : nat) (current element : ABEntry)
    (combination : list MCFGRuleElementInstance) :
  forall agenda0 n,
    incl agenda0
         (fst (append_parses r current element combination agenda0 n)) /\
    forall c, In c combination ->
      exists n',
        In (new_parse r current element c n')
           (fst (append_parses r current element combination agenda0 n)).
Proof.
  induction combination as [| c0 cs IH]; simpl; intros agenda0 n.
  - split; [apply incl_refl | intros c []].
  - destruct (IH (agenda0 ++ [new_parse r current element c0 n])%list (S n))
      as [Hincl Hnew].
    split.
    + intros x Hx. apply Hincl, in_app_iff. left. exact Hx.
    + intros c [<- | Hc]; [| exact (Hnew c Hc)].
      exists n. apply Hincl, in_app_iff. right. left. reflexivity.
Qed.

Lemma scan_chart_complete (g : MultipleContextFreeGrammar)
    (current : ABEntry) (elements : list ABEntry) :
  forall agenda0 n an,
    scan_chart g current elements agenda0 n = Ok an ->
    incl agenda0 (fst an) /\
    forall element, In element elements ->
      exists rc, _combine g current element = Ok rc /\
        forall combination c,
          snd rc = Some combination -> In c combination ->
          exists n', In (new_parse (fst rc) current element c n') (fst an).
Proof.
  induction elements as [| el rest IH]; simpl; intros agenda0 n an H.
  - inversion H; subst. split; [apply incl_refl | intros element []].
  - apply bind_Ok in H. destruct H as [rc [Hrc H]].
    destruct (IH _ _ an H) as [Hincl Hrest]. split.
    + intros x Hx. apply Hincl. destruct (snd rc) as [comb |]; [| exact Hx].
      apply (proj1 (append_parses_complete (fst rc) current el comb
                      agenda0 n)). exact Hx.
    + intros element [<- | Hel]; [| exact (Hrest element Hel)].
      exists rc. split; [exact Hrc |]. intros comb c Hcomb Hc.
      rewrite Hcomb in Hincl.
      destruct (proj2 (append_parses_complete (fst rc) current el comb
                         agenda0 n) c Hc) as [n' Hn'].
      exists n'. apply Hincl. exact Hn'.
Qed.

Section Closure.

Variable g : MultipleContextFreeGrammar.
Variable words : list string.

Let closed (ch ag : list ABEntry) : Prop :=
  forall i j element current,
    i < j -> nth_error ch i = Some element ->
    nth_error ch j = Some current ->
    exists rc, _combine g current element = Ok rc /\
      forall combination c,
        snd rc = Some combination -> In c combination ->
        exists n', In (new_parse (fst rc) current element c n')
                      (ch ++ ag)%list.

Lemma reachable_closed (st : state) :
  reachable g words st -> closed (chart st) (agenda st).
Proof.
  induction 1 as [st Hinit | st current rest st' Hr IH Hag Hbody].
  - destruct (init_state_agenda g words st Hinit) as [seeds [_ [_ ->]]].
    intros i j element cur _ Hi. destruct i; discriminate Hi.
  - pose proof (reachable_invariant g words st Hr) as Hinv.
    destruct (loop_body_spec g words st st' current rest Hinv Hag Hbody)
      as [news [Ha [Hc _]]].
    unfold loop_body in Hbody.
    apply bind_Ok in Hbody. destruct Hbody as [an [Hscan Hbody]].
    assert (Hfst : agenda st' = fst an).
    { destruct (existsb (Nat.eqb (index current)) (chart_ids st));
        inversion Hbody; reflexivity. }
    destruct (scan_chart_complete g current (chart st) rest (next_id st) an
                Hscan) as [_ Hnew].
    assert (Hincl : incl (chart st ++ agenda st) (chart st' ++ agenda st')).
    { rewrite Ha, Hc, Hag. intros x Hx. apply in_app_iff in Hx.
      rewrite !in_app_iff. simpl. destruct Hx as [Hx | [Hx | Hx]]; tauto. }
    intros i j element cur Hij Hi Hj.
    assert (Hjlen : j < List.length (chart st'))
      by (apply nth_error_Some; rewrite Hj; discriminate).
    rewrite Hc, length_app in Hjlen. simpl in Hjlen.
    rewrite Hc in Hi, Hj.
    rewrite nth_error_app1 in Hi by lia.
    destruct (Nat.eq_dec j (List.length (chart st))) as [Ej | Ej].
    + rewrite nth_error_app2 in Hj by lia.
      replace (j - List.length (chart st)) with 0 in Hj by lia.
      simpl in Hj. inversion Hj; subst cur.
      destruct (Hnew element (nth_error_In _ _ Hi)) as [rc [Hrc Hall]].
      exists rc. split; [exact Hrc |]. intros comb c Hcomb Hcc.
      destruct (Hall comb c Hcomb Hcc) as [n' Hn'].
      exists n'. apply in_app_iff. right. rewrite Hfst. exact Hn'.
    + rewrite nth_error_app1 in Hj by lia.
      destruct (IH i j element cur Hij Hi Hj) as [rc [Hrc Hall]].
      exists rc. split; [exact Hrc |]. intros comb c Hcomb Hcc.
      destruct (Hall comb c Hcomb Hcc) as [n' Hn'].
      exists n'. apply Hincl. exact Hn'.
Qed.

Lemma chart_closed_combine (fuel : nat) (c : list ABEntry) :
  _fill_chart fuel g words = Ok c -> closed c [].
Proof.
  intros H. destruct (_fill_chart_final g words fuel c H)
    as [st [Hr [Hag [Hc _]]]].
  pose proof (reachable_closed st Hr) as Hcl.
  rewrite Hag, Hc in Hcl. exact Hcl.
Qed.

End Closure.

(** X12.  The chart is closed under the combinations that the loop tries.
    For two entries of a returned chart, [element] before [current], every
    instance that a rule of [reduce(current.symbol, element.symbol)]
    returns for the two symbols is the symbol of an entry of the chart
    whose back-pointers name [current], then [element].  The symbols are
    tried in the other order only if no rule reduces them in this one, and
    then with the back-pointers the other way round. *)
Theorem chart_closed (fuel : nat) (g : MultipleContextFreeGrammar)
    (words : list string) (chart : list ABEntry) :
  _fill_chart fuel g words = Ok chart ->
  forall i j element current,
    i < j -> nth_error chart i = Some element ->
    nth_error chart j = Some current ->
    (forall rule c,
       In rule (reduce g [symbol current; symbol element]) ->
       instantiate_left_side rule [symbol current; symbol element]
         = Ok (Some c) ->
       exists e, In e chart /\ symbol e = c /\
         backpointers e =
           [[Some (index current, inst_variable (symbol current));
             Some (index element, inst_variable (symbol element))]]) /\
    (reduce g [symbol current; symbol element] = [] ->
     forall rule c,
       In rule (reduce g [symbol element; symbol current]) ->
       instantiate_left_side rule [symbol element; symbol current]
         = Ok (Some c) ->
       exists e, In e chart /\ symbol e = c /\
         backpointers e =
           [[Some (index element, inst_variable (symbol element));
             Some (index current, inst_variable (symbol current))]]).
Proof.
  intros H i j element current Hij Hi Hj.
  destruct (chart_closed_combine g words fuel chart H i j element current
              Hij Hi Hj) as [rc [Hrc Hall]].
  rewrite app_nil_r in Hall.
  destruct (_combine_complete g current element rc Hrc) as [Hfirst Hsecond].
  split.
  - intros rule c Hr Hc.
    destruct (Hfirst rule c Hr Hc) as [comb [-> Hin]].
    destruct (Hall comb c eq_refl Hin) as [n' Hn'].
    eexists. split; [exact Hn' |]. split; reflexivity.
  - intros Hnone rule c Hr Hc.
    destruct (Hsecond Hnone rule c Hr Hc) as [comb [-> Hin]].
    destruct (Hall comb c eq_refl Hin) as [n' Hn'].
    eexists. split; [exact Hn' |]. split; reflexivity.
Qed.

Lemma chart_closed_witness :
  exists e, In e small_chart /\ symbol e = mkInstance "S" [(0, 2)%Z] /\
            backpointers e = [[Some (0, "A"); Some (1, "B")]].
Proof.
  refine (proj2 (chart_closed 3 small_grammar ["a"; "b"] small_chart eq_refl
                   0 1 (mkEntry (mkInstance "A" [(0, 1)%Z]) 0 [[None; None]])
                   (mkEntry (mkInstance "B" [(1, 2)%Z]) 1 [[None; None]])
                   _ eq_refl eq_refl) eq_refl
            (mkRule (mkElement "S" [[Pos 0; Pos 1]])
                    [mkElement "A" [[Pos 0]]; mkElement "B" [[Pos 1]]])
            (mkInstance "S" [(0, 2)%Z]) _ eq_refl).
  - lia.
  - left. reflexivity.
Defined.

(** ** Grammars on which the parser raises nothing *)

Section Clean.

Variable g : MultipleContextFreeGrammar.
Hypothesis g_clean : forall r, In r (_rules g) -> clean_rule r.

Lemma clean_first_literal (r : MCFGRule) :
  clean_rule r -> is_epsilon r = true -> returns (first_literal r).
Proof.
  intros [_ [_ [Hne Hone]]] Heps. destruct (Hone Heps) as [vs Hvs].
  unfold first_literal. rewrite Hvs. destruct vs as [| v vs].
  - exfalso. apply Hne. rewrite Hvs. left. reflexivity.
  - exists v. reflexivity.
Qed.

Lemma clean_seed_entry (word : string) (idx : nat) (rule : MCFGRule) :
  clean_rule rule -> is_epsilon rule = true ->
  first_literal rule = Ok (Word word) ->
  returns (seed_entry word idx rule).
Proof.
  intros [_ [_ [_ Hone]]] Heps Hlit. destruct (Hone Heps) as [vs Hvs].
  unfold first_literal in Hlit. rewrite Hvs in Hlit.
  assert (Hm : mapM first_of [vs] = Ok [Word word])
    by (simpl; rewrite Hlit; reflexivity).
  unfold seed_entry, instantiate_left_side. rewrite Heps, Hvs, Hm.
  cbn [bind map inst_variable].
  destruct (list_eq_dec strvar_eq_dec [Word word] [Word word]) as [_ | Hn];
    [| contradiction]. eexists. reflexivity.
Qed.

Lemma clean_seed (words : list string) :
  forall idx, returns (seed g idx words).
Proof.
  induction words as [| word words IH]; intros idx; simpl.
  - exists []. reflexivity.
  - destruct (lexical_rules_spec (_rules g) word) as [l [Hl Hspec]].
    { intros r Hr Heps. exact (clean_first_literal r (g_clean r Hr) Heps). }
    unfold parts_of_speech. rewrite Hl. simpl.
    destruct (mapM_Ok_all (seed_entry word idx) l) as [es Hes].
    { intros rule Hrule. apply Hspec in Hrule.
      destruct Hrule as [Hin [Heps Hlit]].
      exact (clean_seed_entry word idx rule (g_clean rule Hin) Heps Hlit). }
    rewrite Hes. simpl. destruct (IH (S idx)) as [rest Hrest].
    rewrite Hrest. simpl. eexists. reflexivity.
Qed.

Lemma clean_instantiate (r : MCFGRule) (rs : list MCFGRuleElementInstance) :
  clean_rule r -> is_epsilon r = false -> _right_side_aligns r rs = true ->
  returns (instantiate_left_side r rs).
Proof.
  intros [Hvalid [Hsingle [Hne _]]] Heps Haligns.
  unfold instantiate_left_side. rewrite Heps. unfold instantiate_by_span_map.
  destruct (single_variables_resolve r rs Hsingle Hvalid Heps Haligns Hne)
    as [m [Hm Hres]].
  rewrite Hm. simpl.
  destruct (new_spans_of_spec m (string_variables (left_side r)) Hres)
    as [[-> _] | [-> _]]; simpl; eexists; reflexivity.
Qed.

Lemma clean_instantiate_all (a b : MCFGRuleElementInstance) :
  returns (instantiate_all (reduce g [a; b]) [a; b]).
Proof.
  unfold instantiate_all.
  destruct (mapM_Ok_all (fun r => instantiate_left_side r [a; b])
              (reduce g [a; b])) as [l Hl].
  - intros r Hr. apply reduce_aligns in Hr. destruct Hr as [Hin Hal].
    exact (clean_instantiate r [a; b] (g_clean r Hin)
             (aligns_not_epsilon r a [b] Hal) Hal).
  - rewrite Hl. simpl. eexists. reflexivity.
Qed.

Lemma clean_combine (current element : ABEntry) :
  returns (_combine g current element).
Proof.
  unfold _combine.
  destruct (clean_instantiate_all (symbol current) (symbol element))
    as [l0 H0].
  destruct (clean_instantiate_all (symbol element) (symbol current))
    as [l1 H1].
  destruct (reduce g [symbol current; symbol element]).
  - destruct (reduce g [symbol element; symbol current]).
    + eexists. reflexivity.
    + rewrite H1. simpl. eexists. reflexivity.
  - rewrite H0. simpl. eexists. reflexivity.
Qed.

Lemma clean_scan_chart (current : ABEntry) (elements : list ABEntry) :
  forall agenda0 n, returns (scan_chart g current elements agenda0 n).
Proof.
  induction elements as [| element rest IH]; intros agenda0 n; simpl.
  - eexists. reflexivity.
  - destruct (clean_combine current element) as [rc ->]. simpl. apply IH.
Qed.

Lemma clean_loop_body (current : ABEntry) (rest : list ABEntry)
    (st : state) :
  returns (loop_body g current rest st).
Proof.
  unfold loop_body.
  destruct (clean_scan_chart current (chart st) rest (next_id st))
    as [an ->]. simpl.
  destruct (existsb (Nat.eqb (index current)) (chart_ids st));
    eexists; reflexivity.
Qed.

Lemma clean_while_agenda (fuel : nat) :
  forall st, returns (while_agenda fuel g st) \/
             while_agenda fuel g st = OutOfFuel.
Proof.
  induction fuel as [| fuel IH]; intros st; simpl.
  - destruct (agenda st); [left; eexists; reflexivity | right; reflexivity].
  - destruct (agenda st) as [| current rest];
      [left; eexists; reflexivity |].
    destruct (clean_loop_body current rest st) as [st' ->]. simpl. apply IH.
Qed.

Lemma clean_fill_chart (fuel : nat) (words : list string) :
  benign (_fill_chart fuel g words).
Proof.
  unfold benign, _fill_chart, init_state.
  destruct (clean_seed words 0) as [seeds ->]. simpl.
  destruct seeds as [| s0 seeds]; simpl; [right; left; reflexivity |].
  destruct (clean_while_agenda fuel
              (mkState (reindex 0 (s0 :: seeds)) [] []
                       (List.length (s0 :: seeds)))) as [H | H];
    [left | right; right]; exact H.
Qed.

End Clean.

Ltac clean_concrete :=
  split; [reflexivity |]; split;
  [ let Hel := fresh "Hel" in
    let Hvs := fresh "Hvs" in
    intros ? ? Hel Hvs; simpl in Hel;
    repeat (destruct Hel as [<- | Hel];
            [simpl in Hvs;
             repeat (destruct Hvs as [<- | Hvs]; [eexists; reflexivity |]);
             destruct Hvs |]);
    destruct Hel
  | split;
    [ let H := fresh "H" in
      simpl; intros H;
      repeat (destruct H as [H | H]; [discriminate H |]); destruct H
    | let H := fresh "H" in
      intros H; first [discriminate H | eexists; reflexivity] ] ].

Lemma small_grammar_clean :
  forall r, In r (_rules small_grammar) -> clean_rule r.
Proof.
  intros r [<- | [<- | [<- | []]]]; clean_concrete.
Qed.

Lemma clean_benign (fuel : nat) (g : MultipleContextFreeGrammar)
    (words : list string) :
  (forall r, In r (_rules g) -> clean_rule r) ->
  benign (_fill_chart fuel g words) /\
  benign (_recognize fuel g words) /\
  benign (_parse fuel g words).
Proof.
  intros Hclean. pose proof (clean_fill_chart g Hclean fuel words) as Hfill.
  split; [exact Hfill |]. unfold _recognize, _parse.
  destruct Hfill as [[c Hc] | [Hc | Hc]].
  - pose proof (start_nodes_parsed fuel g words c Hc) as [trees Htrees].
    rewrite Hc. cbn [bind]. split; left.
    + eexists. reflexivity.
    + destruct (Nat.leb 1 (List.length (filter (is_start_node g words) c)));
        [rewrite Htrees; cbn [bind] |]; eexists; reflexivity.
  - rewrite Hc. simpl. split; right; left; reflexivity.
  - rewrite Hc. simpl. split; right; right; reflexivity.
Qed.

(** X13.  On a grammar whose rules are all accepted by the constructor,
    have one variable in each component of the right side, no empty
    component on the left side and, if lexical, one component, the parser
    raises no [ValueError], [KeyError], [IndexError], [TypeError] or
    [AttributeError]: [_fill_chart], [_recognize] and [_parse] return, or
    raise the [UnboundLocalError] of an input for which nothing is seeded,
    or are still running when the bound on the rounds is reached. *)
Theorem clean_grammar_benign (fuel : nat) (g : MultipleContextFreeGrammar)
    (words : list string) :
  (forall r, In r (_rules g) ->
     _validate r = Ok tt /\
     (forall el vs, In el (right_side r) -> In vs (string_variables el) ->
        exists v, vs = [v]) /\
     ~ In [] (string_variables (left_side r)) /\
     (is_epsilon r = true ->
      exists vs, string_variables (left_side r) = [vs])) ->
  benign (_fill_chart fuel g words) /\
  benign (_recognize fuel g words) /\
  benign (_parse fuel g words).
Proof.
  exact (clean_benign fuel g words).
Qed.

Lemma clean_grammar_benign_witness :
  benign (_fill_chart 3 small_grammar ["a"; "b"]) /\
  benign (_recognize 3 small_grammar ["a"; "b"]) /\
  benign (_parse 3 small_grammar ["a"; "b"]).
Proof.
  apply (clean_grammar_benign 3 small_grammar ["a"; "b"]).
  exact small_grammar_clean.
Defined.

(** ** The trees of a parse *)

Lemma tree_eqb_Node (d e : string) (cs ds : list Tree) :
  tree_eqb (Node d cs) (Node e ds) = String.eqb d e && forest_eqb cs ds.
Proof.
  reflexivity.
Qed.

Lemma tree_eqb_eq (t : Tree) : forall u, tree_eqb t u = true <-> t = u.
Proof.
  induction t as [d cs IH] using Tree_forall_ind. intros [e ds].
  rewrite tree_eqb_Node, andb_true_iff, String.eqb_eq.
  assert (Hcs : forall ds, forest_eqb cs ds = true <-> cs = ds).
  { clear ds. induction IH as [| c cs Hc _ IHcs]; intros [| b ds]; simpl;
      try (split; [reflexivity | reflexivity]);
      try (split; discriminate).
    rewrite andb_true_iff, Hc, IHcs. split.
    - intros [-> ->]. reflexivity.
    - intros H. inversion H. auto. }
  rewrite Hcs. split.
  - intros [-> ->]. reflexivity.
  - intros H. inversion H. auto.
Qed.

Lemma existsb_tree_eqb (t : Tree) (l : list Tree) :
  existsb (tree_eqb t) l = true <-> In t l.
Proof.
  rewrite existsb_exists. split.
  - intros [u [Hu E]]. apply (proj1 (tree_eqb_eq t u)) in E. subst u.
    exact Hu.
  - intros H. exists t. split; [exact H | apply tree_eqb_eq; reflexivity].
Qed.

Lemma set_of_In (l : list Tree) (t : Tree) : In t (set_of l) <-> In t l.
Proof.
  induction l as [| u l IH]; simpl; [tauto |].
  destruct (existsb (tree_eqb u) l) eqn:E.
  - rewrite IH. split; [auto |]. intros [<- | H]; [| exact H].
    apply (proj1 (existsb_tree_eqb u l)). exact E.
  - simpl. rewrite IH. tauto.
Qed.

Lemma set_of_NoDup (l : list Tree) : NoDup (set_of l).
Proof.
  induction l as [| u l IH]; simpl; [constructor |].
  destruct (existsb (tree_eqb u) l) eqn:E; [exact IH |].
  constructor; [| exact IH]. intros H.
  apply (proj1 (set_of_In l u)) in H.
  apply (proj2 (existsb_tree_eqb u l)) in H. rewrite H in E. discriminate.
Qed.

(** X14.  The set that [_parse] returns: it holds no tree twice, and its
    trees are exactly the trees that [_construct_parses] builds for the
    entries of the chart whose variable is a start variable and whose spans
    are [((0, len(string)),)]. *)
Theorem parse_set (fuel : nat) (g : MultipleContextFreeGrammar)
    (words : list string) (chart : list ABEntry) (trees : list Tree) :
  _fill_chart fuel g words = Ok chart ->
  _parse fuel g words = Ok (Some trees) ->
  NoDup trees /\
  forall t, In t trees <->
    exists e, In e chart /\ start_entry g words e /\
              _construct_parses fuel chart words e = Ok t.
Proof.
  intros Hc H. unfold _parse in H. rewrite Hc in H. cbn [bind] in H.
  destruct (Nat.leb 1 (List.length (filter (is_start_node g words) chart)));
    [| discriminate].
  apply bind_Ok in H. destruct H as [ts [Hts H]].
  inversion H; subst trees. split; [apply set_of_NoDup |].
  intros t. rewrite set_of_In. split.
  - intros Ht. destruct (mapM_In _ _ ts Hts t Ht) as [e [He Hte]].
    apply filter_In in He. destruct He as [He Hstart].
    exists e. split; [exact He |]. split; [| exact Hte].
    apply is_start_node_spec. exact Hstart.
  - intros [e [He [Hstart Hte]]].
    apply (mapM_In_Ok _ _ ts Hts e t); [| exact Hte].
    apply filter_In. split; [exact He |].
    apply is_start_node_spec. exact Hstart.
Qed.

Lemma parse_set_witness :
  exists trees,
    NoDup trees /\
    forall t, In t trees <->
      exists e, In e small_chart /\ start_entry small_grammar ["a"; "b"] e /\
                _construct_parses 3 small_chart ["a"; "b"] e = Ok t.
Proof.
  eexists.
  apply (parse_set 3 small_grammar ["a"; "b"] small_chart _ eq_refl).
  reflexivity.
Defined.

(** ** The shape of the trees *)

Lemma seeded_leaf (g : MultipleContextFreeGrammar) (words : list string)
    (e : ABEntry) :
  seeded g words e -> is_leaf e = true.
Proof.
  intros [Hbp _]. unfold is_leaf. rewrite Hbp. reflexivity.
Qed.

Lemma derived_not_leaf (g : MultipleContextFreeGrammar) (l : list ABEntry)
    (e : ABEntry) :
  derived_from g l e -> is_leaf e = false.
Proof.
  intros [e0 [e1 [rule [_ [_ [_ [_ [Hbp _]]]]]]]].
  unfold is_leaf. rewrite Hbp. reflexivity.
Qed.

Lemma _construct_parses_shape (g : MultipleContextFreeGrammar)
    (words : list string) (chart : list ABEntry) :
  Forall (fun e => seeded g words e \/ derived_from g chart e) chart ->
  forall depth e t,
    In e chart ->
    _construct_parses depth chart words e = Ok t ->
    binary t = true /\
    Forall (lexical_leaf g words) (terminals t) /\
    (is_leaf e = true -> children t = []) /\
    (is_leaf e = false ->
     data t = inst_variable (symbol e) /\ List.length (children t) = 2).
Proof.
  intros Hchart. rewrite Forall_forall in Hchart.
  induction depth as [| depth IH]; intros e t He H; [discriminate |].
  simpl in H. destruct (Hchart e He) as [Hs | Hd].
  - pose proof (seeded_leaf g words e Hs) as Hleaf. rewrite Hleaf in H.
    destruct Hs as [_ [idx [word [rule [Hw [Hr [Heps [Hlit Hsym]]]]]]]].
    rewrite Hsym in H. cbn [string_spans inst_variable fst] in H.
    rewrite (proj2 (py_getitem_nth words idx word) Hw) in H.
    cbn [bind] in H. inversion H; subst t. split; [reflexivity |].
    split; [| split; [reflexivity | intros E]].
    + constructor; [| constructor]. exists rule, word.
      split; [exact (nth_error_In _ _ Hw) |]. auto.
    + rewrite Hleaf in E. discriminate E.
  - pose proof (derived_not_leaf g chart e Hd) as Hleaf. rewrite Hleaf in H.
    destruct Hd as [e0 [e1 [rule [_ [_ [_ [_ [Hbp _]]]]]]]].
    rewrite Hbp in H. cbn [List.concat app mapM] in H.
    apply bind_Ok in H. destruct H as [children0 [Hch H]].
    inversion H; subst t; clear H.
    apply bind_Ok in Hch. destruct Hch as [t0 [Ht0 Hch]].
    apply bind_Ok in Hch. destruct Hch as [ts [Hts Hch]].
    inversion Hch; subst children0; clear Hch.
    apply bind_Ok in Hts. destruct Hts as [t1 [Ht1 Hts]].
    apply bind_Ok in Hts. destruct Hts as [ts' [Hts' Hts]].
    inversion Hts' ; subst ts'. inversion Hts; subst ts; clear Hts Hts'.
    destruct (_get_item chart (index e0)) as [c0 |] eqn:E0; [| discriminate].
    destruct (_get_item chart (index e1)) as [c1 |] eqn:E1; [| discriminate].
    apply _get_item_first in E0. destruct E0 as [b0 [a0 [Hc0 _]]].
    apply _get_item_first in E1. destruct E1 as [b1 [a1 [Hc1 _]]].
    assert (Hin0 : In c0 chart)
      by (rewrite Hc0; apply in_app_iff; right; left; reflexivity).
    assert (Hin1 : In c1 chart)
      by (rewrite Hc1; apply in_app_iff; right; left; reflexivity).
    destruct (IH c0 t0 Hin0 Ht0) as [Hb0 [Hl0 _]].
    destruct (IH c1 t1 Hin1 Ht1) as [Hb1 [Hl1 _]].
    split; [simpl; rewrite Hb0, Hb1; reflexivity |].
    split; [| split; [intros E | intros _; split; reflexivity]].
    + rewrite terminals_Node. simpl. rewrite app_nil_r.
      apply Forall_app. split; assumption.
    + rewrite Hleaf in E. discriminate E.
Qed.

(** X15.  The trees that [_parse] returns branch in two: every node has no
    child or two.  Each leaf is labelled [V(w)] for a word [w] of the input
    and a lexical rule of the grammar with left variable [V] and first
    literal [w]; the root of a tree with children is labelled with the name
    of a start variable. *)
Theorem parse_trees_shape (fuel : nat) (g : MultipleContextFreeGrammar)
    (words : list string) (trees : list Tree) :
  _parse fuel g words = Ok (Some trees) ->
  forall t, In t trees ->
    binary t = true /\
    Forall (lexical_leaf g words) (terminals t) /\
    (children t <> [] -> In (data t) (map variable (_start_variables g))).
Proof.
  intros H t Ht. unfold _parse in H.
  destruct (_fill_chart fuel g words) as [chart | e |] eqn:Hc;
    try discriminate.
  cbn [bind] in H.
  destruct (Nat.leb 1 (List.length (filter (is_start_node g words) chart)));
    [| discriminate].
  apply bind_Ok in H. destruct H as [ts [Hts H]].
  inversion H; subst trees. apply (proj1 (set_of_In ts t)) in Ht.
  destruct (mapM_In _ _ ts Hts t Ht) as [e [He Hte]].
  apply filter_In in He. destruct He as [He Hstart].
  apply is_start_node_spec in Hstart. destruct Hstart as [Hvar _].
  destruct (_construct_parses_shape g words chart
              (_fill_chart_derivations fuel g words chart Hc)
              fuel e t He Hte) as [Hb [Hl [Hleaf Hinner]]].
  split; [exact Hb |]. split; [exact Hl |]. intros Hch.
  destruct (is_leaf e) eqn:E.
  - exfalso. apply Hch. apply Hleaf. reflexivity.
  - destruct (Hinner eq_refl) as [-> _]. exact Hvar.
Qed.

Lemma parse_trees_shape_witness :
  binary (Node "S" [Node "A(a)" []; Node "B(b)" []]) = true /\
  Forall (lexical_leaf small_grammar ["a"; "b"])
         (terminals (Node "S" [Node "A(a)" []; Node "B(b)" []])) /\
  (children (Node "S" [Node "A(a)" []; Node "B(b)" []]) <> [] ->
   In (data (Node "S" [Node "A(a)" []; Node "B(b)" []]))
      (map variable (_start_variables small_grammar))).
Proof.
  apply (parse_trees_shape 3 small_grammar ["a"; "b"]
           [Node "S" [Node "A(a)" []; Node "B(b)" []]] eq_refl).
  left. reflexivity.
Defined.

(** ** The rules that [from_string] builds *)

Lemma from_string_form (text : string) (r : MCFGRule) :
  from_string text = Ok r ->
  _validate r = Ok tt /\
  Forall (fun el => word (variable el) /\ string_variables el <> [])
         (left_side r :: right_side r) /\
  (is_epsilon r = true ->
   exists svs, svs <> [] /\ string_variables (left_side r) = [map Word svs]) /\
  (is_epsilon r = false ->
   flat_map string_variables (right_side r) =
     map (fun i => [Pos i]) (seq 0 (rank r)) /\
   forall vs v, In vs (string_variables (left_side r)) -> In v vs ->
     exists i, v = Pos i /\ i < rank r).
Proof.
  intros H. rewrite from_string_tuples in H.
  pose proof (elem_tuples_sound text) as Hsound.
  destruct (elem_tuples_of text) as [| [var svs] rest]; [discriminate |].
  destruct (Hsound var svs (or_introl eq_refl))
    as [Hvar [body [Hbody Hsvs]]].
  assert (Hne : svs <> [])
    by (rewrite Hsvs; apply split_strip_nonempty).
  destruct rest as [| p rest]; simpl in H.
  - apply MCFGRule_init_Ok in H. destruct H as [-> Hvalid].
    split; [exact Hvalid |]. split; [| split].
    + constructor; [| constructor]. split; [exact Hvar | discriminate].
    + intros _. exists svs. split; [exact Hne | reflexivity].
    + intros E. discriminate E.
  - set (rights := p :: rest) in *.
    set (strvars := flat_map snd rights) in *.
    change (snd p ++ flat_map snd rest)%list with strvars in H.
    destruct (all_distinct strvars) eqn:Hdistinct; [| discriminate].
    apply bind_Ok in H. destruct H as [comps [Hcomps H]].
    apply bind_Ok in H. destruct H as [rights' [Hrights H]].
    apply MCFGRule_init_Ok in H. destruct H as [-> Hvalid].
    split; [exact Hvalid |].
    destruct (rights_components strvars rights rights' Hrights)
      as [Hflat Hall].
    pose proof (eq_trans (eq_sym Hflat)
                  (index_distinct strvars [] Hdistinct)) as Hnum.
    inversion Hnum as [Hnum'].
    assert (Hrank : rank (mkRule (mkElement var comps) rights')
                    = List.length strvars).
    { unfold rank. simpl. rewrite Hnum', length_map, length_seq.
      reflexivity. }
    assert (Hr : rights' <> []).
    { inversion Hall; subst. discriminate. }
    split; [| split].
    + constructor.
      * split; [exact Hvar |]. simpl.
        apply mapM_length in Hcomps. simpl in Hcomps. intros Hnil.
        rewrite Hnil in Hcomps. simpl in Hcomps.
        destruct svs; [contradiction | discriminate].
      * apply Forall_forall. intros e He.
        destruct (Forall2_In_r _ _ _ Hall e He) as [[v s] [Hin [Hv Hlen]]].
        simpl in Hv, Hlen.
        destruct (Hsound v s (or_intror Hin)) as [Hword [b [_ Hs]]].
        split; [rewrite Hv; exact Hword |].
        intros Hnil. rewrite Hnil, Hs in Hlen. simpl in Hlen.
        apply (split_strip_nonempty b).
        destruct (map strip (split_on "," b)); [reflexivity | discriminate].
    + intros E. unfold is_epsilon in E. simpl in E.
      destruct rights'; [contradiction | discriminate].
    + intros _. rewrite Hrank. split; [exact Hnum' |].
      simpl. intros vs v Hvs Hv.
      pose proof (mapM_Forall _
                    (fun vs => Forall (fun v => exists i, v = Pos i /\
                                         i < List.length strvars) vs)
                    _ _ Hcomps) as HF.
      rewrite Forall_forall in HF.
      assert (Hvs' : Forall (fun v => exists i, v = Pos i /\
                                        i < List.length strvars) vs).
      { apply HF; [| exact Hvs]. intros s vs' _ Hvs'.
        apply (mapM_Forall _ _ _ _ Hvs'). intros v0 b _ Hb.
        apply bind_Ok in Hb. destruct Hb as [k [Hk Hb]].
        inversion Hb; subst. exists k. split; [reflexivity |].
        apply (index_of_lt _ _ _ Hk). }
      rewrite Forall_forall in Hvs'. exact (Hvs' v Hv).
Qed.

(** X16.  A rule that [from_string] returns has passed the validation of
    the constructor; the names of its elements are words ([\w+]) and every
    element has a component.  A rule without a right side has one
    component, the tuple of its literals.  In a rule with a right side the
    components of the right side hold one variable each, the positions
    [0, 1, ..., n-1] from left to right, and the left side names positions
    below [n] only. *)
Theorem from_string_shape (rule_string : string) (r : MCFGRule) :
  from_string rule_string = Ok r ->
  _validate r = Ok tt /\
  Forall (fun el => word (variable el) /\ string_variables el <> [])
         (left_side r :: right_side r) /\
  (is_epsilon r = true ->
   exists svs, svs <> [] /\ string_variables (left_side r) = [map Word svs]) /\
  (is_epsilon r = false ->
   flat_map string_variables (right_side r) =
     map (fun i => [Pos i]) (seq 0 (rank r)) /\
   forall vs v, In vs (string_variables (left_side r)) -> In v vs ->
     exists i, v = Pos i /\ i < rank r).
Proof.
  apply from_string_form.
Qed.

Lemma from_string_shape_witness :
  _validate rule_1 = Ok tt /\
  Forall (fun el => word (variable el) /\ string_variables el <> [])
         (left_side rule_1 :: right_side rule_1) /\
  (is_epsilon rule_1 = true ->
   exists svs, svs <> [] /\
               string_variables (left_side rule_1) = [map Word svs]) /\
  (is_epsilon rule_1 = false ->
   flat_map string_variables (right_side rule_1) =
     map (fun i => [Pos i]) (seq 0 (rank rule_1)) /\
   forall vs v, In vs (string_variables (left_side rule_1)) -> In v vs ->
     exists i, v = Pos i /\ i < rank rule_1).
Proof.
  apply (from_string_shape "VPwhrc(v, uw) -> Vpres(u) Sbarwhrc(v, w)").
  reflexivity.
Defined.

Lemma from_string_clean (text : string) (r : MCFGRule) :
  from_string text = Ok r ->
  ~ In [] (string_variables (left_side r)) ->
  clean_rule r.
Proof.
  intros H Hne.
  destruct (from_string_form text r H) as [Hvalid [_ [Heps Hrhs]]].
  split; [exact Hvalid |]. split; [| split; [exact Hne |]].
  - intros el vs Hel Hvs.
    assert (E : is_epsilon r = false).
    { unfold is_epsilon. destruct (right_side r); [destruct Hel | reflexivity]. }
    destruct (Hrhs E) as [Hnum _].
    destruct (right_components (right_side r) (rank r) Hnum el vs Hel Hvs)
      as [i [-> _]].
    exists (Pos i). reflexivity.
  - intros E. destruct (Heps E) as [svs [_ Hsvs]].
    exists (map Word svs). exact Hsvs.
Qed.

(** X17.  The rules of [from_string] and the parser: on a grammar whose
    rules were all read by [from_string] and have no empty component on
    their left side, [_fill_chart], [_recognize] and [_parse] raise no
    [ValueError], [KeyError], [IndexError], [TypeError] or
    [AttributeError]; they return, or raise the [UnboundLocalError] of an
    input for which nothing is seeded, or are still running when the bound
    on the rounds is reached. *)
Theorem from_string_grammar_benign (fuel : nat)
    (g : MultipleContextFreeGrammar) (words : list string) :
  (forall r, In r (_rules g) ->
     exists rule_string,
       from_string rule_string = Ok r /\
       ~ In [] (string_variables (left_side r))) ->
  benign (_fill_chart fuel g words) /\
  benign (_recognize fuel g words) /\
  benign (_parse fuel g words).
Proof.
  intros H. apply clean_benign. intros r Hr.
  destruct (H r Hr) as [text [Htext Hne]].
  exact (from_string_clean text r Htext Hne).
Qed.

Lemma from_string_grammar_benign_witness :
  benign (_fill_chart 3 small_grammar ["a"; "b"]) /\
  benign (_recognize 3 small_grammar ["a"; "b"]) /\
  benign (_parse 3 small_grammar ["a"; "b"]).
Proof.
  apply (from_string_grammar_benign 3 small_grammar ["a"; "b"]).
  intros r [<- | [<- | [<- | []]]].
  - exists "S(uv) -> A(u) B(v)". split; [reflexivity |].
    intros [E | []]; discriminate E.
  - exists "A(a)". split; [reflexivity |].
    intros [E | []]; discriminate E.
  - exists "B(b)". split; [reflexivity |].
    intros [E | []]; discriminate E.
Defined.

(** ** Text without an element *)

Lemma no_paren_append (a b : string) :
  all_chars (fun c => negb (Ascii.eqb c "(")) (a ++ String "(" b) = false.
Proof.
  induction a as [| x a IH]; simpl; [reflexivity |].
  rewrite IH. apply andb_false_r.
Qed.

Lemma elem_pattern_no_paren (s : string) :
  all_chars (fun c => negb (Ascii.eqb c "(")) s = true ->
  pm elem_pattern (s, []) = [].
Proof.
  intros H. destruct (pm elem_pattern (s, [])) as [| st sts] eqn:E;
    [reflexivity |].
  destruct (elem_pattern_sound s st) as [name [body [_ [_ [Hs _]]]]].
  { rewrite E. left. reflexivity. }
  rewrite Hs in H.
  change (name ++ "(" ++ body ++ ")" ++ fst st)
    with (name ++ String "(" (body ++ ")" ++ fst st)) in H.
  rewrite no_paren_append in H. discriminate H.
Qed.

Lemma scan_no_paren (s : string) :
  all_chars (fun c => negb (Ascii.eqb c "(")) s = true ->
  scan elem_pattern s 0 = [].
Proof.
  induction s as [| x s IH]; intros H.
  - exact elem_pattern_end.
  - rewrite (scan_fail elem_pattern x s (elem_pattern_no_paren _ H)).
    apply IH. change (all_chars (fun c => negb (Ascii.eqb c "(")) (String x s))
      with (negb (Ascii.eqb x "(") &&
            all_chars (fun c => negb (Ascii.eqb c "(")) s) in H.
    apply andb_true_iff in H. exact (proj2 H).
Qed.

(** X18.  A rule string without an opening parenthesis, the empty string
    among them, holds no element: [from_string] raises [IndexError] on it,
    not the [ValueError] of its other rejections. *)
Theorem from_string_no_element (rule_string : string) :
  all_chars (fun c => negb (Ascii.eqb c "(")) rule_string = true ->
  from_string rule_string = Raise IndexError.
Proof.
  intros H. unfold from_string, findall2.
  rewrite (scan_no_paren rule_string H). reflexivity.
Qed.

Lemma from_string_no_element_witness :
  from_string "" = Raise IndexError /\
  from_string "S -> NP VP" = Raise IndexError.
Proof.
  split.
  - apply (from_string_no_element ""). reflexivity.
  - apply (from_string_no_element "S -> NP VP"). reflexivity.
Defined.

(** ** The order of the chart *)

Lemma seed_entries_symbols (word : string) (idx : nat)
    (rules : list MCFGRule) :
  (forall r, In r rules -> is_epsilon r = true) ->
  forall entries,
    mapM (seed_entry word idx) rules = Ok entries ->
    map symbol entries =
    map (fun rule => mkInstance (variable (left_side rule))
                       [(Z.of_nat idx, (Z.of_nat idx + 1)%Z)]) rules /\
    Forall (fun e => backpointers e = [[None; None]]) entries.
Proof.
  induction rules as [| rule rules IH]; simpl; intros Heps entries H.
  - inversion H; subst. split; [reflexivity | constructor].
  - apply bind_Ok in H. destruct H as [e [He H]].
    apply bind_Ok in H. destruct H as [es [Hes H]].
    inversion H; subst entries; clear H.
    destruct (IH (fun r Hr => Heps r (or_intror Hr)) es Hes) as [Hsym Hbp].
    unfold seed_entry in He.
    apply bind_Ok in He. destruct He as [o [Ho He]].
    rewrite (seed_symbol rule _ o (Heps rule (or_introl eq_refl)) Ho) in He.
    inversion He; subst e. simpl. rewrite Hsym.
    split; [reflexivity | constructor; [reflexivity | exact Hbp]].
Qed.

Lemma seed_seed_symbols (g : MultipleContextFreeGrammar)
    (words : list string) :
  forall idx seeds,
    seed g idx words = Ok seeds ->
    seed_symbols g idx words = Ok (map symbol seeds) /\
    Forall (fun e => backpointers e = [[None; None]]) seeds.
Proof.
  induction words as [| word words IH]; simpl; intros idx seeds H.
  - inversion H; subst. split; [reflexivity | constructor].
  - apply bind_Ok in H. destruct H as [rules [Hrules H]].
    apply bind_Ok in H. destruct H as [es [Hes H]].
    apply bind_Ok in H. destruct H as [rest [Hrest H]].
    inversion H; subst seeds; clear H.
    destruct (IH (S idx) rest Hrest) as [Hsyms Hbps].
    destruct (seed_entries_symbols word idx rules
                (lexical_rules_epsilon _ _ _ Hrules) es Hes) as [Hsym Hbp].
    rewrite Hrules, Hsyms. simpl. rewrite map_app, Hsym.
    split; [reflexivity | apply Forall_app; split; assumption].
Qed.

Lemma reindex_symbols (entries : list ABEntry) :
  forall n,
    map symbol (reindex n entries) = map symbol entries /\
    map backpointers (reindex n entries) = map backpointers entries.
Proof.
  induction entries as [| e es IH]; intros n; simpl; [auto |].
  destruct (IH (S n)) as [-> ->]. auto.
Qed.

Lemma reachable_order (g : MultipleContextFreeGrammar) (words : list string)
    (st : state) :
  reachable g words st ->
  exists seeds derived,
    seed g 0 words = Ok seeds /\
    (chart st ++ agenda st)%list = (reindex 0 seeds ++ derived)%list /\
    Forall derived_shape derived.
Proof.
  induction 1 as [st Hinit | st current rest st' Hr IH Hag Hbody].
  - destruct (init_state_agenda g words st Hinit) as [seeds [Hs [-> ->]]].
    exists seeds, []. rewrite app_nil_r. auto.
  - destruct IH as [seeds [derived [Hs [Heq Hd]]]].
    destruct (loop_body_spec g words st st' current rest
                (reachable_invariant g words st Hr) Hag Hbody)
      as [news [Ha [Hc [_ [_ [Hsh _]]]]]].
    exists seeds, (derived ++ news)%list. split; [exact Hs |].
    split; [| apply Forall_app; split; assumption].
    rewrite Ha, Hc, (app_assoc (reindex 0 seeds) derived news), <- Heq, Hag.
    rewrite <- !app_assoc. reflexivity.
Qed.

(** X19.  The order of a returned chart: first the seeds, word after word
    in the order of the input and for each word one seed for each of its
    lexical rules, with the back-pointers [(None, None)]; then the derived
    entries, each with one pair of back-pointers to entries with smaller
    ids. *)
Theorem chart_order (fuel : nat) (g : MultipleContextFreeGrammar)
    (words : list string) (chart : list ABEntry) :
  _fill_chart fuel g words = Ok chart ->
  exists seeds derived symbols,
    chart = (seeds ++ derived)%list /\
    seed_symbols g 0 words = Ok symbols /\
    symbols <> [] /\
    map symbol seeds = symbols /\
    Forall (fun e => backpointers e = [[None; None]]) seeds /\
    Forall (fun e =>
              exists i0 n0 i1 n1,
                backpointers e = [[Some (i0, n0); Some (i1, n1)]] /\
                i0 < index e /\ i1 < index e) derived.
Proof.
  intros H. destruct (_fill_chart_final g words fuel chart H)
    as [st [Hr [Hag [Hc _]]]].
  destruct (reachable_order g words st Hr) as [seeds [derived [Hs [Heq Hd]]]].
  rewrite Hag, app_nil_r, Hc in Heq.
  destruct (seed_seed_symbols g words 0 seeds Hs) as [Hsyms Hbps].
  destruct (reindex_symbols seeds 0) as [Hsym Hbp].
  exists (reindex 0 seeds), derived, (map symbol seeds).
  split; [exact Heq |]. split; [exact Hsyms |]. split; [| split; [| split]].
  - unfold _fill_chart, init_state in H. rewrite Hs in H. simpl in H.
    destruct seeds; [discriminate H | discriminate].
  - exact Hsym.
  - apply Forall_forall. intros e He.
    assert (Hin : In (backpointers e) (map backpointers (reindex 0 seeds)))
      by (apply in_map; exact He).
    rewrite Hbp in Hin. apply in_map_iff in Hin.
    destruct Hin as [e0 [He0 Hin0]]. rewrite Forall_forall in Hbps.
    rewrite <- He0. exact (Hbps e0 Hin0).
  - exact Hd.
Qed.

Lemma chart_order_witness :
  exists seeds derived symbols,
    small_chart = (seeds ++ derived)%list /\
    seed_symbols small_grammar 0 ["a"; "b"] = Ok symbols /\
    symbols <> [] /\
    map symbol seeds = symbols /\
    Forall (fun e => backpointers e = [[None; None]]) seeds /\
    Forall (fun e =>
              exists i0 n0 i1 n1,
                backpointers e = [[Some (i0, n0); Some (i1, n1)]] /\
                i0 < index e /\ i1 < index e) derived.
Proof.
  apply (chart_order 3 small_grammar ["a"; "b"] small_chart). reflexivity.
Defined.

(** ** The edges of indexing a tree *)

Lemma py_getitem_cases {A : Type} (l : list A) (i : Z) :
  returns (py_getitem l i) \/ py_getitem l i = Raise IndexError.
Proof.
  unfold py_getitem.
  destruct ((0 <=? (if (i <? 0)%Z then (i + Z.of_nat (List.length l))%Z
                    else i))%Z &&
            ((if (i <? 0)%Z then (i + Z.of_nat (List.length l))%Z else i)
               <? Z.of_nat (List.length l))%Z); [| right; reflexivity].
  destruct (nth_error l _) as [a |];
    [left; exists a; reflexivity | right; reflexivity].
Qed.

Lemma py_getitem_outside {A : Type} (l : list A) (i : Z) :
  (i < - Z.of_nat (List.length l) \/ Z.of_nat (List.length l) <= i)%Z ->
  py_getitem l i = Raise IndexError.
Proof.
  intros H. unfold py_getitem.
  destruct (Z.ltb_spec i 0);
    [destruct (Z.leb_spec 0 (i + Z.of_nat (List.length l)));
       [lia | reflexivity] |].
  destruct (Z.leb_spec 0 i); [| lia].
  destruct (Z.ltb_spec i (Z.of_nat (List.length l))); [lia | reflexivity].
Qed.

Lemma py_getitem_negative {A : Type} (l : list A) (k : nat) (a : A) :
  1 <= k <= List.length l ->
  (py_getitem l (- Z.of_nat k) = Ok a <->
   nth_error l (List.length l - k) = Some a).
Proof.
  intros Hk. unfold py_getitem.
  destruct (Z.ltb_spec (- Z.of_nat k) 0); [| lia].
  destruct (Z.leb_spec 0 (- Z.of_nat k + Z.of_nat (List.length l))); [| lia].
  destruct (Z.ltb_spec (- Z.of_nat k + Z.of_nat (List.length l))
              (Z.of_nat (List.length l))); [| lia].
  simpl.
  replace (Z.to_nat (- Z.of_nat k + Z.of_nat (List.length l)))
    with (List.length l - k) by lia.
  destruct (nth_error l (List.length l - k)) as [b |] eqn:E.
  - split; intros H'; inversion H'; reflexivity.
  - split; discriminate.
Qed.

(** X20.  Indexing a tree raises nothing but [IndexError].  An index from
    [-len(children)] to [-1] counts the children from the last one, an
    index below [-len(children)] or from [len(children)] on raises
    [IndexError]; on a leaf every index path that is not empty does. *)
Theorem getitem_edges (t : Tree) :
  (forall idx, returns (getitem t idx) \/ getitem t idx = Raise IndexError) /\
  (forall k c, 1 <= k <= List.length (children t) ->
     (getitem_int t (- Z.of_nat k) = Ok c <->
      nth_error (children t) (List.length (children t) - k) = Some c)) /\
  (forall i,
     (i < - Z.of_nat (List.length (children t)) \/
      Z.of_nat (List.length (children t)) <= i)%Z ->
     getitem_int t i = Raise IndexError) /\
  (children t = [] ->
   forall i rest, getitem t (i :: rest) = Raise IndexError).
Proof.
  split; [| split; [| split]].
  - intros idx. revert t.
    induction idx as [| i rest IH]; intros t; [left; exists t; reflexivity |].
    rewrite getitem_cons.
    destruct (py_getitem_cases (children t) i) as [[c ->] | ->];
      [apply IH | right; reflexivity].
  - intros k c Hk. apply py_getitem_negative. exact Hk.
  - intros i Hi. apply py_getitem_outside. exact Hi.
  - intros Hleaf i rest. rewrite getitem_cons, Hleaf.
    rewrite (py_getitem_outside (@nil Tree) i); [reflexivity |].
    simpl. lia.
Qed.

Lemma getitem_edges_witness :
  getitem_int (Node "S" [Node "A(a)" []; Node "B(b)" []]) (-1)
  = Ok (Node "B(b)" []) /\
  getitem_int (Node "S" [Node "A(a)" []; Node "B(b)" []]) 2
  = Raise IndexError /\
  getitem (Node "A(a)" []) [0%Z] = Raise IndexError.
Proof.
  split; [| split].
  - apply (proj1 (proj2 (getitem_edges
                           (Node "S" [Node "A(a)" []; Node "B(b)" []])))
             1 (Node "B(b)" [])); [simpl; lia | reflexivity].
  - apply (proj1 (proj2 (proj2 (getitem_edges
                           (Node "S" [Node "A(a)" []; Node "B(b)" []]))))
             2%Z). simpl. lia.
  - apply (proj2 (proj2 (proj2 (getitem_edges (Node "A(a)" [])))) eq_refl).
Defined.

(** ** The span map *)

Lemma span_map_of_keep (pairs : list (StringVariables * SpanIndices)) :
  forall d m k,
    span_map_of d pairs = Ok m ->
    ~ In k (flat_map (fun p => firstn 1 (fst p)) pairs) ->
    dict_get m k = dict_get d k.
Proof.
  induction pairs as [| [sv sp] pairs IH]; simpl; intros d m k H Hk.
  - inversion H; subst. reflexivity.
  - destruct sv as [| k0 sv]; [discriminate |]. simpl in Hk.
    rewrite (IH _ m k H) by tauto. unfold dict_set. simpl.
    destruct (strvar_eqb k k0) eqn:E; [| reflexivity].
    apply strvar_eqb_eq in E. exfalso. apply Hk. left. auto.
Qed.

Lemma span_map_of_last (pairs : list (StringVariables * SpanIndices)) :
  forall d m,
    span_map_of d pairs = Ok m ->
    NoDup (flat_map (fun p => firstn 1 (fst p)) pairs) ->
    forall k vs sp, In (k :: vs, sp) pairs -> dict_get m k = Ok sp.
Proof.
  induction pairs as [| [sv0 sp0] pairs IH]; simpl;
    intros d m H Hnd k vs sp Hin; [destruct Hin |].
  destruct sv0 as [| k0 sv0]; [discriminate |]. simpl in Hnd.
  inversion Hnd as [| ? ? Hnotin Hnd']; subst.
  destruct Hin as [Heq | Hin].
  - inversion Heq; subst.
    rewrite (span_map_of_keep pairs _ m k H Hnotin). unfold dict_set. simpl.
    rewrite strvar_eqb_refl. reflexivity.
  - exact (IH _ m H Hnd' k vs sp Hin).
Qed.

Lemma span_map_of_empty (pairs : list (StringVariables * SpanIndices)) :
  forall d sp,
    In ([], sp) pairs -> span_map_of d pairs = Raise IndexError.
Proof.
  induction pairs as [| [sv0 sp0] pairs IH]; simpl; intros d sp Hin;
    [destruct Hin |].
  destruct sv0 as [| k0 sv0]; [reflexivity |].
  destruct Hin as [Heq | Hin]; [discriminate Heq |].
  exact (IH _ sp Hin).
Qed.

Lemma flat_map_combine_fst {A B C : Type} (f : A -> list C) (l : list A) :
  forall l' : list B,
    List.length l = List.length l' ->
    flat_map (fun p => f (fst p)) (combine l l') = flat_map f l.
Proof.
  induction l as [| a l IH]; intros [| b l'] Hlen; try discriminate;
    [reflexivity |].
  simpl. rewrite (IH l' (eq_add_S _ _ Hlen)). reflexivity.
Qed.

Lemma nth_error_combine_In {A B : Type} (l : list A) :
  forall (l' : list B) i a b,
    nth_error l i = Some a -> nth_error l' i = Some b ->
    In (a, b) (combine l l').
Proof.
  induction l as [| x l IH]; intros [| y l'] [| i] a b Ha Hb;
    try discriminate.
  - inversion Ha; inversion Hb; subst. left. reflexivity.
  - right. exact (IH l' i a b Ha Hb).
Qed.

Lemma aligned_pairs (r : MCFGRule) (rs : list MCFGRuleElementInstance) :
  _right_side_aligns r rs = true ->
  List.length (right_side r) = List.length rs /\
  forall p, In p (combine (right_side r) rs) ->
    List.length (string_variables (fst p)) =
    List.length (string_spans (snd p)).
Proof.
  intros Hal. split; [exact (aligns_length r rs Hal) |].
  unfold _right_side_aligns in Hal.
  destruct (Nat.eqb (List.length rs) (List.length (right_side r)));
    [| discriminate].
  apply andb_true_iff in Hal. destruct Hal as [_ Hal].
  rewrite forallb_forall in Hal. intros p Hp.
  apply Nat.eqb_eq. exact (Hal p Hp).
Qed.

Lemma flat_map_nested {A B C : Type} (f : B -> list C) (g : A -> list B)
    (l : list A) :
  flat_map f (flat_map g l) = flat_map (fun x => flat_map f (g x)) l.
Proof.
  induction l as [| a l IH]; simpl; [reflexivity |].
  rewrite flat_map_app, IH. reflexivity.
Qed.

Lemma flat_map_ext_In {A B : Type} (f g : A -> list B) (l : list A) :
  (forall a, In a l -> f a = g a) -> flat_map f l = flat_map g l.
Proof.
  induction l as [| a l IH]; simpl; intros H; [reflexivity |].
  rewrite (H a (or_introl eq_refl)), IH; [reflexivity |].
  intros x Hx. apply H. right. exact Hx.
Qed.

Lemma zipped_keys (r : MCFGRule) (rs : list MCFGRuleElementInstance) :
  _right_side_aligns r rs = true ->
  flat_map (fun p => firstn 1 (fst p)) (zipped_components r rs) =
  bound_variables r.
Proof.
  intros Hal. destruct (aligned_pairs r rs Hal) as [Hlen Hcomps].
  unfold zipped_components, bound_variables.
  rewrite flat_map_nested.
  rewrite <- (flat_map_combine_fst
                (fun el => flat_map (firstn 1) (string_variables el))
                (right_side r) rs Hlen).
  apply flat_map_ext_In. intros p Hp.
  exact (flat_map_combine_fst (firstn 1) (string_variables (fst p))
           (string_spans (snd p)) (Hcomps p Hp)).
Qed.

(** X21.  [_build_span_map] raises [ValueError] when the instances do not
    align with the right side.  When they align it raises [IndexError] if a
    component of the right side is empty, and returns a map otherwise.  If
    the first variables of the components of the right side are pairwise
    different, the map binds the first variable of the [j]-th component of
    the [i]-th element to the [j]-th span of the [i]-th instance. *)
Theorem _build_span_map_binds (r : MCFGRule)
    (rs : list MCFGRuleElementInstance) :
  (_right_side_aligns r rs = false ->
   _build_span_map r rs = Raise ValueError) /\
  (_right_side_aligns r rs = true ->
   ((exists el, In el (right_side r) /\ In [] (string_variables el)) ->
    _build_span_map r rs = Raise IndexError) /\
   ((forall el, In el (right_side r) -> ~ In [] (string_variables el)) ->
    returns (_build_span_map r rs))) /\
  (forall m,
     _build_span_map r rs = Ok m ->
     NoDup (bound_variables r) ->
     forall i j el inst v vs sp,
       nth_error (right_side r) i = Some el ->
       nth_error rs i = Some inst ->
       nth_error (string_variables el) j = Some (v :: vs) ->
       nth_error (string_spans inst) j = Some sp ->
       dict_get m v = Ok sp).
Proof.
  unfold _build_span_map. split; [| split].
  - intros ->. reflexivity.
  - intros Hal. rewrite Hal. split.
    + intros [el [Hel Hempty]].
      destruct (aligned_components r rs el [] Hal Hel Hempty) as [sp Hsp].
      exact (span_map_of_empty _ [] sp Hsp).
    + intros Hne.
      destruct (span_map_of_keys (zipped_components r rs) [])
        as [m [Hm _]]; [| exists m; exact Hm].
      intros sv sp Hin ->. unfold zipped_components in Hin.
      apply in_flat_map in Hin. destruct Hin as [[el inst] [Hp Hin]].
      simpl in Hin. apply in_combine_l in Hin. apply in_combine_l in Hp.
      exact (Hne el Hp Hin).
  - intros m Hm Hnd i j el inst v vs sp Hel Hinst Hvs Hsp.
    destruct (_right_side_aligns r rs) eqn:Hal; [| discriminate].
    apply (span_map_of_last _ [] m Hm) with (vs := vs).
    + rewrite (zipped_keys r rs Hal). exact Hnd.
    + unfold zipped_components. apply in_flat_map. exists (el, inst).
      split; [exact (nth_error_combine_In _ _ i el inst Hel Hinst) |].
      simpl. exact (nth_error_combine_In _ _ j (v :: vs) sp Hvs Hsp).
Qed.

Lemma _build_span_map_binds_witness :
  dict_get [(Pos 2, (2, 5)%Z); (Pos 1, (0, 1)%Z); (Pos 0, (1, 2)%Z)] (Pos 2)
  = Ok (2, 5)%Z.
Proof.
  apply (proj2 (proj2 (_build_span_map_binds rule_1
                         [mkInstance "Vpres" [(1, 2)%Z];
                          mkInstance "Sbarwhrc" [(0, 1)%Z; (2, 5)%Z]]))
           [(Pos 2, (2, 5)%Z); (Pos 1, (0, 1)%Z); (Pos 0, (1, 2)%Z)] eq_refl)
    with (i := 1) (j := 1) (el := mkElement "Sbarwhrc" [[Pos 1]; [Pos 2]])
         (inst := mkInstance "Sbarwhrc" [(0, 1)%Z; (2, 5)%Z]) (vs := []);
    try reflexivity.
  repeat constructor; simpl; intuition discriminate.
Defined.

(** ** Recognition is sound *)

Lemma lookup_Some (m : SpanMap) (v : strvar) (sp : SpanIndices) :
  lookup m v = Some sp <-> dict_get m v = Ok sp.
Proof.
  unfold lookup. destruct (dict_get m v); split; intros H;
    inversion H; reflexivity.
Qed.

Lemma Forall2_combine {A B : Type} (P : A -> B -> Prop) (l : list A) :
  forall l' : list B,
    List.length l = List.length l' ->
    (forall p, In p (combine l l') -> P (fst p) (snd p)) ->
    Forall2 P l l'.
Proof.
  induction l as [| a l IH]; intros [| b l'] Hlen HP; try discriminate;
    constructor.
  - exact (HP (a, b) (or_introl eq_refl)).
  - apply IH; [exact (eq_add_S _ _ Hlen) |].
    intros p Hp. apply HP. right. exact Hp.
Qed.

Lemma In_combine_nth_error {A B : Type} (l : list A) :
  forall (l' : list B) a b,
    In (a, b) (combine l l') ->
    exists i, nth_error l i = Some a /\ nth_error l' i = Some b.
Proof.
  induction l as [| x l IH]; intros [| y l'] a b Hin; simpl in Hin;
    try contradiction.
  destruct Hin as [H | H].
  - inversion H; subst. exists 0. auto.
  - destruct (IH l' a b H) as [i [Ha Hb]]. exists (S i). auto.
Qed.

(** Instances that pass the alignment check of the code are aligned. *)
Lemma _right_side_aligns_aligned (r : MCFGRule)
    (rs : list MCFGRuleElementInstance) :
  _right_side_aligns r rs = true -> aligned r rs.
Proof.
  intros Hal. unfold aligned.
  apply Forall2_combine; [exact (aligns_length r rs Hal) |].
  unfold _right_side_aligns in Hal.
  destruct (Nat.eqb (List.length rs) (List.length (right_side r)));
    [| discriminate].
  apply andb_true_iff in Hal. destruct Hal as [Hvars Hcomps].
  rewrite forallb_forall in Hvars, Hcomps. intros p Hp. split.
  - apply String.eqb_eq. exact (Hvars p Hp).
  - apply Nat.eqb_eq. exact (Hcomps p Hp).
Qed.

(** A binding of the span map comes from a pair of the comprehension. *)
Lemma span_map_of_source (pairs : list (StringVariables * SpanIndices)) :
  forall d m k s,
    span_map_of d pairs = Ok m -> dict_get m k = Ok s ->
    dict_get d k = Ok s \/ exists vs, In (k :: vs, s) pairs.
Proof.
  induction pairs as [| [sv sp] pairs IH]; simpl; intros d m k s H Hk.
  - inversion H; subst. left. exact Hk.
  - destruct sv as [| k0 sv]; [discriminate |].
    destruct (IH _ m k s H Hk) as [Hd | [vs Hin]].
    + unfold dict_set in Hd. simpl in Hd.
      destruct (strvar_eqb k k0) eqn:E.
      * apply strvar_eqb_eq in E. subst k0. inversion Hd; subst sp.
        right. exists sv. left. reflexivity.
      * left. exact Hd.
    + right. exists vs. right. exact Hin.
Qed.

(** The span map of the code is a span map of the rule and the instances,
    when each component of the right side holds one variable and no variable
    is declared twice. *)
Lemma _build_span_map_is_span_map (r : MCFGRule)
    (rs : list MCFGRuleElementInstance) (m : SpanMap) :
  single_variables r -> NoDup (bound_variables r) ->
  _build_span_map r rs = Ok m -> binds r rs (lookup m).
Proof.
  intros Hsingle Hnd Hm v sp. rewrite lookup_Some.
  pose proof (_build_span_map_Ok_aligns r rs m Hm) as Hal.
  unfold _build_span_map in Hm. rewrite Hal in Hm. split.
  - intros Hv.
    destruct (span_map_of_source _ [] m v sp Hm Hv) as [Hd | [vs Hin]];
      [discriminate Hd |].
    unfold zipped_components in Hin. apply in_flat_map in Hin.
    destruct Hin as [[el inst] [Hp Hin]]. cbn [fst snd] in Hin.
    destruct (In_combine_nth_error _ _ _ _ Hp) as [i [Hel Hinst]].
    destruct (In_combine_nth_error _ _ _ _ Hin) as [j [Hvs Hsp]].
    exists i, j, el, inst.
    destruct (Hsingle el (v :: vs) (nth_error_In _ _ Hel)
                (nth_error_In _ _ Hvs)) as [v' Hv'].
    inversion Hv'; subst. auto.
  - intros [i [j [el [inst [Hel [Hinst [Hvs Hsp]]]]]]].
    apply (span_map_of_last _ [] m Hm) with (vs := []).
    + rewrite (zipped_keys r rs Hal). exact Hnd.
    + unfold zipped_components. apply in_flat_map. exists (el, inst).
      split; [exact (nth_error_combine_In _ _ i el inst Hel Hinst) |].
      cbn [fst snd]. exact (nth_error_combine_In _ _ j [v] sp Hvs Hsp).
Qed.

(** The adjacency checks of the code establish the concatenation. *)
Lemma adjacent_from_concatenation (m : SpanMap) (rest : list strvar) :
  forall prev sp,
    adjacent_from m prev rest = Ok true -> dict_get m prev = Ok sp ->
    exists se, dict_get m (last rest prev) = Ok se /\
               concatenation (lookup m) (prev :: rest) (fst sp) (snd se).
Proof.
  induction rest as [| cur rest IH]; intros prev sp Hadj Hsp.
  - exists sp. split; [exact Hsp |]. constructor.
    apply lookup_Some. rewrite Hsp. destruct sp; reflexivity.
  - simpl in Hadj. rewrite Hsp in Hadj. simpl in Hadj.
    destruct (dict_get m cur) as [sc | e |] eqn:Hsc; try discriminate.
    simpl in Hadj.
    destruct (Z.eqb_spec (snd sp) (fst sc)) as [Heq | Hne]; [| discriminate].
    destruct (IH cur sc Hadj Hsc) as [se [Hse Hcat]].
    exists se. rewrite last_cons. split; [exact Hse |].
    apply concatenation_more with (e := snd sp).
    + apply lookup_Some. rewrite Hsp. destruct sp; reflexivity.
    + rewrite Heq. exact Hcat.
Qed.

Lemma component_span_concatenation (m : SpanMap) (vs : StringVariables)
    (sp : SpanIndices) :
  component_span m vs = Ok (Some sp) ->
  concatenation (lookup m) vs (fst sp) (snd sp).
Proof.
  destruct vs as [| v0 rest]; [discriminate |]. unfold component_span.
  destruct (adjacent_from m v0 rest) as [[|] | e |] eqn:Hadj;
    try discriminate. simpl bind. cbv iota.
  destruct (dict_get m v0) as [b | e |] eqn:Hb; try discriminate.
  simpl bind.
  destruct (adjacent_from_concatenation m rest v0 b Hadj Hb)
    as [se [Hse Hcat]].
  change (match rest with [] => v0 | _ :: _ => last rest v0 end)
    with (last (v0 :: rest) v0).
  rewrite last_cons, Hse. simpl. intros H. inversion H; subst sp.
  exact Hcat.
Qed.

Lemma new_spans_of_concatenation (m : SpanMap)
    (comps : list StringVariables) :
  forall spans,
    new_spans_of m comps = Ok (Some spans) ->
    Forall2 (fun vs sp => concatenation (lookup m) vs (fst sp) (snd sp))
            comps spans.
Proof.
  induction comps as [| vs comps IH]; intros spans H.
  - inversion H; subst. constructor.
  - simpl in H.
    destruct (component_span m vs) as [[s0 |] | e |] eqn:Hc;
      try discriminate. simpl in H.
    destruct (new_spans_of m comps) as [[rest |] | e |] eqn:Hr;
      try discriminate. simpl in H. inversion H; subst spans.
    constructor; [exact (component_span_concatenation m vs s0 Hc) |].
    exact (IH rest eq_refl).
Qed.

(** An instance that the code returns for two instances is the instance of
    the left side of a rule with a right side. *)
Lemma instantiate_left_side_instantiates (r : MCFGRule)
    (a b c : MCFGRuleElementInstance) :
  (is_epsilon r = true ->
   exists w, string_variables (left_side r) = [[Word w]]) ->
  (is_epsilon r = false -> single_variables r /\ NoDup (bound_variables r)) ->
  instantiate_left_side r [a; b] = Ok (Some c) ->
  right_side r <> [] /\ instantiates r [a; b] c.
Proof.
  intros Hlex Hrhs H.
  assert (Hmap : instantiate_by_span_map r [a; b] = Ok (Some c) ->
                 right_side r <> [] /\ instantiates r [a; b] c).
  { clear H. unfold instantiate_by_span_map.
    destruct (_build_span_map r [a; b]) as [m | e |] eqn:Hm;
      try discriminate. simpl bind.
    destruct (new_spans_of m (string_variables (left_side r)))
      as [[spans |] | e |] eqn:Hs; try discriminate.
    simpl. intros H. inversion H; subst c.
    pose proof (_build_span_map_Ok_aligns r [a; b] m Hm) as Hal.
    assert (Heps : is_epsilon r = false).
    { unfold is_epsilon. pose proof (aligns_length r [a; b] Hal) as Hlen.
      destruct (right_side r); [discriminate Hlen | reflexivity]. }
    destruct (Hrhs Heps) as [Hsingle Hnd]. split.
    - unfold is_epsilon in Heps. intros E. rewrite E in Heps.
      discriminate Heps.
    - split; [exact (_right_side_aligns_aligned r [a; b] Hal) |].
      exists (lookup m).
      split; [exact (_build_span_map_is_span_map r [a; b] m Hsingle Hnd Hm) |].
      split; [reflexivity |].
      exact (new_spans_of_concatenation m _ spans Hs). }
  unfold instantiate_left_side in H.
  destruct (is_epsilon r) eqn:Heps; [| exact (Hmap H)].
  destruct (Hlex eq_refl) as [w Hw]. rewrite Hw in H.
  cbn [mapM bind first_of] in H.
  destruct (list_eq_dec strvar_eq_dec
              (map (fun el => Word (inst_variable el)) [a; b]) [Word w])
    as [E | _]; [discriminate E | exact (Hmap H)].
Qed.

Lemma chart_derivable (fuel : nat) (g : MultipleContextFreeGrammar)
    (words : list string) (chart : list ABEntry) :
  plain_grammar g ->
  _fill_chart fuel g words = Ok chart ->
  forall e, In e chart -> derivable g words (symbol e).
Proof.
  intros Hg H.
  pose proof (_fill_chart_derivations fuel g words chart H) as Hd.
  rewrite Forall_forall in Hd.
  assert (Hn : forall n e, In e chart -> index e < n ->
                           derivable g words (symbol e)).
  { induction n as [| n IH]; intros e He Hlt; [lia |].
    destruct (Hd e He) as [Hs | Hder].
    - destruct Hs as [_ [idx [word [rule [Hw [Hr [Heps [Hlit ->]]]]]]]].
      destruct (proj1 (Hg rule Hr) Heps) as [w Hcomps].
      unfold first_literal in Hlit. rewrite Hcomps in Hlit.
      inversion Hlit; subst w.
      apply (@derive_word g words idx word rule Hw Hr); [| exact Hcomps].
      unfold is_epsilon in Heps.
      destruct (right_side rule); [reflexivity | discriminate Heps].
    - destruct Hder as [e0 [e1 [rule [H0 [H1 [L0 [L1 [_ [Hr Hinst]]]]]]]]].
      destruct (Hg rule Hr) as [Hlex Hrhs].
      destruct (instantiate_left_side_instantiates rule (symbol e0)
                  (symbol e1) (symbol e) Hlex Hrhs Hinst) as [Hne Hi].
      apply (@derive_rule g words rule [symbol e0; symbol e1] (symbol e) Hr
               Hne); [| exact Hi].
      intros a [<- | [<- | []]];
        [apply IH; [exact H0 | lia] | apply IH; [exact H1 | lia]]. }
  intros e He. exact (Hn (S (index e)) e He (Nat.lt_succ_diag_r _)).
Qed.

Lemma small_grammar_plain : plain_grammar small_grammar.
Proof.
  intros rule [<- | [<- | [<- | []]]]; split; intros H;
    try discriminate H.
  - split.
    + intros el vs [<- | [<- | []]] [<- | []]; eexists; reflexivity.
    + repeat constructor; simpl; intuition discriminate.
  - eexists; reflexivity.
  - eexists; reflexivity.
Qed.

(** X22.  Recognition is sound for a grammar whose lexical rules hold one
    literal and whose other rules declare each variable once, in a
    component of its own: the symbol of every entry of a returned chart is
    an instance that the grammar derives over the input, as the
    specification describes derivation -- aligned instances, a span map of
    the declared variables, adjacent spans in each component of the left
    side; and when [_recognize] returns [True], the grammar derives a start
    variable over the span [(0, len(string))]. *)
Theorem recognize_sound (fuel : nat) (g : MultipleContextFreeGrammar)
    (words : list string) :
  plain_grammar g ->
  (forall chart, _fill_chart fuel g words = Ok chart ->
     forall e, In e chart -> derivable g words (symbol e)) /\
  (_recognize fuel g words = Ok true ->
   exists start, In start (_start_variables g) /\
     derivable g words
       (mkInstance (variable start) [(0%Z, Z.of_nat (List.length words))])).
Proof.
  intros Hg. split; [intros chart; exact (chart_derivable fuel g words chart Hg) |].
  intros H. unfold _recognize in H.
  destruct (_fill_chart fuel g words) as [chart | e |] eqn:Hc;
    try discriminate.
  cbn [bind] in H.
  destruct (filter (is_start_node g words) chart) as [| e l] eqn:Hf;
    [discriminate |].
  assert (He : In e (filter (is_start_node g words) chart))
    by (rewrite Hf; left; reflexivity).
  apply filter_In in He. destruct He as [He Hstart].
  apply is_start_node_spec in Hstart. destruct Hstart as [Hvar Hspans].
  apply in_map_iff in Hvar. destruct Hvar as [start [Hname Hin]].
  exists start. split; [exact Hin |].
  pose proof (chart_derivable fuel g words chart Hg Hc e He) as Hd.
  destruct (symbol e) as [v spans]. simpl in Hname, Hspans.
  rewrite Hname, <- Hspans. exact Hd.
Qed.

Lemma recognize_sound_witness :
  exists start, In start (_start_variables small_grammar) /\
    derivable small_grammar ["a"; "b"]
      (mkInstance (variable start) [(0%Z, Z.of_nat (List.length ["a"; "b"]))]).
Proof.
  apply (proj2 (recognize_sound 3 small_grammar ["a"; "b"]
                  small_grammar_plain)).
  reflexivity.
Defined.

(** The grammar of the examples does not derive its start variable over
    the words in the other order, and the code does not recognise them. *)
Example words_not_derived :
  _recognize 3 small_grammar ["b"; "a"] = Ok false /\
  ~ derivable small_grammar ["b"; "a"] (mkInstance "S" [(0, 2)%Z]).
Proof.
  split; [reflexivity |]. intros H.
  inversion H as [idx word rule Hw Hr Hright Hcomps Hc
                 | rule rs c Hr Hright Hrs Hi Hc].
  - destruct Hr as [<- | [<- | [<- | []]]]; discriminate.
  - destruct Hr as [<- | [<- | [<- | []]]];
      try (exfalso; apply Hright; reflexivity).
    destruct Hi as [Hal [sigma [Hb [_ Hcat]]]].
    unfold aligned in Hal. cbn [right_side small_grammar] in Hal.
    inversion Hal as [| el a0 ? rs0 [Ha _] Hal0]; subst.
    inversion Hal0 as [| el b0 ? rs1 [_ _] Hal1]; subst.
    inversion Hal1; subst.
    cbn in Hcat. inversion Hcat as [| vs sp ? ? Hc0 _]; subst.
    cbn [fst snd] in Hc0.
    inversion Hc0 as [| v vs' b1 e1 e2 Hs0 Hrest]; subst.
    apply Hb in Hs0.
    destruct Hs0 as [i [j [el [inst [Hel [Hinst [Hvs Hsp]]]]]]].
    destruct i as [| [| i]]; cbn in Hel;
      [| inversion Hel; subst el; destruct j as [| j];
         [discriminate Hvs | destruct j; discriminate Hvs]
       | destruct i; discriminate Hel].
    inversion Hel; subst el. cbn in Hinst. inversion Hinst; subst inst.
    destruct j as [| j]; [| destruct j; discriminate Hvs].
    pose proof (Hrs a0 (or_introl eq_refl)) as Hd.
    cbn in Ha.
    inversion Hd as [idx word rule Hw Hr' Hright' Hcomps' Hc'
                    | rule rs' c' Hr' Hright' _ Hi' Hc'].
    + rewrite <- Hc' in Hsp, Ha. cbn in Hsp, Ha.
      inversion Hsp as [[Hidx He1]].
      assert (idx = 0) by lia. subst idx. cbn in Hw. inversion Hw; subst word.
      destruct Hr' as [<- | [<- | [<- | []]]]; discriminate.
    + destruct Hr' as [<- | [<- | [<- | []]]];
        try (apply Hright'; reflexivity).
      destruct Hi' as [_ [_ [_ [Hv _]]]]. rewrite <- Ha in Hv.
      discriminate Hv.
Qed.

(** ** The order in which two entries are combined *)

Lemma chart_entry_unique (l : list ABEntry) (a b : ABEntry) :
  map index l = seq 0 (List.length l) ->
  In a l -> In b l -> index a = index b -> a = b.
Proof.
  intros Hids Ha Hb Hab.
  destruct (_get_item_position l 0 Hids) as [Hpos _].
  apply In_nth_error in Ha. destruct Ha as [i Hi].
  apply In_nth_error in Hb. destruct Hb as [j Hj].
  assert (Ei : index a = i).
  { pose proof (Hpos i) as H. rewrite Hi in H.
    apply _get_item_first in H. destruct H as [_ [_ [_ [H _]]]]. exact H. }
  assert (Ej : index b = j).
  { pose proof (Hpos j) as H. rewrite Hj in H.
    apply _get_item_first in H. destruct H as [_ [_ [_ [H _]]]]. exact H. }
  assert (E : j = i) by lia. rewrite E, Hi in Hj.
  inversion Hj. reflexivity.
Qed.

Lemma _fill_chart_orientation (fuel : nat) (g : MultipleContextFreeGrammar)
    (words : list string) (chart : list ABEntry) :
  _fill_chart fuel g words = Ok chart ->
  Forall (fun e =>
            backpointers e = [[None; None]] \/
            exists current element,
              In current chart /\ In element chart /\
              index element < index current /\
              ((backpointers e =
                  [[Some (index current, inst_variable (symbol current));
                    Some (index element, inst_variable (symbol element))]] /\
                reduce g [symbol current; symbol element] <> []) \/
               (backpointers e =
                  [[Some (index element, inst_variable (symbol element));
                    Some (index current, inst_variable (symbol current))]] /\
                reduce g [symbol current; symbol element] = [])))
         chart.
Proof.
  apply (chart_keeps g words
           (fun l e =>
              backpointers e = [[None; None]] \/
              exists current element,
                In current l /\ In element l /\
                index element < index current /\
                ((backpointers e =
                    [[Some (index current, inst_variable (symbol current));
                      Some (index element, inst_variable (symbol element))]] /\
                  reduce g [symbol current; symbol element] <> []) \/
                 (backpointers e =
                    [[Some (index element, inst_variable (symbol element));
                      Some (index current, inst_variable (symbol current))]] /\
                  reduce g [symbol current; symbol element] = [])))).
  - intros l l' e Hincl [Hs | [cur [el [Hc [He Hrest]]]]]; [left; exact Hs |].
    right. exists cur, el. split; [exact (Hincl _ Hc) |].
    split; [exact (Hincl _ He) | exact Hrest].
  - intros seeds Hs.
    assert (Hbps : Forall (fun e => backpointers e = [[None; None]])
                          (reindex 0 seeds)).
    { apply (reindex_shape (fun _ b => b = [[None; None]])).
      generalize (seed_shapes g words 0 seeds Hs). apply Forall_impl.
      intros e [Hbp _]. exact Hbp. }
    revert Hbps. apply Forall_impl. intros e Hbp. left. exact Hbp.
  - intros l current element rule c n Hc He _ _ Hle Hlc Hrule. split.
    + intros Hred _. right. exists current, element.
      split; [exact Hc |]. split; [exact He |]. split; [exact Hle |].
      left. split; [reflexivity |]. intros E. rewrite E in Hred.
      destruct Hred.
    + intros Hnone _ _. right. exists current, element.
      split; [exact Hc |]. split; [exact He |]. split; [exact Hle |].
      right. split; [reflexivity | exact Hnone].
Qed.

(** X23.  The back-pointers of a derived entry tell the order in which its
    two entries were tried, and the other order is tried only as a second
    choice.  For entries [a] and [b] of a returned chart that the
    back-pointers of a chart entry name in this order: if [a] is the later
    of the two, some rule of the grammar aligns with [(a, b)]; if [a] is the
    earlier one, no rule of the grammar aligns with [(b, a)].  So when a
    rule aligns with a later entry followed by an earlier one, no entry is
    derived from the two in the other order. *)
Theorem combine_order (fuel : nat) (g : MultipleContextFreeGrammar)
    (words : list string) (chart : list ABEntry) :
  _fill_chart fuel g words = Ok chart ->
  forall e a b na nb,
    In e chart -> In a chart -> In b chart ->
    backpointers e = [[Some (index a, na); Some (index b, nb)]] ->
    (index b < index a -> reduce g [symbol a; symbol b] <> []) /\
    (index a < index b -> reduce g [symbol b; symbol a] = []).
Proof.
  intros H e a b na nb He Ha Hb Hbp.
  destruct (_fill_chart_chart g words fuel chart H) as [Hids _].
  pose proof (_fill_chart_orientation fuel g words chart H) as Hall.
  rewrite Forall_forall in Hall.
  destruct (Hall e He) as [Hs | [cur [el [Hc [Hel [Hlt Hor]]]]]];
    [rewrite Hs in Hbp; discriminate Hbp |].
  destruct Hor as [[Hbp' Hred] | [Hbp' Hnone]]; rewrite Hbp' in Hbp;
    injection Hbp as Ea _ Eb _.
  - rewrite <- (chart_entry_unique chart cur a Hids Hc Ha Ea).
    rewrite <- (chart_entry_unique chart el b Hids Hel Hb Eb).
    split; [intros _; exact Hred | intros Hlt'; lia].
  - rewrite <- (chart_entry_unique chart el a Hids Hel Ha Ea).
    rewrite <- (chart_entry_unique chart cur b Hids Hc Hb Eb).
    split; [intros Hlt'; lia | intros _; exact Hnone].
Qed.

Lemma combine_order_witness :
  (1 < 0 ->
   reduce small_grammar
     [mkInstance "A" [(0, 1)%Z]; mkInstance "B" [(1, 2)%Z]] <> []) /\
  (0 < 1 ->
   reduce small_grammar
     [mkInstance "B" [(1, 2)%Z]; mkInstance "A" [(0, 1)%Z]] = []).
Proof.
  apply (combine_order 3 small_grammar ["a"; "b"] small_chart eq_refl
           (mkEntry (mkInstance "S" [(0, 2)%Z]) 2
                    [[Some (0, "A"); Some (1, "B")]])
           (mkEntry (mkInstance "A" [(0, 1)%Z]) 0 [[None; None]])
           (mkEntry (mkInstance "B" [(1, 2)%Z]) 1 [[None; None]])
           "A" "B");
    simpl; auto.
Defined.
